(** * groovebuoy: the room coordination engine

    A shallow embedding of [models/room.js] and of the promise-based
    [models/peer.js] (the one defining [join], [leaveRoom], [stepDown], ...),
    and the properties of the DJ rotation, the vote/skip protocol, the token
    round trip and the room removal timer that follow from the code.

    JavaScript objects live in two stores indexed by references (a [Peer]
    and a [Room] are compared by reference with [===] and [indexOf]); the
    event loop is a step function over socket calls, disconnects, timer
    expiries and the replies to [requestTrack]. *)

From Stdlib Require Import QArith.
From Stdlib Require Floats.SpecFloat.
From stdpp Require Import gmap strings list fin_maps pretty.

Set Default Proof Using "Type".
Local Open Scope string_scope.
Local Open Scope list_scope.
Local Open Scope nat_scope.

(** ** JavaScript values and array helpers *)

(** The values an [id], a token field or a profile can hold. *)
Inductive jsval :=
  | undefined
  | null
  | str (s : string).

#[global] Instance jsval_eq_dec : EqDecision jsval.
Proof. solve_decision. Defined.

(** [a === b] on such values. *)
Definition strict_eq (a b : jsval) : bool := bool_decide (a = b).

(** The property key a value is coerced to in [obj[key]]. *)
Definition property_key (v : jsval) : string :=
  match v with
  | undefined => "undefined"
  | null => "null"
  | str s => s
  end.

(** References to [Peer] and [Room] objects. *)
Definition pref := nat.
Definition rref := nat.

Section Arrays.
Context {A : Type} `{EqDecision A}.

(** [arr.findIndex(f)]: first index whose element satisfies [f], or [-1]. *)
Fixpoint findIndex (f : A → bool) (arr : list A) : Z :=
  match arr with
  | [] => (-1)%Z
  | x :: rest =>
      if f x then 0%Z
      else let i := findIndex f rest in
           if (i =? -1)%Z then (-1)%Z else (i + 1)%Z
  end.

(** [arr.indexOf(x)]. *)
Definition indexOf (x : A) (arr : list A) : Z :=
  findIndex (λ y, bool_decide (y = x)) arr.

(** [arr.splice(index, 1)] for an index that [indexOf] returned. *)
Definition splice1 (index : Z) (arr : list A) : list A :=
  delete (Z.to_nat index) arr.

(** [arr.includes(x)]. *)
Definition includes (x : A) (arr : list A) : bool :=
  bool_decide (x ∈ arr).
End Arrays.

(** ** Numbers: the two divisions of [setVote]

    [quorumPerc] and [downPerc] are quotients of array lengths and
    counters.  A quotient of two naturals is a rational, [Infinity] when
    only the divisor is zero, [NaN] when both are.  The comparisons with
    [.3] and [.5] are made on the exact rationals: for counts below 2^50 the
    rounding of the double division cannot move a quotient across either
    threshold. *)
Inductive jsnum :=
  | Fin (q : Q)
  | Infinity
  | NaN.

Definition js_div (n d : nat) : jsnum :=
  match d, n with
  | O, O => NaN
  | O, _ => Infinity
  | _, _ => Fin (Z.of_nat n # Pos.of_nat d)
  end.

(** [x >= q]. *)
Definition js_ge (x : jsnum) (q : Q) : bool :=
  match x with
  | Fin a => Qle_bool q a
  | Infinity => true
  | NaN => false
  end.

(** ** Data model *)

(** A track: [id] and [url] are assigned by the server, [data] is the
    payload the client may send, [title] stands for the client's metadata. *)
Record Track := {
  track_id : jsval;
  track_url : jsval;
  track_data : jsval;
  track_title : string;
}.

(** ** Numbers: the start of a track

    [startedAt] is [((+ new Date()) / 1000) + 5], computed in doubles: the
    quotient is rounded to the nearest double, and so is the sum.  A double
    is a binary64 value of the IEEE 754 standard, with its operations as the
    standard defines them; the time value of a [Date], an integer of
    milliseconds, converts exactly. *)
Definition double := SpecFloat.spec_float.

Definition prec : Z := 53.
Definition emax : Z := 1024.

(** The double nearest to an integer. *)
Definition number (z : Z) : double :=
  SpecFloat.binary_normalize prec emax z 0 false.

(** [(now / 1000) + 5]. *)
Definition seconds_plus_5 (now : Z) : double :=
  SpecFloat.SFadd prec emax
    (SpecFloat.SFdiv prec emax (number now) (number 1000)) (number 5).

Record NowPlaying := {
  np_track : Track;
  votes : gmap string bool;
  startedAt : double;
}.

Definition handle := nat.

Record Peer := {
  peer_id : jsval;
  profile : jsval;
  currentRoom : option rref;
  authTimeout : option handle;
}.

Record Room := {
  room_id : string;
  room_name : string;
  adminId : jsval;
  activeDj : option pref;
  admin : option pref;
  nowPlaying : option NowPlaying;
  onDeck : option Track;
  skipWarning : bool;
  peers : list pref;
  djs : list pref;
  _removalTimeout : option handle;
  skipTimeout : option handle;
}.

(** The directory (PeerServer).  Its class is not among the sources; the
    fields are the ones [room.js] and [peer.js] read and write.  [wsUrl] and
    [ws_url] are two distinct properties: [join] and [authenticate] compare
    against the first, [join] signs the second. *)
Record Server := {
  server_name : jsval;
  wsUrl : jsval;
  ws_url : jsval;
  url : string;
  rooms : list rref;
  server_peers : list pref;
  tracks : gmap string Track;
}.

(** What [Peer.serialize] returns. *)
Record PeerInfo := {
  info_id : jsval;
  info_profile : jsval;
}.

(** Calls the server makes on a client, [msg_x] for the call named [x]. *)
Inductive message :=
  | msg_setPeers (ps : list PeerInfo)
  | msg_playTrack (params : NowPlaying)
  | msg_setOnDeck (track : option Track)
  | msg_setDjs (ids : list jsval)
  | msg_setActiveDj (djId : jsval)
  | msg_stopTrack
  | msg_newChatMsg (id : string) (text : string) (fromPeerId : jsval) (timestamp : Z)
  | msg_setVotes (v : gmap string bool)
  | msg_setSkipWarning (value : bool)
  | msg_setPeerProfile (id : jsval) (p : jsval)
  | msg_requestTrack
  | msg_cycleSelectedQueue.

(** What leaves the process: a [socket.emit] to one peer, the directory's
    [broadcastRooms], and a socket closed by the server. *)
Inductive output :=
  | Emit (to : pref) (m : message)
  | BroadcastRooms
  | SocketDisconnect (p : pref).

(** The callbacks handed to [setTimeout]. *)
Inductive callback :=
  | closeUnauthenticated (p : pref)
  | skipExpired (r : rref)
  | removalExpired (r : rref).

Record Timer := {
  timer_handle : handle;
  due : Z;
  timer_callback : callback;
}.

(** The two places where an async function is suspended on the reply to
    [requestTrack], with the local variable it holds ([dj], [nextDj]). *)
Inductive continuation :=
  | spinDj_await (r : rref) (dj : pref)
  | fetchOnDeck_await (r : rref) (nextDj : pref).

Record Await := {
  await_id : nat;
  await_cont : continuation;
}.

Record World := {
  server : Server;
  JWT_SECRET : string;
  peer_heap : gmap pref Peer;
  room_heap : gmap rref Room;
  timers : list Timer;
  awaiting : list Await;
  clock : Z;
  counter : nat;
}.

#[global] Instance callback_eq_dec : EqDecision callback.
Proof. solve_decision. Defined.
#[global] Instance continuation_eq_dec : EqDecision continuation.
Proof. solve_decision. Defined.

(** *** Field updates *)

Definition set_activeDj (v : option pref) (R : Room) : Room :=
  {| room_id := room_id R; room_name := room_name R; adminId := adminId R;
     activeDj := v; admin := admin R; nowPlaying := nowPlaying R;
     onDeck := onDeck R; skipWarning := skipWarning R; peers := peers R;
     djs := djs R; _removalTimeout := _removalTimeout R;
     skipTimeout := skipTimeout R |}.

Definition set_admin (v : option pref) (R : Room) : Room :=
  {| room_id := room_id R; room_name := room_name R; adminId := adminId R;
     activeDj := activeDj R; admin := v; nowPlaying := nowPlaying R;
     onDeck := onDeck R; skipWarning := skipWarning R; peers := peers R;
     djs := djs R; _removalTimeout := _removalTimeout R;
     skipTimeout := skipTimeout R |}.

Definition set_nowPlaying (v : option NowPlaying) (R : Room) : Room :=
  {| room_id := room_id R; room_name := room_name R; adminId := adminId R;
     activeDj := activeDj R; admin := admin R; nowPlaying := v;
     onDeck := onDeck R; skipWarning := skipWarning R; peers := peers R;
     djs := djs R; _removalTimeout := _removalTimeout R;
     skipTimeout := skipTimeout R |}.

Definition set_onDeck (v : option Track) (R : Room) : Room :=
  {| room_id := room_id R; room_name := room_name R; adminId := adminId R;
     activeDj := activeDj R; admin := admin R; nowPlaying := nowPlaying R;
     onDeck := v; skipWarning := skipWarning R; peers := peers R;
     djs := djs R; _removalTimeout := _removalTimeout R;
     skipTimeout := skipTimeout R |}.

Definition set_skipWarning (v : bool) (R : Room) : Room :=
  {| room_id := room_id R; room_name := room_name R; adminId := adminId R;
     activeDj := activeDj R; admin := admin R; nowPlaying := nowPlaying R;
     onDeck := onDeck R; skipWarning := v; peers := peers R;
     djs := djs R; _removalTimeout := _removalTimeout R;
     skipTimeout := skipTimeout R |}.

Definition set_peers (v : list pref) (R : Room) : Room :=
  {| room_id := room_id R; room_name := room_name R; adminId := adminId R;
     activeDj := activeDj R; admin := admin R; nowPlaying := nowPlaying R;
     onDeck := onDeck R; skipWarning := skipWarning R; peers := v;
     djs := djs R; _removalTimeout := _removalTimeout R;
     skipTimeout := skipTimeout R |}.

Definition set_djs (v : list pref) (R : Room) : Room :=
  {| room_id := room_id R; room_name := room_name R; adminId := adminId R;
     activeDj := activeDj R; admin := admin R; nowPlaying := nowPlaying R;
     onDeck := onDeck R; skipWarning := skipWarning R; peers := peers R;
     djs := v; _removalTimeout := _removalTimeout R;
     skipTimeout := skipTimeout R |}.

Definition set_removalTimeout (v : option handle) (R : Room) : Room :=
  {| room_id := room_id R; room_name := room_name R; adminId := adminId R;
     activeDj := activeDj R; admin := admin R; nowPlaying := nowPlaying R;
     onDeck := onDeck R; skipWarning := skipWarning R; peers := peers R;
     djs := djs R; _removalTimeout := v; skipTimeout := skipTimeout R |}.

Definition set_skipTimeout (v : option handle) (R : Room) : Room :=
  {| room_id := room_id R; room_name := room_name R; adminId := adminId R;
     activeDj := activeDj R; admin := admin R; nowPlaying := nowPlaying R;
     onDeck := onDeck R; skipWarning := skipWarning R; peers := peers R;
     djs := djs R; _removalTimeout := _removalTimeout R; skipTimeout := v |}.

Definition set_votes (v : gmap string bool) (np : NowPlaying) : NowPlaying :=
  {| np_track := np_track np; votes := v; startedAt := startedAt np |}.

Definition set_peer_id (v : jsval) (P : Peer) : Peer :=
  {| peer_id := v; profile := profile P; currentRoom := currentRoom P;
     authTimeout := authTimeout P |}.

Definition set_profile (v : jsval) (P : Peer) : Peer :=
  {| peer_id := peer_id P; profile := v; currentRoom := currentRoom P;
     authTimeout := authTimeout P |}.

Definition set_currentRoom (v : option rref) (P : Peer) : Peer :=
  {| peer_id := peer_id P; profile := profile P; currentRoom := v;
     authTimeout := authTimeout P |}.

Definition set_rooms (v : list rref) (S : Server) : Server :=
  {| server_name := server_name S; wsUrl := wsUrl S; ws_url := ws_url S;
     url := url S; rooms := v; server_peers := server_peers S;
     tracks := tracks S |}.

Definition set_server_peers (v : list pref) (S : Server) : Server :=
  {| server_name := server_name S; wsUrl := wsUrl S; ws_url := ws_url S;
     url := url S; rooms := rooms S; server_peers := v; tracks := tracks S |}.

Definition set_tracks (v : gmap string Track) (S : Server) : Server :=
  {| server_name := server_name S; wsUrl := wsUrl S; ws_url := ws_url S;
     url := url S; rooms := rooms S; server_peers := server_peers S;
     tracks := v |}.

Definition with_server (f : Server → Server) (w : World) : World :=
  {| server := f (server w); JWT_SECRET := JWT_SECRET w;
     peer_heap := peer_heap w; room_heap := room_heap w; timers := timers w;
     awaiting := awaiting w; clock := clock w; counter := counter w |}.

Definition with_peer_heap (f : gmap pref Peer → gmap pref Peer) (w : World) : World :=
  {| server := server w; JWT_SECRET := JWT_SECRET w;
     peer_heap := f (peer_heap w); room_heap := room_heap w;
     timers := timers w; awaiting := awaiting w; clock := clock w;
     counter := counter w |}.

Definition with_room_heap (f : gmap rref Room → gmap rref Room) (w : World) : World :=
  {| server := server w; JWT_SECRET := JWT_SECRET w;
     peer_heap := peer_heap w; room_heap := f (room_heap w);
     timers := timers w; awaiting := awaiting w; clock := clock w;
     counter := counter w |}.

Definition with_timers (f : list Timer → list Timer) (w : World) : World :=
  {| server := server w; JWT_SECRET := JWT_SECRET w;
     peer_heap := peer_heap w; room_heap := room_heap w;
     timers := f (timers w); awaiting := awaiting w; clock := clock w;
     counter := counter w |}.

Definition with_awaiting (f : list Await → list Await) (w : World) : World :=
  {| server := server w; JWT_SECRET := JWT_SECRET w;
     peer_heap := peer_heap w; room_heap := room_heap w;
     timers := timers w; awaiting := f (awaiting w); clock := clock w;
     counter := counter w |}.

Definition with_clock (f : Z → Z) (w : World) : World :=
  {| server := server w; JWT_SECRET := JWT_SECRET w;
     peer_heap := peer_heap w; room_heap := room_heap w;
     timers := timers w; awaiting := awaiting w; clock := f (clock w);
     counter := counter w |}.

Definition with_counter (f : nat → nat) (w : World) : World :=
  {| server := server w; JWT_SECRET := JWT_SECRET w;
     peer_heap := peer_heap w; room_heap := room_heap w;
     timers := timers w; awaiting := awaiting w; clock := clock w;
     counter := f (counter w) |}.

(** [new Room({name, adminId, server})] with [id = uuid()]. *)
Definition new_Room (id name : string) (adminId : jsval) : Room :=
  {| room_id := id; room_name := name; adminId := adminId;
     activeDj := None; admin := None; nowPlaying := None; onDeck := None;
     skipWarning := false; peers := []; djs := [];
     _removalTimeout := None; skipTimeout := None |}.

(** [new Peer({socket, server})], [authTimeout] being the timer it starts. *)
Definition new_Peer (authTimeout : handle) : Peer :=
  {| peer_id := null; profile := null; currentRoom := None;
     authTimeout := Some authTimeout |}.

(** Dereferencing.  A JavaScript reference never dangles; the stores are
    read with a default so that the methods are total. *)
#[global] Instance Room_inhabited : Inhabited Room :=
  populate (new_Room "" "" undefined).
#[global] Instance Peer_inhabited : Inhabited Peer :=
  populate (new_Peer 0).

Definition room_of (w : World) (r : rref) : Room := room_heap w !!! r.
Definition peer_of (w : World) (p : pref) : Peer := peer_heap w !!! p.

(** ** Effects

    A method is a function from the state of the process to its result, the
    new state and what it sent, in program order. *)
Definition M (A : Type) : Type := World → A * World * list output.

#[global] Instance M_ret : MRet M := λ A a w, (a, w, []).
#[global] Instance M_bind : MBind M := λ A B k m w,
  let x := m w in
  let y := k x.1.1 x.1.2 in
  (y.1.1, y.1.2, x.2 ++ y.2).

(** The three components of what a method yields. *)
Definition returned {A} (x : A * World * list output) : A := x.1.1.
Definition after {A} (x : A * World * list output) : World := x.1.2.
Definition outputs {A} (x : A * World * list output) : list output := x.2.

Definition gets {A} (f : World → A) : M A := λ w, (f w, w, []).
Definition modify (f : World → World) : M unit := λ w, ((), f w, []).
Definition emit (o : output) : M unit := λ w, ((), w, [o]).

Definition pass : M unit := mret ().

Definition this_room (r : rref) : M Room := gets (λ w, room_of w r).
Definition update_room (r : rref) (f : Room → Room) : M unit :=
  modify (with_room_heap (alter f r)).
Definition this_peer (p : pref) : M Peer := gets (λ w, peer_of w p).
Definition update_peer (p : pref) (f : Peer → Peer) : M unit :=
  modify (with_peer_heap (alter f p)).

(** One counter provides the timer handles, the uuids, the object
    references and the names of the suspended calls. *)
Definition fresh : M nat := λ w, (counter w, with_counter S w, []).

Definition uuid : M string :=
  n ← fresh; mret ("uuid-" +:+ pretty n).

Definition setTimeout (cb : callback) (ms : Z) : M handle :=
  h ← fresh;
  now ← gets clock;
  modify (with_timers (λ ts,
    ts ++ [{| timer_handle := h; due := (now + ms)%Z; timer_callback := cb |}]));;
  mret h.

(** [clearTimeout(null)], and [clearTimeout] of a timer that has fired, do
    nothing. *)
Definition clearTimeout (h : option handle) : M unit :=
  match h with
  | None => pass
  | Some h => modify (with_timers (filter (λ t, timer_handle t ≠ h)))
  end.

Definition suspend (k : continuation) : M unit :=
  a ← fresh;
  modify (with_awaiting (λ l, l ++ [{| await_id := a; await_cont := k |}])).

Fixpoint forEach {A} (arr : list A) (f : A → M unit) : M unit :=
  match arr with
  | [] => pass
  | x :: rest => f x;; forEach rest f
  end.

Definition serialize_peer (P : Peer) : PeerInfo :=
  {| info_id := peer_id P; info_profile := profile P |}.

(** [peer.send({name, params})]: the returned promise tells whether the call
    was emitted.  The executor first evaluates [this.id.split('-')]; on a
    peer whose [id] is not a string that throws, the promise is rejected and
    nothing is emitted. *)
Definition send (p : pref) (m : message) : M bool :=
  P ← this_peer p;
  match peer_id P with
  | str _ => emit (Emit p m);; mret true
  | _ => mret false
  end.

(** [this.server.broadcastRooms()]; the directory's code is not among the
    sources, the call is recorded as one output. *)
Definition broadcastRooms : M unit := emit BroadcastRooms.

(** The claims of a token and a token.  The signing primitive is a
    pluggable symmetric authenticator: a token carries its claims and the key
    it was signed with, and verifies under that key only.  A property whose
    value is [undefined] is dropped by the encoding and reads as [undefined]
    after decoding. *)
Record Claims := {
  claim_u : jsval;
  claim_n : jsval;
  claim_i : jsval;
}.

Record Token := {
  payload : Claims;
  signed_with : string;
}.

Definition JWT_sign (claims : Claims) (secret : string) : Token :=
  {| payload := claims; signed_with := secret |}.

(** [JWT.verify]: the claims, or [None] where the library throws. *)
Definition JWT_verify (jwt : Token) (secret : string) : option Claims :=
  if bool_decide (signed_with jwt = secret) then Some (payload jwt) else None.

(** [room.serialize({includePeers: true})] and [room.serialize()]. *)
Record RoomState := {
  state_id : string;
  state_name : string;
  state_skipWarning : bool;
  state_peers : list PeerInfo;
  state_djs : list jsval;
  state_activeDj : jsval;
}.

Record RoomSummary := {
  summary_id : string;
  summary_name : string;
  summary_skipWarning : bool;
  summary_peerCount : nat;
  summary_nowPlaying : option NowPlaying;
}.

(** The result objects of the handlers: [{success: true}],
    [{error: true, message}], and the payloads of the handlers that return
    one; [no_value] is a handler returning [undefined].  The last three are
    what a member of [Object.prototype] returns when it is called in the
    place of a handler: a string, [false], and the object [Object(params)]. *)
Inductive reply :=
  | success
  | error (message : string)
  | joined (token : Token) (peerId : jsval)
  | authenticated (peerId : jsval)
  | profile_set (peerId : jsval)
  | room_state (s : RoomState)
  | room_summary (s : RoomSummary)
  | room_list (l : list RoomSummary)
  | no_value
  | js_string (s : string)
  | js_false
  | js_object_of_params.

(** Truthiness of what a method returned: every object is truthy. *)
Definition truthy (v : reply) : bool :=
  match v with
  | no_value | js_false => false
  | js_string s => negb (bool_decide (s = ""))
  | _ => true
  end.

(** The reduction of [setVote] over [Object.keys(votes)]: a [true] entry
    adds one to [ups], any other adds one to [downs].  The traversal order
    does not matter to the two counters. *)
Definition count_votes (v : gmap string bool) : nat * nat :=
  foldl (λ (acc : nat * nat) (peerId : string),
           let ups := acc.1 in
           let downs := acc.2 in
           if default false (v !! peerId) then (ups + 1, downs) else (ups, downs + 1))
        (0, 0) (map_to_list v).*1.

(** [votes[key] = value] for a boolean [value], on the plain object that
    [votes] is.  The own properties of the object are the entries of the
    map.  The key ["__proto__"] is not written: there the assignment reaches
    the setter that the object inherits from [Object.prototype], and that
    setter ignores a value that is neither an object nor [null].  Every other
    key, also the name of an inherited method, becomes an own property. *)
Definition set_property (key : string) (value : bool) (obj : gmap string bool)
  : gmap string bool :=
  if bool_decide (key = "__proto__") then obj else <[key := value]> obj.

Definition MAX_DJS : nat := 5.

Module Room.

Definition broadcast (r : rref) (m : message) (excludeIds : list jsval) : M unit :=
  R ← this_room r;
  forEach (peers R) (λ peer,
    P ← this_peer peer;
    if includes (peer_id P) excludeIds then pass
    else send peer m;; pass).

Definition setOnDeck (r : rref) (track : option Track) : M unit :=
  broadcast r (msg_setOnDeck track) [];;
  update_room r (set_onDeck track).

Definition setActiveDj (r : rref) (peer : option pref) : M unit :=
  match peer with
  | None =>
      broadcast r (msg_setActiveDj null) [];;
      update_room r (set_activeDj None)
  | Some p =>
      update_room r (set_activeDj (Some p));;
      P ← this_peer p;
      broadcast r (msg_setActiveDj (peer_id P)) []
  end.

Definition nextDj (R : Room) : option pref :=
  if bool_decide (length (djs R) = 0) then None
  else match activeDj R with
       | None => djs R !! 0
       | Some a =>
           let currentIndex := indexOf a (djs R) in
           let nextIndex := ((currentIndex + 1) `rem` Z.of_nat (length (djs R)))%Z in
           djs R !! Z.to_nat nextIndex
       end.

(** The track as the server keeps and publishes it: [track.id = uuid()],
    [track.url = server.url + 'tracks/' + track.id]. *)
Definition stamp (id : string) (base : string) (track : Track) : Track :=
  {| track_id := str id; track_url := str (base +:+ "tracks/" +:+ id);
     track_data := track_data track; track_title := track_title track |}.

(** [delete track.data]. *)
Definition delete_data (track : Track) : Track :=
  {| track_id := track_id track; track_url := track_url track;
     track_data := undefined; track_title := track_title track |}.

(** [fetchOnDeck] up to its [await]. *)
Definition fetchOnDeck (r : rref) : M unit :=
  R ← this_room r;
  match onDeck R with
  | Some t => modify (with_server (λ S,
                set_tracks (delete (property_key (track_id t)) (tracks S)) S))
  | None => pass
  end;;
  match nextDj R with
  | None => pass
  | Some nextDj =>
      sent ← send nextDj msg_requestTrack;
      if sent : bool then suspend (fetchOnDeck_await r nextDj) else pass
  end.

(** [fetchOnDeck] from the reply [{track}] on. *)
Definition fetchOnDeck_resume (r : rref) (nextDj0 : pref) (track : Track) : M unit :=
  R ← this_room r;
  if bool_decide (nextDj R ≠ Some nextDj0) then pass
  else
    id ← uuid;
    base ← gets (λ w, url (server w));
    let track := stamp id base track in
    modify (with_server (λ S, set_tracks (<[id := track]> (tracks S)) S));;
    setOnDeck r (Some (delete_data track)).

(** [spinDj] from [delete track.data] on. *)
Definition spinDj_publish (r : rref) (dj : pref) (track : Track) : M unit :=
  now ← gets clock;
  let np := {| np_track := delete_data track; votes := ∅;
               startedAt := seconds_plus_5 now |} in
  update_room r (set_nowPlaying (Some np));;
  broadcastRooms;;
  broadcast r (msg_playTrack np) [];;
  send dj msg_cycleSelectedQueue;;
  fetchOnDeck r.

(** [spinDj] up to its [await], or to its end when a track is on deck. *)
Definition spinDj (r : rref) : M unit :=
  R ← this_room r;
  let dj := nextDj R in
  setActiveDj r dj;;
  match dj with
  | None => setOnDeck r None
  | Some dj =>
      match onDeck R with
      | Some track =>
          update_room r (set_onDeck None);;
          spinDj_publish r dj track
      | None =>
          sent ← send dj msg_requestTrack;
          if sent : bool then suspend (spinDj_await r dj) else pass
      end
  end.

(** [spinDj] from the reply [resp] on. *)
Definition spinDj_resume (r : rref) (dj : pref) (track : Track) : M unit :=
  id ← uuid;
  base ← gets (λ w, url (server w));
  let track := stamp id base track in
  modify (with_server (λ S, set_tracks (<[id := track]> (tracks S)) S));;
  spinDj_publish r dj track.

Definition endTrack (r : rref) : M bool :=
  R ← this_room r;
  match nowPlaying R with
  | None => mret false
  | Some np =>
      modify (with_server (λ S,
        set_tracks (delete (property_key (track_id (np_track np))) (tracks S)) S));;
      update_room r (set_nowPlaying None);;
      broadcast r msg_stopTrack [];;
      broadcast r (msg_setActiveDj null) [];;
      broadcastRooms;;
      spinDj r;;
      mret true
  end.

Definition removeDj (r : rref) (peer : pref) : M bool :=
  R ← this_room r;
  let index := indexOf peer (djs R) in
  if (index =? -1)%Z then mret false
  else
    let refreshOnDeck := bool_decide (nextDj R = Some peer) in
    update_room r (set_djs (splice1 index (djs R)));;
    R ← this_room r;
    ids ← gets (λ w, (λ p, peer_id (peer_of w p)) <$> djs R);
    broadcast r (msg_setDjs ids) [];;
    if bool_decide (activeDj R = Some peer) then endTrack r
    else
      (if negb (bool_decide (length (djs R) = 0)) && refreshOnDeck
       then fetchOnDeck r
       else if bool_decide (length (djs R) = 0)
            then setOnDeck r None
            else pass);;
      mret true.

(** Promotes the given peer to DJ. *)
Definition addDj (r : rref) (peer : pref) : M reply :=
  R ← this_room r;
  P ← this_peer peer;
  ids ← gets (λ w, (λ p, peer_id (peer_of w p)) <$> djs R);
  if bool_decide (MAX_DJS ≤ length (djs R))
  then mret (error "too many djs, not enough mics")
  else if negb (findIndex (strict_eq (peer_id P)) ids =? -1)%Z
  then mret (error "already a dj")
  else
    update_room r (set_djs (djs R ++ [peer]));;
    R ← this_room r;
    ids ← gets (λ w, (λ p, peer_id (peer_of w p)) <$> djs R);
    broadcast r (msg_setDjs ids) [];;
    (if bool_decide (length (djs R) = 1) then spinDj r else pass);;
    R ← this_room r;
    (if bool_decide (nextDj R = Some peer) then fetchOnDeck r else pass);;
    mret success.

Definition triggerRemoval (r : rref) : M unit :=
  h ← setTimeout (removalExpired r) 45000;
  update_room r (set_removalTimeout (Some h)).

Definition addPeer (r : rref) (peer : pref) : M unit :=
  R ← this_room r;
  P ← this_peer peer;
  (if strict_eq (peer_id P) (adminId R)
   then update_room r (set_admin (Some peer)) else pass);;
  update_room r (set_peers (peers R ++ [peer]));;
  clearTimeout (_removalTimeout R);;
  R ← this_room r;
  infos ← gets (λ w, (λ p, serialize_peer (peer_of w p)) <$> peers R);
  broadcast r (msg_setPeers infos) [peer_id P];;
  broadcastRooms;;
  match nowPlaying R with
  | Some np => send peer (msg_playTrack np);; pass
  | None => pass
  end;;
  match onDeck R with
  | Some track => send peer (msg_setOnDeck (Some track));; pass
  | None => pass
  end.

Definition removePeer (r : rref) (peer : pref) : M unit :=
  R ← this_room r;
  let index := indexOf peer (peers R) in
  if (index =? -1)%Z then pass
  else
    update_room r (set_peers (splice1 index (peers R)));;
    removeDj r peer;;
    R ← this_room r;
    (if bool_decide (length (peers R) = 0) then triggerRemoval r else pass);;
    (if bool_decide (admin R = Some peer)
     then update_room r (set_admin None) else pass);;
    R ← this_room r;
    infos ← gets (λ w, (λ p, serialize_peer (peer_of w p)) <$> peers R);
    broadcast r (msg_setPeers infos) [];;
    broadcastRooms.

Definition sendChat (r : rref) (text : string) (from : pref) : M unit :=
  id ← uuid;
  P ← this_peer from;
  now ← gets clock;
  broadcast r (msg_newChatMsg id text (peer_id P) now) [].

Definition setVote (r : rref) (peerId : jsval) (direction : bool) : M reply :=
  R ← this_room r;
  match nowPlaying R with
  | None => mret (error "there is no track playing")
  | Some np =>
      let np := set_votes (set_property (property_key peerId) direction (votes np)) np in
      update_room r (set_nowPlaying (Some np));;
      broadcast r (msg_setVotes (votes np)) [];;
      let ups := (count_votes (votes np)).1 in
      let downs := (count_votes (votes np)).2 in
      let quorumPerc := js_div (ups + downs) (length (peers R)) in
      let downPerc := js_div downs (ups + downs) in
      let shouldSkip := js_ge quorumPerc (3 # 10) && js_ge downPerc (1 # 2) in
      (if negb (skipWarning R) && shouldSkip then
         broadcast r (msg_setSkipWarning true) [];;
         update_room r (set_skipWarning true);;
         h ← setTimeout (skipExpired r) 5000;
         update_room r (set_skipTimeout (Some h))
       else if skipWarning R && negb shouldSkip then
         clearTimeout (skipTimeout R);;
         update_room r (set_skipWarning false);;
         broadcast r (msg_setSkipWarning false) []
       else pass);;
      mret success
  end.

(** The callback of the skip timer. *)
Definition skipTimeout_fired (r : rref) : M unit :=
  update_room r (set_skipWarning false);;
  broadcast r (msg_setSkipWarning false) [];;
  endTrack r;;
  pass.

End Room.

(** ** The directory's operations

    [models/peer-server.js] is not among the sources.  The operations the
    room and the peer call on it are written from the specification. *)

(** [room.serialize({includePeers})]. *)
Definition serialize_state (w : World) (R : Room) : RoomState :=
  {| state_id := room_id R; state_name := room_name R;
     state_skipWarning := skipWarning R;
     state_peers := (λ p, serialize_peer (peer_of w p)) <$> peers R;
     state_djs := (λ p, peer_id (peer_of w p)) <$> djs R;
     state_activeDj := from_option (λ p, peer_id (peer_of w p)) null (activeDj R) |}.

Definition serialize_summary (R : Room) : RoomSummary :=
  {| summary_id := room_id R; summary_name := room_name R;
     summary_skipWarning := skipWarning R;
     summary_peerCount := length (peers R);
     summary_nowPlaying := nowPlaying R |}.

(** Modelled from the spec: [server.createRoom], which is not among the
    sources; it mints a room, [new Room({name, adminId, server})], from the
    properties of its argument and enters it in the directory. *)
Definition server_createRoom (name : string) (adminId : jsval) : M rref :=
  r ← fresh;
  id ← uuid;
  modify (with_room_heap (<[r := new_Room id name adminId]>));;
  modify (with_server (λ S, set_rooms (rooms S ++ [r]) S));;
  mret r.

(** Modelled from the spec: [server.removeRoom], which is not among the
    sources; it detaches the room from the directory and evicts the room's
    tracks from the registry. *)
Definition server_removeRoom (r : rref) : M unit :=
  R ← this_room r;
  let evict (t : option Track) (m : gmap string Track) :=
    match t with
    | Some t => delete (property_key (track_id t)) m
    | None => m
    end in
  modify (with_server (λ S,
    set_tracks (evict (onDeck R) (evict (np_track <$> nowPlaying R) (tracks S)))
      (set_rooms (filter (λ r', r' ≠ r) (rooms S)) S))).

(** Modelled from the spec: [server.removePeer], which is not among the
    sources; it takes the peer out of the roster of connected peers. *)
Definition server_removePeer (p : pref) : M unit :=
  modify (with_server (λ S, set_server_peers (filter (λ p', p' ≠ p) (server_peers S)) S)).

(** The callback of the removal timer ([triggerRemoval]). *)
Definition removalTimeout_fired (r : rref) : M unit :=
  R ← this_room r;
  if bool_decide (0 < length (peers R)) then pass
  else server_removeRoom r.

(** ** The peer *)

(** What a handler evaluates to: a value, or an exception. *)
Inductive completion :=
  | value (v : reply)
  | throw (e : string).

Module Peer.

Definition join (p : pref) (jwt : Token) : M reply :=
  secret ← gets JWT_SECRET;
  S ← gets server;
  match JWT_verify jwt secret with
  | None => mret (error "invalid token")
  | Some invite =>
      if negb (strict_eq (claim_u invite) (wsUrl S))
         || negb (strict_eq (claim_n invite) (server_name S))
      then mret (error "invalid token")
      else
        id ← uuid;
        update_peer p (set_peer_id (str id));;
        let token := JWT_sign {| claim_u := ws_url S;
                                 claim_n := server_name S;
                                 claim_i := str id |} secret in
        P ← this_peer p;
        clearTimeout (authTimeout P);;
        mret (joined token (str id))
  end.

Definition authenticate (p : pref) (jwt : Token) : M completion :=
  secret ← gets JWT_SECRET;
  S ← gets server;
  match JWT_verify jwt secret with
  | None => mret (throw "JsonWebTokenError: invalid signature")
  | Some token =>
      if negb (strict_eq (claim_u token) (wsUrl S))
         || negb (strict_eq (claim_n token) (server_name S))
      then mret (value (error "invalid token"))
      else
        update_peer p (set_peer_id (claim_i token));;
        P ← this_peer p;
        clearTimeout (authTimeout P);;
        mret (value (authenticated (claim_i token)))
  end.

Definition fetchRooms : M reply :=
  gets (λ w, room_list ((λ r, serialize_summary (room_of w r)) <$> rooms (server w))).

Definition joinRoom (p : pref) (id : jsval) : M reply :=
  found ← gets (λ w,
    list_find (λ r, str (room_id (room_of w r)) = id) (rooms (server w)));
  match found with
  | None => mret (error "room not found")
  | Some (_, room) =>
      update_peer p (set_currentRoom (Some room));;
      Room.addPeer room p;;
      gets (λ w, room_state (serialize_state w (room_of w room)))
  end.

Definition leaveRoom (p : pref) : M reply :=
  P ← this_peer p;
  match currentRoom P with
  | None => mret (error "you are not in a room")
  | Some room =>
      Room.removePeer room p;;
      mret success
  end.

(** [this.server.createRoom({name})]: the argument has the name and no
    [adminId], which therefore reads [undefined]. *)
Definition createRoom (p : pref) (name : string) : M reply :=
  if bool_decide (String.length name = 0)
  then mret (error "name must be at least 1 character")
  else
    r ← server_createRoom name undefined;
    gets (λ w, room_summary (serialize_summary (room_of w r))).

Definition becomeDj (p : pref) : M reply :=
  P ← this_peer p;
  match currentRoom P with
  | None => mret (error "must be in a room to promote")
  | Some room =>
      res ← Room.addDj room p;
      if negb (truthy res)
      then mret (error "could not promote")
      else mret success
  end.

Definition stepDown (p : pref) : M reply :=
  P ← this_peer p;
  match currentRoom P with
  | None => mret (error "must be in a room to step down")
  | Some room =>
      ok ← Room.removeDj room p;
      if negb ok
      then mret (error "must be a dj to step down")
      else mret success
  end.

Definition trackEnded (p : pref) : M reply :=
  P ← this_peer p;
  match currentRoom P with
  | None => mret (error "must be in a room to end a track")
  | Some room =>
      R ← this_room room;
      if negb (bool_decide (activeDj R = Some p))
      then mret (error "must be the active dj to end the track")
      else Room.endTrack room;; mret success
  end.

Definition setProfile (p : pref) (v : jsval) : M reply :=
  update_peer p (set_profile v);;
  P ← this_peer p;
  match currentRoom P with
  | Some room => Room.broadcast room (msg_setPeerProfile (peer_id P) v) []
  | None => pass
  end;;
  mret (profile_set (peer_id P)).

Definition sendChat (p : pref) (text : string) : M completion :=
  if bool_decide (String.length text = 0)
  then mret (value (error "can't send a blank message"))
  else
    P ← this_peer p;
    match currentRoom P with
    | None => mret (throw "TypeError")
    | Some room => Room.sendChat room text p;; mret (value success)
    end.

Definition vote (p : pref) (direction : bool) : M reply :=
  P ← this_peer p;
  match currentRoom P with
  | None => mret (error "you must be in a room in order to vote")
  | Some room =>
      R ← this_room room;
      match nowPlaying R with
      | None => mret (error "there is no song playing to vote on")
      | Some _ => Room.setVote room (peer_id P) direction
      end
  end.

Definition skipTurn (p : pref) : M reply :=
  P ← this_peer p;
  match currentRoom P with
  | None => mret (error "must be active dj to skip turn")
  | Some room =>
      R ← this_room room;
      match activeDj R with
      | None => mret (error "must be active dj to skip turn")
      | Some a =>
          A ← this_peer a;
          if negb (strict_eq (peer_id A) (peer_id P))
          then mret (error "must be active dj to skip turn")
          else Room.endTrack room;; mret success
      end
  end.

Definition updatedQueue (p : pref) : M reply :=
  P ← this_peer p;
  match currentRoom P with
  | None => mret no_value
  | Some room =>
      R ← this_room room;
      if negb (bool_decide (Room.nextDj R = Some p)) then mret no_value
      else Room.fetchOnDeck room;; mret success
  end.

Definition _handleDisconnect (p : pref) : M unit :=
  P ← this_peer p;
  match currentRoom P with
  | Some room => Room.removePeer room p
  | None => pass
  end;;
  server_removePeer p.

(** [this.rpcMethods[name]] for a name that is not in the method table.
    [rpcMethods] is a plain object, so the lookup also finds what the object
    inherits from [Object.prototype].  What is found is truthy and is called
    as [method(params)], with no [this]:
    - [toString] returns ["[object Undefined]"];
    - [constructor] is [Object], and returns [Object(params)];
    - [isPrototypeOf] returns [false] for a [params] that is not an object,
      and otherwise converts [this] to an object, which throws;
    - [hasOwnProperty], [propertyIsEnumerable], [valueOf], [toLocaleString]
      and the four [__define*__] and [__lookup*__] members convert [this] to
      an object, which throws;
    - [__proto__] is [Object.prototype] itself, which is not a function:
      the call throws. *)
Inductive inherited :=
  | not_found
  | returns (v : reply)
  | throws.

Definition Object_prototype (name : string) (params_is_object : bool) : inherited :=
  if bool_decide (name = "toString") then returns (js_string "[object Undefined]")
  else if bool_decide (name = "constructor") then returns js_object_of_params
  else if bool_decide (name = "isPrototypeOf")
  then (if params_is_object then throws else returns js_false)
  else if bool_decide (name ∈ ["hasOwnProperty"; "propertyIsEnumerable"; "valueOf";
                               "toLocaleString"; "__defineGetter__";
                               "__defineSetter__"; "__lookupGetter__";
                               "__lookupSetter__"; "__proto__"])
  then throws
  else not_found.

(** The calls a client can make: the methods of the table with their
    parameters, and any other name, with whether its [params] is an
    object. *)
Inductive rpc :=
  | call_authenticate (jwt : Token)
  | call_becomeDj
  | call_createRoom (name : string)
  | call_fetchRooms
  | call_join (jwt : Token)
  | call_joinRoom (id : jsval)
  | call_leaveRoom
  | call_sendChat (text : string)
  | call_setProfile (v : jsval)
  | call_skipTurn
  | call_stepDown
  | call_trackEnded
  | call_updatedQueue
  | call_vote (direction : bool)
  | call_other (name : string) (params_is_object : bool).

(** What [respond] is called with, if it is called: the value of the
    handler, the exception of an async handler turned into an error, and
    nothing when a synchronous handler throws. *)
Definition _handleMessage (p : pref) (c : rpc) : M (option reply) :=
  match c with
  | call_authenticate jwt =>
      c ← authenticate p jwt;
      match c with
      | value v => mret (Some v)
      | throw e => mret (Some (error e))
      end
  | call_becomeDj => v ← becomeDj p; mret (Some v)
  | call_createRoom name => v ← createRoom p name; mret (Some v)
  | call_fetchRooms => v ← fetchRooms; mret (Some v)
  | call_join jwt => v ← join p jwt; mret (Some v)
  | call_joinRoom id => v ← joinRoom p id; mret (Some v)
  | call_leaveRoom => v ← leaveRoom p; mret (Some v)
  | call_sendChat text =>
      c ← sendChat p text;
      match c with
      | value v => mret (Some v)
      | throw _ => mret None
      end
  | call_setProfile v => v ← setProfile p v; mret (Some v)
  | call_skipTurn => v ← skipTurn p; mret (Some v)
  | call_stepDown => v ← stepDown p; mret (Some v)
  | call_trackEnded => v ← trackEnded p; mret (Some v)
  | call_updatedQueue => v ← updatedQueue p; mret (Some v)
  | call_vote direction => v ← vote p direction; mret (Some v)
  | call_other name params_is_object =>
      match Object_prototype name params_is_object with
      | not_found => mret (Some (error "Invalid method name"))
      | returns v => mret (Some v)
      | throws => mret None
      end
  end.

End Peer.

(** ** The event loop *)

Inductive event :=
  | connection
  | call (p : pref) (c : Peer.rpc)
  | disconnect (p : pref)
  | answer (a : nat) (track : Track)
  | timeout (h : handle)
  | tick (ms : Z).

(** Modelled from the spec: the directory's connection handler, which is
    not among the sources; it creates the [Peer] (whose constructor starts
    the 5 s authentication timer) and enters it in the roster of connected
    peers. *)
Definition on_connection : M unit :=
  p ← fresh;
  h ← setTimeout (closeUnauthenticated p) 5000;
  modify (with_peer_heap (<[p := new_Peer h]>));;
  modify (with_server (λ S, set_server_peers (server_peers S ++ [p]) S)).

Definition run_callback (cb : callback) : M unit :=
  match cb with
  | closeUnauthenticated p => emit (SocketDisconnect p)
  | skipExpired r => Room.skipTimeout_fired r
  | removalExpired r => removalTimeout_fired r
  end.

(** A pending timer whose delay has elapsed leaves the pending set and its
    callback runs. *)
Definition on_timeout (h : handle) : M unit :=
  ts ← gets timers;
  now ← gets clock;
  match list_find (λ t, timer_handle t = h) ts with
  | Some (_, t) =>
      if bool_decide (due t ≤ now)%Z then
        modify (with_timers (filter (λ t, timer_handle t ≠ h)));;
        run_callback (timer_callback t)
      else pass
  | None => pass
  end.

(** The reply to a [requestTrack] resumes the function that awaits it. *)
Definition on_answer (a : nat) (track : Track) : M unit :=
  ws ← gets awaiting;
  match list_find (λ x, await_id x = a) ws with
  | Some (_, x) =>
      modify (with_awaiting (filter (λ y, await_id y ≠ a)));;
      match await_cont x with
      | spinDj_await r dj => Room.spinDj_resume r dj track
      | fetchOnDeck_await r nextDj => Room.fetchOnDeck_resume r nextDj track
      end
  | None => pass
  end.

Definition step (e : event) : M (option reply) :=
  match e with
  | connection => on_connection;; mret None
  | call p c => Peer._handleMessage p c
  | disconnect p => Peer._handleDisconnect p;; mret None
  | answer a track => on_answer a track;; mret None
  | timeout h => on_timeout h;; mret None
  | tick ms => modify (with_clock (λ t, t + Z.max 0 ms)%Z);; mret None
  end.

(** A run of the event loop: the replies and the outputs of every step. *)
Fixpoint run (es : list event) : M (list (option reply)) :=
  match es with
  | [] => mret []
  | e :: es => v ← step e; vs ← run es; mret (v :: vs)
  end.

(** A server that has just started. *)
Definition boot (name base : string) (ws : jsval) (ws_ : jsval) (secret : string) : World :=
  {| server := {| server_name := str name; wsUrl := ws; ws_url := ws_;
                  url := base; rooms := []; server_peers := [];
                  tracks := ∅ |};
     JWT_SECRET := secret; peer_heap := ∅; room_heap := ∅; timers := [];
     awaiting := []; clock := 0; counter := 0 |}.

(** ** Notions used in the statements *)

Definition is_str (v : jsval) : bool :=
  match v with str _ => true | _ => false end.

(** The peers a broadcast reaches: those not excluded whose [id] is a
    string. *)
Definition reached (w : World) (excludeIds : list jsval) (p : pref) : bool :=
  negb (includes (peer_id (peer_of w p)) excludeIds)
  && is_str (peer_id (peer_of w p)).

(** Weakest preconditions, to follow a method statement by statement. *)
Definition wp {A} (m : M A) (w : World) (Q : A * World * list output → Prop) : Prop :=
  Q (m w).

(** What a broadcast emits. *)
Definition broadcast_to (w : World) (r : rref) (m : message) (ex : list jsval) : list output :=
  (λ p, Emit p m) <$> filter (λ p, reached w ex p = true) (peers (room_of w r)).

(** A method keeps a property of the state. *)
Definition keeps {A} (I : World → Prop) (m : M A) : Prop :=
  ∀ w, I w → I (after (m w)).

(** The DJ list of every room: no peer twice, at most [MAX_DJS] peers. *)
Definition djs_ok (w : World) : Prop :=
  ∀ r R, room_heap w !! r = Some R → NoDup (djs R) ∧ length (djs R) ≤ MAX_DJS.

(** ** Concrete runs

    A server named "buoy" whose directory has both URL properties, an
    invitation for it, and a track as a client sends it. *)
Definition buoy : World :=
  boot "buoy" "http://h/" (str "ws://h") (str "ws://h") "secret".

Definition invite : Token :=
  JWT_sign {| claim_u := str "ws://h"; claim_n := str "buoy";
              claim_i := undefined |} "secret".

Definition song (title : string) : Track :=
  {| track_id := undefined; track_url := undefined; track_data := str "bytes";
     track_title := title |}.

(** Two peers, [0] (call it A) and [2] (B), connect and join; A creates the
    room [5] and both enter it. *)
Definition two_in_room : list event :=
  [connection; connection;
   call 0 (Peer.call_join invite); call 2 (Peer.call_join invite);
   call 0 (Peer.call_createRoom "lounge");
   call 0 (Peer.call_joinRoom (str "uuid-7"));
   call 2 (Peer.call_joinRoom (str "uuid-7"))].

(** A is a DJ and is asked for a track; nothing plays yet. *)
Definition prefetching : list event :=
  two_in_room ++ [call 0 Peer.call_becomeDj].

(** A plays "a", B is a DJ with "b" on deck, and B votes [false]. *)
Definition skip_race : list event :=
  two_in_room
  ++ [call 0 Peer.call_becomeDj; answer 8 (song "a");
      call 2 Peer.call_becomeDj; answer 12 (song "b");
      call 2 (Peer.call_vote false)].

(** Six peers in one room, the first five of them DJs. *)
Definition six_in_room : list event :=
  [connection; connection; connection; connection; connection; connection;
   call 0 (Peer.call_join invite); call 2 (Peer.call_join invite);
   call 4 (Peer.call_join invite); call 6 (Peer.call_join invite);
   call 8 (Peer.call_join invite); call 10 (Peer.call_join invite);
   call 0 (Peer.call_createRoom "lounge");
   call 0 (Peer.call_joinRoom (str "uuid-19"));
   call 2 (Peer.call_joinRoom (str "uuid-19"));
   call 4 (Peer.call_joinRoom (str "uuid-19"));
   call 6 (Peer.call_joinRoom (str "uuid-19"));
   call 8 (Peer.call_joinRoom (str "uuid-19"));
   call 10 (Peer.call_joinRoom (str "uuid-19"));
   call 0 Peer.call_becomeDj; call 2 Peer.call_becomeDj;
   call 4 Peer.call_becomeDj; call 6 Peer.call_becomeDj;
   call 8 Peer.call_becomeDj].

(** The same server with the one URL property the directory is documented
    to expose, [wsUrl]; reading [ws_url] gives [undefined]. *)
Definition buoy_wsUrl_only : World :=
  boot "buoy" "http://h/" (str "ws://h") undefined "secret".

(** The title of the track a room plays. *)
Definition playing (w : World) (r : rref) : option string :=
  (λ np, track_title (np_track np)) <$> nowPlaying (room_of w r).

(** C3 as the specification states it: in every room the list of DJs is a
    subsequence of the roster, holds no peer twice and at most five. *)
Definition djs_as_specified (w : World) : Prop :=
  ∀ r R, room_heap w !! r = Some R →
    djs R `sublist_of` peers R ∧ NoDup (djs R) ∧ length (djs R) ≤ 5.

(** ** The vote *)

(** The skip predicate that [setVote] evaluates, as a function of the two
    counters and of [this.peers.length]. *)
Definition shouldSkip (ups downs peers_length : nat) : bool :=
  let quorumPerc := js_div (ups + downs) peers_length in
  let downPerc := js_div downs (ups + downs) in
  js_ge quorumPerc (3 # 10) && js_ge downPerc (1 # 2).

(** The number of entries of a votes map that hold [b]. *)
Definition entries (b : bool) (v : gmap string bool) : nat :=
  size (filter (λ kv, kv.2 = b) v).

(** What [clearTimeout] leaves pending. *)
Definition cancelled (h : option handle) (ts : list Timer) : list Timer :=
  match h with
  | Some h => filter (λ t, timer_handle t ≠ h) ts
  | None => ts
  end.

(** C1 as the specification states it: [true] is a downvote, so [downs]
    counts the [true] entries and [ups] the [false] ones, and the warning
    follows the predicate on these. *)
Definition setVote_as_specified
    (w : World) (r : rref) (peerId : jsval) (direction : bool) : Prop :=
  ∀ np, nowPlaying (room_of w r) = Some np →
    let v := <[property_key peerId := direction]> (votes np) in
    let downs := entries true v in
    let ups := entries false v in
    count_votes v = (ups, downs)
    ∧ skipWarning (room_of (after (Room.setVote r peerId direction w)) r)
      = shouldSkip ups downs (length (peers (room_of w r))).

(** A plays "a" to A and B. *)
Definition playing_a : list event :=
  two_in_room ++ [call 0 Peer.call_becomeDj; answer 8 (song "a")].

(** ** The removal timer *)

(** A property that neither the playback nor the list of DJs affects. *)
Definition stable (I : World → Prop) : Prop :=
  (∀ w, I w → I (with_counter S w))
  ∧ (∀ f w, I w → I (with_awaiting f w))
  ∧ (∀ f w, I w → I (with_server (λ S, set_tracks (f S) S) w))
  ∧ (∀ r v w, I w → I (with_room_heap (alter (set_onDeck v) r) w))
  ∧ (∀ r v w, I w → I (with_room_heap (alter (set_activeDj v) r) w))
  ∧ (∀ r v w, I w → I (with_room_heap (alter (set_nowPlaying v) r) w))
  ∧ (∀ r v w, I w → I (with_room_heap (alter (set_djs v) r) w)).





(** ** Further notions *)

(** A room in which DJs [a], [b], [c] take turns, [active] being the
    active one. *)
Definition rotation_room (active : option pref) : Room :=
  set_activeDj active (set_djs [10; 20; 30] (new_Room "id" "lounge" null)).

(** What [fetchOnDeck] does to the registry before it waits: the entry of
    the track on deck, if any, is deleted. *)
Definition evict (t : option Track) (m : gmap string Track) : gmap string Track :=
  match t with
  | Some t => delete (property_key (track_id t)) m
  | None => m
  end.

(** A plays "a" and B, the other DJ, has "b" on deck. *)
Definition b_on_deck : list event :=
  two_in_room
  ++ [call 0 Peer.call_becomeDj; answer 8 (song "a");
      call 2 Peer.call_becomeDj; answer 12 (song "b")].

(** A's track "a" plays although A is no longer a DJ. *)
Definition playing_without_djs : list event :=
  prefetching ++ [call 0 Peer.call_stepDown; answer 8 (song "a")].

(** The calls whose handler first checks [this.currentRoom]. *)
Definition needs_room (c : Peer.rpc) : bool :=
  match c with
  | Peer.call_leaveRoom | Peer.call_becomeDj | Peer.call_stepDown
  | Peer.call_trackEnded | Peer.call_skipTurn | Peer.call_vote _
  | Peer.call_updatedQueue => true
  | _ => false
  end.

(** A peer connects and does nothing else. *)
Definition connected : list event := [connection].

(** A token with an [id], as a client keeps it and presents it again. *)
Definition pass_token : Token :=
  JWT_sign {| claim_u := str "ws://h"; claim_n := str "buoy";
              claim_i := str "twin" |} "secret".

(** Two connections authenticate with the same token, enter one room, and
    the first becomes a DJ. *)
Definition twins : list event :=
  [connection; connection;
   call 0 (Peer.call_authenticate pass_token);
   call 2 (Peer.call_authenticate pass_token);
   call 0 (Peer.call_createRoom "lounge");
   call 0 (Peer.call_joinRoom (str "uuid-5"));
   call 2 (Peer.call_joinRoom (str "uuid-5"));
   call 0 Peer.call_becomeDj].

(** A leaves the room it created and entered, B stays. *)
Definition a_left : list event :=
  two_in_room ++ [call 0 Peer.call_leaveRoom].

(** B creates a second room, [8]. *)
Definition two_rooms : list event :=
  two_in_room ++ [call 2 (Peer.call_createRoom "den")].

(** ** The skip timer *)

(** References and handles are allocated from the counter, no two pending
    timers share a handle, and a pending skip timer belongs to a room whose
    warning is on and which holds its handle. *)
Definition skip_inv (w : World) : Prop :=
  (∀ r, is_Some (room_heap w !! r) → r < counter w)
  ∧ (∀ t, t ∈ timers w → timer_handle t < counter w)
  ∧ NoDup (timer_handle <$> timers w)
  ∧ (∀ t r, t ∈ timers w → timer_callback t = skipExpired r →
       skipWarning (room_of w r) = true
       ∧ skipTimeout (room_of w r) = Some (timer_handle t)).

(** ** Stepping down before the track is published *)

(** C10 as the specification states it: for a peer that is the active DJ
    of its room while nothing plays, whether or not it is still listed as a
    DJ, [stepDown] takes it out of the list of DJs, broadcasts the new list
    to the roster, and replies the error. *)
Definition stepDown_as_specified (w : World) (p : pref) (room : rref) : Prop :=
  currentRoom (peer_of w p) = Some room →
  activeDj (room_of w room) = Some p →
  nowPlaying (room_of w room) = None →
  let res := Peer.stepDown p w in
  let R := room_of w room in
  let R' := room_of (after res) room in
  returned res = error "must be a dj to step down"
  ∧ (∃ l1 l2, djs R = l1 ++ p :: l2 ∧ (p ∉ l1) ∧ djs R' = l1 ++ l2)
  ∧ outputs res
    = (λ q, Emit q (msg_setDjs ((λ d, peer_id (peer_of w d)) <$> djs R')))
      <$> filter (λ q, is_str (peer_id (peer_of w q)) = true) (peers R).

(** A is asked for its first track, and steps down before it answers. *)
Definition stepped_down : list event :=
  prefetching ++ [call 0 Peer.call_stepDown].

(** * Properties *)

(** ** Basic facts about the effects *)

Lemma after_bind {A B} (m : M A) (k : A → M B) (w : World) :
  after ((m ≫= k) w) = after (k (returned (m w)) (after (m w))).
Proof. reflexivity. Qed.

Lemma returned_bind {A B} (m : M A) (k : A → M B) (w : World) :
  returned ((m ≫= k) w) = returned (k (returned (m w)) (after (m w))).
Proof. reflexivity. Qed.

Lemma outputs_bind {A B} (m : M A) (k : A → M B) (w : World) :
  outputs ((m ≫= k) w)
  = outputs (m w) ++ outputs (k (returned (m w)) (after (m w))).
Proof. reflexivity. Qed.

Lemma forEach_frame {A} (arr : list A) (f : A → M unit) (w : World) :
  (∀ x, after (f x w) = w) →
  after (forEach arr f w) = w
  ∧ outputs (forEach arr f w) = concat ((λ x, outputs (f x w)) <$> arr).
Proof.
  intros Hf. induction arr as [|x arr [IH1 IH2]]; [done|].
  cbn [forEach]. rewrite after_bind, outputs_bind, Hf. split; [done|].
  by rewrite fmap_cons, IH2.
Qed.

Ltac step_m :=
  unfold mbind, M_bind, mret, M_ret, gets, modify, emit, pass, this_room,
    this_peer, update_room, update_peer;
  cbn [fst snd returned after outputs].

Lemma send_after (p : pref) (m : message) (w : World) :
  after (send p m w) = w.
Proof. unfold send, after. step_m. by destruct (peer_id _). Qed.

Lemma send_returned (p : pref) (m : message) (w : World) :
  returned (send p m w) = is_str (peer_id (peer_of w p)).
Proof. unfold send, returned. step_m. by destruct (peer_id _). Qed.

Lemma send_outputs (p : pref) (m : message) (w : World) :
  outputs (send p m w)
  = if is_str (peer_id (peer_of w p)) then [Emit p m] else [].
Proof. unfold send, outputs. step_m. by destruct (peer_id _). Qed.

Lemma broadcast_body_after (m : message) (ex : list jsval) (w : World) (p : pref) :
  after ((P ← this_peer p;
          if includes (peer_id P) ex then pass else send p m;; pass) w) = w.
Proof.
  rewrite after_bind. unfold this_peer at 1 2, gets. cbn [returned after fst snd].
  destruct (includes _ _); [done|]. by rewrite after_bind, send_after.
Qed.

Lemma broadcast_after (r : rref) (m : message) (ex : list jsval) (w : World) :
  after (Room.broadcast r m ex w) = w.
Proof.
  unfold Room.broadcast. rewrite after_bind. unfold this_room at 1 2, gets.
  cbn [returned after fst snd].
  apply forEach_frame. intros p. apply broadcast_body_after.
Qed.

Lemma broadcast_outputs (r : rref) (m : message) (ex : list jsval) (w : World) :
  outputs (Room.broadcast r m ex w)
  = (λ p, Emit p m) <$> filter (λ p, reached w ex p = true) (peers (room_of w r)).
Proof.
  unfold Room.broadcast. rewrite outputs_bind. unfold this_room at 1 2 3, gets.
  cbn [returned after outputs fst snd app].
  match goal with |- outputs (forEach ?l ?f w) = _ =>
    destruct (forEach_frame l f w) as [_ ->] end.
  { intros p. apply broadcast_body_after. }
  - induction (peers (room_of w r)) as [|p ps IH]; [reflexivity|].
    rewrite fmap_cons, filter_cons. cbn [concat]. rewrite IH. clear IH.
    rewrite outputs_bind. unfold this_peer at 1 2 3, gets.
    cbn [returned after outputs fst snd app].
    unfold reached. destruct (includes _ _); cbn [negb andb].
    + by rewrite decide_False.
    + rewrite outputs_bind, send_outputs. unfold pass, mret, M_ret.
      cbn [outputs snd].
      destruct (is_str _); [by rewrite decide_True|by rewrite decide_False].
Qed.

Lemma room_of_alter (f : Room → Room) (r r' : rref) (w : World) :
  is_Some (room_heap w !! r) →
  room_of (with_room_heap (alter f r) w) r'
  = if decide (r = r') then f (room_of w r) else room_of w r'.
Proof.
  intros [R HR]. unfold room_of. cbn.
  rewrite !lookup_total_alt, lookup_alter. 
  case_decide; subst; [by rewrite HR|done].
Qed.

Lemma room_of_alter_eq (f : Room → Room) (r : rref) (w : World) :
  is_Some (room_heap w !! r) →
  room_of (with_room_heap (alter f r) w) r = f (room_of w r).
Proof. intros H. by rewrite room_of_alter, decide_True. Qed.

Lemma peer_of_with_room_heap f w p :
  peer_of (with_room_heap f w) p = peer_of w p.
Proof. reflexivity. Qed.

(** Reading a room that holds a DJ: the room exists. *)
Lemma room_exists_djs (w : World) (r : rref) (p : pref) :
  p ∈ djs (room_of w r) → is_Some (room_heap w !! r).
Proof.
  unfold room_of. rewrite lookup_total_alt.
  destruct (room_heap w !! r); [eauto|]. cbn. by intros ?%elem_of_nil.
Qed.

Section ArrayFacts.
Context {A : Type} `{EqDecision A}.

Lemma findIndex_ge (f : A → bool) (l : list A) : (-1 ≤ findIndex f l)%Z.
Proof.
  induction l as [|x l IH]; cbn; [lia|].
  destruct (f x); [lia|]. destruct (Z.eqb_spec (findIndex f l) (-1)); lia.
Qed.

Lemma findIndex_none (f : A → bool) (l : list A) :
  findIndex f l = (-1)%Z ↔ Forall (λ x, f x = false) l.
Proof.
  induction l as [|x l IH]; cbn.
  - split; [constructor|done].
  - destruct (f x) eqn:Hx.
    + split; [lia|]. intros H. inversion H; congruence.
    + pose proof (findIndex_ge f l) as Hge.
      destruct (Z.eqb_spec (findIndex f l) (-1)) as [E|E].
      * split; [|done]. intros _. constructor; [done|]. by apply IH.
      * split; [lia|]. intros [_ Hl]%Forall_cons. by apply IH in Hl.
Qed.

(** [indexOf] finds the first occurrence, and [splice] takes it out. *)
Lemma indexOf_splice (x : A) (l : list A) :
  x ∈ l →
  ∃ l1 l2, l = l1 ++ x :: l2 ∧ (x ∉ l1)
           ∧ indexOf x l = Z.of_nat (length l1)
           ∧ splice1 (indexOf x l) l = l1 ++ l2.
Proof.
  unfold indexOf, splice1. induction l as [|y l IH]; [by intros ?%elem_of_nil|].
  intros Hin. cbn [findIndex]. case_bool_decide as Hy.
  - subst. exists [], l. cbn. split_and!; [done|apply not_elem_of_nil|done|done].
  - apply elem_of_cons in Hin as [?|Hin]; [congruence|].
    destruct (IH Hin) as (l1 & l2 & -> & Hn & Hi & Hs).
    exists (y :: l1), l2. rewrite Hi in *.
    destruct (Z.eqb_spec (Z.of_nat (length l1)) (-1)); [lia|].
    split_and!; [done| |cbn; lia|].
    + rewrite not_elem_of_cons. split; [congruence|done].
    + replace (Z.to_nat (Z.of_nat (length l1) + 1)) with (S (length l1)) by lia.
      cbn. f_equal. by rewrite Nat2Z.id in Hs.
Qed.

Lemma indexOf_not_in (x : A) (l : list A) :
  indexOf x l = (-1)%Z ↔ x ∉ l.
Proof.
  unfold indexOf. rewrite findIndex_none, Forall_forall. split.
  - intros H Hin. apply H in Hin. by case_bool_decide.
  - intros H y Hy. case_bool_decide; [by subst|done].
Qed.
End ArrayFacts.


Lemma wp_bind {A B} (m : M A) (k : A → M B) (w : World) Q :
  wp m w (λ x, wp (k x.1.1) x.1.2 (λ y, Q (y.1.1, y.1.2, x.2 ++ y.2))) →
  wp (m ≫= k) w Q.
Proof. done. Qed.

Lemma wp_ret {A} (a : A) (w : World) Q : Q (a, w, []) → wp (mret a) w Q.
Proof. done. Qed.

Lemma wp_pass (w : World) Q : Q ((), w, []) → wp pass w Q.
Proof. done. Qed.

Lemma wp_gets {A} (f : World → A) (w : World) Q : Q (f w, w, []) → wp (gets f) w Q.
Proof. done. Qed.

Lemma wp_modify (f : World → World) (w : World) Q :
  Q ((), f w, []) → wp (modify f) w Q.
Proof. done. Qed.

Lemma wp_emit (o : output) (w : World) Q : Q ((), w, [o]) → wp (emit o) w Q.
Proof. done. Qed.

Lemma wp_fresh (w : World) Q :
  Q (counter w, with_counter S w, []) → wp fresh w Q.
Proof. done. Qed.

Lemma wp_send (p : pref) (m : message) (w : World) Q :
  Q (is_str (peer_id (peer_of w p)), w,
     if is_str (peer_id (peer_of w p)) then [Emit p m] else []) →
  wp (send p m) w Q.
Proof.
  unfold wp. pose proof (send_after p m w). pose proof (send_returned p m w).
  pose proof (send_outputs p m w).
  destruct (send p m w) as [[b w'] o]. cbn in *. by subst.
Qed.

Lemma wp_broadcast (r : rref) (m : message) (ex : list jsval) (w : World) Q :
  Q ((), w, broadcast_to w r m ex) → wp (Room.broadcast r m ex) w Q.
Proof.
  unfold wp. pose proof (broadcast_after r m ex w).
  pose proof (broadcast_outputs r m ex w).
  destruct (Room.broadcast r m ex w) as [[[] w'] o]. cbn in *. by subst.
Qed.

Lemma wp_uuid (w : World) Q :
  Q ("uuid-" +:+ pretty (counter w), with_counter S w, []) → wp uuid w Q.
Proof. intros H. exact H. Qed.

Lemma wp_setTimeout (cb : callback) (ms : Z) (w : World) Q :
  Q (counter w,
     with_timers (λ ts, ts ++ [{| timer_handle := counter w;
                                  due := (clock w + ms)%Z;
                                  timer_callback := cb |}])
       (with_counter S w), []) →
  wp (setTimeout cb ms) w Q.
Proof. intros H. exact H. Qed.

Lemma wp_clearTimeout (h : option handle) (w : World) Q :
  Q ((), with_timers (cancelled h) w, []) → wp (clearTimeout h) w Q.
Proof. unfold wp, clearTimeout. by destruct h, w. Qed.

Ltac wp_of t :=
  pattern t;
  lazymatch goal with
  | |- ?Q t => lazymatch t with ?m ?w => change (wp m w Q) end
  end.

Ltac wp_prim :=
  lazymatch goal with
  | |- wp (mbind _ _) _ _ => apply wp_bind
  | |- wp (mret _) _ _ => apply wp_ret
  | |- wp pass _ _ => apply wp_pass
  | |- wp (gets _) _ _ => apply wp_gets
  | |- wp (this_room _) _ _ => apply wp_gets
  | |- wp (this_peer _) _ _ => apply wp_gets
  | |- wp (modify _) _ _ => apply wp_modify
  | |- wp (update_room _ _) _ _ => apply wp_modify
  | |- wp (update_peer _ _) _ _ => apply wp_modify
  | |- wp (emit _) _ _ => apply wp_emit
  | |- wp broadcastRooms _ _ => apply wp_emit
  | |- wp fresh _ _ => apply wp_fresh
  | |- wp uuid _ _ => apply wp_uuid
  | |- wp (setTimeout _ _) _ _ => apply wp_setTimeout
  | |- wp (clearTimeout _) _ _ => apply wp_clearTimeout
  | |- wp (send _ _) _ _ => apply wp_send
  | |- wp (Room.broadcast _ _ _) _ _ => apply wp_broadcast
  end; cbn [fst snd app returned after outputs].

Ltac wp_run := repeat wp_prim.

(** C10 (as amended). A peer that is listed as a DJ and is the active DJ
    of its room while nothing plays yet calls [stepDown]: it is taken out of
    the list of DJs, the new list is broadcast to the roster, and the reply
    is the error 'must be a dj to step down'. *)
Theorem stepDown_before_publish (w : World) (p : pref) (room : rref) :
  currentRoom (peer_of w p) = Some room →
  activeDj (room_of w room) = Some p →
  nowPlaying (room_of w room) = None →
  p ∈ djs (room_of w room) →
  let res := Peer.stepDown p w in
  let R := room_of w room in
  let R' := room_of (after res) room in
  returned res = error "must be a dj to step down"
  ∧ (∃ l1 l2, djs R = l1 ++ p :: l2 ∧ (p ∉ l1) ∧ djs R' = l1 ++ l2)
  ∧ outputs res
    = (λ q, Emit q (msg_setDjs ((λ d, peer_id (peer_of w d)) <$> djs R')))
      <$> filter (λ q, is_str (peer_id (peer_of w q)) = true) (peers R).
Proof.
  intros Hroom Hact Hnp Hin. 
  pose proof (room_exists_djs _ _ _ Hin) as Hex.
  destruct (indexOf_splice p _ Hin) as (l1 & l2 & Hl & Hn & Hi & Hs).
  cbn zeta. wp_of (Peer.stepDown p w). unfold Peer.stepDown.
  wp_run. rewrite Hroom. wp_run. unfold Room.removeDj. wp_run.
  rewrite Hs, Hi. destruct (Z.eqb_spec (Z.of_nat (length l1)) (-1)); [lia|].
  wp_run. rewrite !room_of_alter_eq by done. cbn [activeDj djs set_djs].
  rewrite Hact, bool_decide_eq_true_2 by done.
  unfold Room.endTrack. wp_run. rewrite room_of_alter_eq by done.
  cbn [nowPlaying set_djs]. rewrite Hnp. wp_run.
  cbn [negb]. wp_run. rewrite room_of_alter_eq by done. cbn [djs set_djs].
  split_and!; [done|by exists l1, l2|].
  rewrite !app_nil_r. unfold broadcast_to, reached.
  rewrite room_of_alter_eq by done. cbn [peers set_djs].
  reflexivity.
Qed.

(** ** Properties kept by the methods *)

Lemma keeps_bind {A B} I (m : M A) (k : A → M B) :
  keeps I m → (∀ a, keeps I (k a)) → keeps I (m ≫= k).
Proof. intros Hm Hk w Hw. apply Hk, Hm, Hw. Qed.

Lemma keeps_ret {A} I (a : A) : keeps I (mret a : M A).
Proof. by intros w. Qed.

Lemma keeps_pass I : keeps I pass.
Proof. by intros w. Qed.

Lemma keeps_gets {A} I (f : World → A) : keeps I (gets f).
Proof. by intros w. Qed.

Lemma keeps_emit I (o : output) : keeps I (emit o).
Proof. by intros w. Qed.

Lemma keeps_modify I (f : World → World) :
  (∀ w, I w → I (f w)) → keeps I (modify f).
Proof. intros Hf w. apply Hf. Qed.

Lemma keeps_send I (p : pref) (m : message) : keeps I (send p m).
Proof. intros w. by rewrite send_after. Qed.

Lemma keeps_broadcast I (r : rref) (m : message) (ex : list jsval) :
  keeps I (Room.broadcast r m ex).
Proof. intros w. by rewrite broadcast_after. Qed.

Ltac keeps_step :=
  lazymatch goal with
  | |- keeps _ (mbind _ _) => apply keeps_bind; [|intros ?]
  | |- keeps _ (mret _) => apply keeps_ret
  | |- keeps _ pass => apply keeps_pass
  | |- keeps _ (gets _) => apply keeps_gets
  | |- keeps _ (this_room _) => apply keeps_gets
  | |- keeps _ (this_peer _) => apply keeps_gets
  | |- keeps _ (emit _) => apply keeps_emit
  | |- keeps _ broadcastRooms => apply keeps_emit
  | |- keeps _ (send _ _) => apply keeps_send
  | |- keeps _ (Room.broadcast _ _ _) => apply keeps_broadcast
  | |- keeps _ (if ?b then _ else _) => destruct b
  | |- keeps _ (match ?x with _ => _ end) => destruct x
  end.

Ltac keeps_auto := repeat first [keeps_step | solve [eauto]].

Section Playback.
Variable I : World → Prop.
Hypothesis I_counter : ∀ w, I w → I (with_counter S w).
Hypothesis I_awaiting : ∀ f w, I w → I (with_awaiting f w).
Hypothesis I_tracks : ∀ f w, I w → I (with_server (λ S, set_tracks (f S) S) w).
Hypothesis I_onDeck : ∀ r v w, I w → I (with_room_heap (alter (set_onDeck v) r) w).
Hypothesis I_activeDj : ∀ r v w, I w → I (with_room_heap (alter (set_activeDj v) r) w).
Hypothesis I_nowPlaying : ∀ r v w, I w → I (with_room_heap (alter (set_nowPlaying v) r) w).

Lemma keeps_fresh : keeps I fresh.
Proof using I_counter. intros w. apply I_counter. Qed.

Lemma keeps_uuid : keeps I uuid.
Proof using I_counter. unfold uuid. pose proof keeps_fresh. keeps_auto. Qed.

Lemma keeps_suspend k : keeps I (suspend k).
Proof using I_counter I_awaiting.
  unfold suspend. pose proof keeps_fresh. keeps_auto.
  apply keeps_modify. intros w. apply I_awaiting.
Qed.

Lemma keeps_setOnDeck r track : keeps I (Room.setOnDeck r track).
Proof using I_onDeck.
  unfold Room.setOnDeck. keeps_auto. apply keeps_modify, I_onDeck.
Qed.

Lemma keeps_setActiveDj r peer : keeps I (Room.setActiveDj r peer).
Proof using I_activeDj.
  unfold Room.setActiveDj. keeps_auto; apply keeps_modify, I_activeDj.
Qed.

Lemma keeps_fetchOnDeck r : keeps I (Room.fetchOnDeck r).
Proof using I_counter I_awaiting I_tracks.
  unfold Room.fetchOnDeck. pose proof keeps_suspend. keeps_auto.
  all: apply keeps_modify; intros w; apply (I_tracks (λ S, delete _ (tracks S))).
Qed.

Lemma keeps_fetchOnDeck_resume r d track :
  keeps I (Room.fetchOnDeck_resume r d track).
Proof using I_counter I_tracks I_onDeck.
  unfold Room.fetchOnDeck_resume. pose proof keeps_uuid. pose proof keeps_setOnDeck.
  keeps_auto.
  apply keeps_modify; intros w; apply (I_tracks (λ S, <[_ := _]> (tracks S))).
Qed.

Lemma keeps_spinDj_publish r dj track :
  keeps I (Room.spinDj_publish r dj track).
Proof using I_counter I_awaiting I_tracks I_nowPlaying.
  unfold Room.spinDj_publish. pose proof keeps_fetchOnDeck. keeps_auto.
  apply keeps_modify, I_nowPlaying.
Qed.

Lemma keeps_spinDj r : keeps I (Room.spinDj r).
Proof using I_counter I_awaiting I_tracks I_nowPlaying I_onDeck I_activeDj.
  unfold Room.spinDj. pose proof keeps_spinDj_publish. pose proof keeps_setActiveDj.
  pose proof keeps_setOnDeck. pose proof keeps_suspend. keeps_auto.
  apply keeps_modify, I_onDeck.
Qed.

Lemma keeps_spinDj_resume r dj track : keeps I (Room.spinDj_resume r dj track).
Proof using I_counter I_awaiting I_tracks I_nowPlaying.
  unfold Room.spinDj_resume. pose proof keeps_spinDj_publish. pose proof keeps_uuid.
  keeps_auto.
  apply keeps_modify; intros w; apply (I_tracks (λ S, <[_ := _]> (tracks S))).
Qed.

Lemma keeps_endTrack r : keeps I (Room.endTrack r).
Proof using I_counter I_awaiting I_tracks I_nowPlaying I_onDeck I_activeDj.
  unfold Room.endTrack. pose proof keeps_spinDj. keeps_auto.
  - apply keeps_modify; intros w; apply (I_tracks (λ S, delete _ (tracks S))).
  - apply keeps_modify, I_nowPlaying.
Qed.

End Playback.

Section Timers.
Variable I : World → Prop.
Hypothesis I_counter : ∀ w, I w → I (with_counter S w).
Hypothesis I_timers : ∀ f w, I w → I (with_timers f w).

Lemma keeps_setTimeout cb ms : keeps I (setTimeout cb ms).
Proof using I_counter I_timers.
  unfold setTimeout. pose proof (keeps_fresh I I_counter). keeps_auto.
  apply keeps_modify. intros w. apply I_timers.
Qed.

Lemma keeps_clearTimeout h : keeps I (clearTimeout h).
Proof using I_timers.
  unfold clearTimeout. keeps_auto. apply keeps_modify. intros w. apply I_timers.
Qed.

End Timers.

Section Roster.
Variable I : World → Prop.
Hypothesis I_counter : ∀ w, I w → I (with_counter S w).
Hypothesis I_clearTimeout : ∀ h, keeps I (clearTimeout h).
Hypothesis I_setTimeout_skip : ∀ r ms, keeps I (setTimeout (skipExpired r) ms).
Hypothesis I_setTimeout_removal : ∀ r ms, keeps I (setTimeout (removalExpired r) ms).
Hypothesis I_fetchOnDeck : ∀ r, keeps I (Room.fetchOnDeck r).
Hypothesis I_setOnDeck : ∀ r t, keeps I (Room.setOnDeck r t).
Hypothesis I_spinDj : ∀ r, keeps I (Room.spinDj r).
Hypothesis I_endTrack : ∀ r, keeps I (Room.endTrack r).
Hypothesis I_removeDj : ∀ r p, keeps I (Room.removeDj r p).
Hypothesis I_djs : ∀ r v w, I w → I (with_room_heap (alter (set_djs v) r) w).
Hypothesis I_peers : ∀ r v w, I w → I (with_room_heap (alter (set_peers v) r) w).
Hypothesis I_admin : ∀ r v w, I w → I (with_room_heap (alter (set_admin v) r) w).
Hypothesis I_removalTimeout :
  ∀ r v w, I w → I (with_room_heap (alter (set_removalTimeout v) r) w).
Hypothesis I_skipWarning :
  ∀ r v w, I w → I (with_room_heap (alter (set_skipWarning v) r) w).
Hypothesis I_skipTimeout :
  ∀ r v w, I w → I (with_room_heap (alter (set_skipTimeout v) r) w).
Hypothesis I_nowPlaying :
  ∀ r v w, I w → I (with_room_heap (alter (set_nowPlaying v) r) w).

Lemma keeps_removeDj r p : keeps I (Room.removeDj r p).
Proof using I_djs I_fetchOnDeck I_setOnDeck I_endTrack.
  unfold Room.removeDj. keeps_auto. apply keeps_modify, I_djs.
Qed.

Lemma keeps_addDj r p : keeps I (Room.addDj r p).
Proof using I_djs I_fetchOnDeck I_spinDj.
  unfold Room.addDj. keeps_auto. apply keeps_modify, I_djs.
Qed.

Lemma keeps_triggerRemoval r : keeps I (Room.triggerRemoval r).
Proof using I_setTimeout_removal I_removalTimeout.
  unfold Room.triggerRemoval. keeps_auto.
  apply keeps_modify, I_removalTimeout.
Qed.

Lemma keeps_addPeer r p : keeps I (Room.addPeer r p).
Proof using I_clearTimeout I_peers I_admin.
  unfold Room.addPeer. keeps_auto.
  all: first [apply keeps_modify, I_admin | apply keeps_modify, I_peers].
Qed.

Lemma keeps_removePeer r p : keeps I (Room.removePeer r p).
Proof using I_setTimeout_removal I_peers I_admin I_removalTimeout I_removeDj.
  unfold Room.removePeer. pose proof keeps_triggerRemoval. keeps_auto.
  all: first [apply keeps_modify, I_admin | apply keeps_modify, I_peers].
Qed.

Lemma keeps_sendChat r text from : keeps I (Room.sendChat r text from).
Proof using I_counter.
  unfold Room.sendChat. pose proof (keeps_uuid I I_counter). keeps_auto.
Qed.

Lemma keeps_setVote r peerId direction : keeps I (Room.setVote r peerId direction).
Proof using I_clearTimeout I_setTimeout_skip I_nowPlaying I_skipWarning I_skipTimeout.
  unfold Room.setVote. keeps_auto.
  all: first [apply keeps_modify, I_nowPlaying | apply keeps_modify, I_skipWarning
             | apply keeps_modify, I_skipTimeout].
Qed.

Lemma keeps_skipTimeout_fired r : keeps I (Room.skipTimeout_fired r).
Proof using I_skipWarning I_endTrack.
  unfold Room.skipTimeout_fired. keeps_auto. apply keeps_modify, I_skipWarning.
Qed.

End Roster.

Section Handlers.
Variable I : World → Prop.
Hypothesis I_counter : ∀ w, I w → I (with_counter S w).
Hypothesis I_clearTimeout : ∀ h, keeps I (clearTimeout h).
Hypothesis I_setTimeout_close :
  ∀ p ms, keeps I (setTimeout (closeUnauthenticated p) ms).
Hypothesis I_awaiting : ∀ f w, I w → I (with_awaiting f w).
Hypothesis I_clock : ∀ f w, I w → I (with_clock f w).
Hypothesis I_peer : ∀ p f w, I w → I (with_peer_heap (alter f p) w).
Hypothesis I_new_peer : ∀ p P w, I w → I (with_peer_heap (<[p := P]>) w).
Hypothesis I_server_peers :
  ∀ f w, I w → I (with_server (λ S, set_server_peers (f S) S) w).
Hypothesis I_createRoom : ∀ name p, keeps I (server_createRoom name p).
Hypothesis I_removeRoom : ∀ r, keeps I (server_removeRoom r).
Hypothesis I_addPeer : ∀ r p, keeps I (Room.addPeer r p).
Hypothesis I_removePeer : ∀ r p, keeps I (Room.removePeer r p).
Hypothesis I_addDj : ∀ r p, keeps I (Room.addDj r p).
Hypothesis I_removeDj : ∀ r p, keeps I (Room.removeDj r p).
Hypothesis I_endTrack : ∀ r, keeps I (Room.endTrack r).
Hypothesis I_setVote : ∀ r id d, keeps I (Room.setVote r id d).
Hypothesis I_fetchOnDeck : ∀ r, keeps I (Room.fetchOnDeck r).
Hypothesis I_spinDj_resume : ∀ r d t, keeps I (Room.spinDj_resume r d t).
Hypothesis I_fetchOnDeck_resume : ∀ r d t, keeps I (Room.fetchOnDeck_resume r d t).
Hypothesis I_skipTimeout_fired : ∀ r, keeps I (Room.skipTimeout_fired r).

Lemma keeps_handleMessage p c : keeps I (Peer._handleMessage p c).
Proof using I_counter I_clearTimeout I_peer I_createRoom I_addPeer I_removePeer
  I_addDj I_removeDj I_endTrack I_setVote I_fetchOnDeck.
  pose proof (keeps_uuid I I_counter).
  pose proof (keeps_sendChat I I_counter).
  destruct c; cbn [Peer._handleMessage];
    unfold Peer.authenticate, Peer.becomeDj, Peer.createRoom, Peer.fetchRooms,
      Peer.join, Peer.joinRoom, Peer.leaveRoom, Peer.sendChat, Peer.setProfile,
      Peer.skipTurn, Peer.stepDown, Peer.trackEnded, Peer.updatedQueue, Peer.vote;
    keeps_auto.
  all: apply keeps_modify; intros w; apply I_peer.
Qed.

Lemma keeps_handleDisconnect p : keeps I (Peer._handleDisconnect p).
Proof using I_removePeer I_server_peers.
  unfold Peer._handleDisconnect, server_removePeer. keeps_auto.
  all: apply keeps_modify; intros w; apply (I_server_peers (λ S, filter _ (server_peers S))).
Qed.

Lemma keeps_step e : keeps I (step e).
Proof using All.
  pose proof keeps_handleMessage. pose proof keeps_handleDisconnect.
  pose proof (keeps_fresh I I_counter).
  destruct e; cbn [step];
    unfold on_connection, on_answer, on_timeout, run_callback, removalTimeout_fired;
    keeps_auto.
  all: try match goal with
           | |- keeps _ (modify (with_timers (filter (λ t, timer_handle t ≠ ?h)))) =>
               apply (I_clearTimeout (Some h))
           end.
  all: apply keeps_modify; intros w;
    first [ apply I_new_peer | apply I_awaiting | apply I_clock
          | apply (I_server_peers (λ S, server_peers S ++ _)) ].
Qed.

Lemma keeps_run es : keeps I (run es).
Proof using All.
  induction es as [|e es IH]; cbn [run]; pose proof keeps_step; keeps_auto.
Qed.

End Handlers.

(** ** The DJ list *)

Lemma djs_ok_alter (f : Room → Room) (r : rref) (w : World) :
  (∀ R, NoDup (djs R) ∧ length (djs R) ≤ MAX_DJS →
        NoDup (djs (f R)) ∧ length (djs (f R)) ≤ MAX_DJS) →
  djs_ok w → djs_ok (with_room_heap (alter f r) w).
Proof.
  intros Hf Hw r' R'. cbn. rewrite lookup_alter. case_decide; [subst|by apply Hw].
  destruct (room_heap w !! r') as [R|] eqn:HR; cbn; [|done].
  intros [= <-]. by apply Hf, (Hw r').
Qed.

Lemma room_of_lookup (w : World) (r : rref) (R : Room) :
  room_heap w !! r = Some R → room_of w r = R.
Proof. intros H. unfold room_of. by rewrite lookup_total_alt, H. Qed.

Lemma djs_ok_room_of (w : World) (r : rref) :
  djs_ok w → NoDup (djs (room_of w r)) ∧ length (djs (room_of w r)) ≤ MAX_DJS.
Proof.
  intros Hw. unfold room_of. rewrite lookup_total_alt.
  destruct (room_heap w !! r) as [R|] eqn:HR; [by apply (Hw r)|].
  cbn. split; [constructor|lia].
Qed.

Lemma indexOf_in `{EqDecision A} (x : A) (l : list A) :
  indexOf x l ≠ (-1)%Z ↔ x ∈ l.
Proof.
  rewrite indexOf_not_in. split; [|by auto].
  intros H. by destruct (decide (x ∈ l)).
Qed.

(** The continuation of [removeDj] and of [addDj] after the list is
    updated leaves every list of DJs as it is. *)
Lemma djs_ok_set_field (f : Room → Room) (r : rref) (w : World) :
  (∀ R, djs (f R) = djs R) →
  djs_ok w → djs_ok (with_room_heap (alter f r) w).
Proof. intros Hf. apply djs_ok_alter. intros R. by rewrite Hf. Qed.

Lemma djs_ok_playback :
  (∀ r, keeps djs_ok (Room.fetchOnDeck r))
  ∧ (∀ r t, keeps djs_ok (Room.setOnDeck r t))
  ∧ (∀ r, keeps djs_ok (Room.spinDj r))
  ∧ (∀ r, keeps djs_ok (Room.endTrack r))
  ∧ (∀ r d t, keeps djs_ok (Room.spinDj_resume r d t))
  ∧ (∀ r d t, keeps djs_ok (Room.fetchOnDeck_resume r d t)).
Proof.
  assert (∀ w, djs_ok w → djs_ok (with_counter S w)) as H1 by done.
  assert (∀ f w, djs_ok w → djs_ok (with_awaiting f w)) as H2 by done.
  assert (∀ f w, djs_ok w → djs_ok (with_server (λ S, set_tracks (f S) S) w)) as H3 by done.
  assert (∀ r v w, djs_ok w → djs_ok (with_room_heap (alter (set_onDeck v) r) w)) as H4
    by (intros; by apply djs_ok_set_field).
  assert (∀ r v w, djs_ok w → djs_ok (with_room_heap (alter (set_activeDj v) r) w)) as H5
    by (intros; by apply djs_ok_set_field).
  assert (∀ r v w, djs_ok w → djs_ok (with_room_heap (alter (set_nowPlaying v) r) w)) as H6
    by (intros; by apply djs_ok_set_field).
  split_and!; intros.
  - by apply keeps_fetchOnDeck.
  - by apply keeps_setOnDeck.
  - by apply keeps_spinDj.
  - by apply keeps_endTrack.
  - by apply keeps_spinDj_resume.
  - by apply keeps_fetchOnDeck_resume.
Qed.

Lemma wp_keeps {A} I (m : M A) (w : World) :
  keeps I m → I w → wp m w (λ y, I y.1.2).
Proof. intros Hm Hw. by apply Hm. Qed.

Lemma wp_keeps_then {A} I (m : M A) (w : World) Q :
  keeps I m → I w → (∀ x, I x.1.2 → Q x) → wp m w Q.
Proof. intros Hm Hw HQ. by apply HQ, Hm. Qed.

Lemma djs_ok_removeDj r p : keeps djs_ok (Room.removeDj r p).
Proof.
  intros w Hw. wp_of (Room.removeDj r p w). unfold Room.removeDj. wp_run.
  destruct (Z.eqb_spec (indexOf p (djs (room_of w r))) (-1)) as [E|E]; wp_run; [done|].
  assert (djs_ok (with_room_heap
            (alter (set_djs (splice1 (indexOf p (djs (room_of w r))) (djs (room_of w r)))) r) w))
    as Hw'.
  { intros r' R'. cbn. rewrite lookup_alter. case_decide; [subst|by apply Hw].
    destruct (room_heap w !! r') as [R|] eqn:HR; cbn; [|done].
    intros [= <-]. cbn. rewrite (room_of_lookup _ _ _ HR) in *.
    destruct (Hw _ _ HR) as [Hnd Hlen].
    apply indexOf_in in E. destruct (indexOf_splice p _ E) as (l1 & l2 & Hl & _ & _ & ->).
    rewrite Hl in Hnd, Hlen. rewrite length_app in *. cbn in Hlen.
    split; [|lia]. apply NoDup_app in Hnd as (? & ? & Hnd). apply NoDup_cons in Hnd as [??].
    apply NoDup_app. split_and!; [done| |done].
    intros x Hx Hx2. eapply H0; [done|]. by right. }
  destruct djs_ok_playback as (Hf & Hs & _ & He & _).
  rewrite room_of_alter by (apply indexOf_in in E; by eapply room_exists_djs).
  rewrite decide_True by done.
  apply wp_keeps; [keeps_auto|done].
Qed.

Lemma findIndex_fmap {A B} (f : B → bool) (g : A → B) (l : list A) :
  findIndex f (g <$> l) = findIndex (f ∘ g) l.
Proof. induction l as [|x l IH]; cbn; [done|]. by rewrite IH. Qed.

Lemma djs_ok_addDj r p : keeps djs_ok (Room.addDj r p).
Proof.
  intros w Hw. wp_of (Room.addDj r p w). unfold Room.addDj. wp_run.
  case_bool_decide as Hlen; wp_run; [done|].
  rewrite findIndex_fmap.
  destruct (Z.eqb_spec (findIndex (strict_eq (peer_id (peer_of w p))
              ∘ (λ p0, peer_id (peer_of w p0))) (djs (room_of w r))) (-1)) as [E|E];
    cbn [negb]; wp_run; [|done].
  assert (djs_ok (with_room_heap (alter (set_djs (djs (room_of w r) ++ [p])) r) w))
    as Hw'.
  { intros r' R'. cbn. rewrite lookup_alter. case_decide; [subst|by apply Hw].
    destruct (room_heap w !! r') as [R|] eqn:HR; cbn; [|done].
    intros [= <-]. cbn. rewrite (room_of_lookup _ _ _ HR) in *.
    destruct (Hw _ _ HR) as [Hnd Hl]. rewrite length_app. cbn. split; [|unfold MAX_DJS in *; lia].
    apply NoDup_app. split_and!; [done| |apply NoDup_singleton].
    intros x Hx ->%list_elem_of_singleton.
    apply findIndex_none in E. rewrite Forall_forall in E. apply E in Hx.
    cbn in Hx. unfold strict_eq in Hx. by rewrite bool_decide_eq_true_2 in Hx. }
  destruct djs_ok_playback as (Hf & Hs & Hsp & He & _).
  apply (wp_keeps_then djs_ok); [keeps_auto|done|]. intros x Hx. wp_run.
  apply (wp_keeps_then djs_ok); [keeps_auto|done|]. intros y Hy. by wp_run.
Qed.

Lemma djs_ok_createRoom name p : keeps djs_ok (server_createRoom name p).
Proof.
  assert (∀ w, djs_ok w → djs_ok (with_counter S w)) as H1 by done.
  pose proof (keeps_fresh _ H1). pose proof (keeps_uuid _ H1).
  unfold server_createRoom. keeps_auto. apply keeps_modify.
  intros w Hw r R. cbn. rewrite lookup_insert. case_decide; [|by apply Hw].
  intros [= <-]. cbn. split; [constructor|unfold MAX_DJS; lia].
Qed.

Lemma djs_ok_step (w : World) (e : event) :
  djs_ok w → djs_ok (after (step e w)).
Proof.
  revert w. change (keeps djs_ok (step e)).
  destruct djs_ok_playback as (Hf & Hs & Hsp & He & Hsr & Hfr).
  assert (∀ w, djs_ok w → djs_ok (with_counter S w)) as H1 by done.
  assert (∀ f w, djs_ok w → djs_ok (with_timers f w)) as H2 by done.
  assert (∀ r v w, djs_ok w → djs_ok (with_room_heap (alter (set_peers v) r) w)) as H3
    by (intros; by apply djs_ok_set_field).
  assert (∀ r v w, djs_ok w → djs_ok (with_room_heap (alter (set_admin v) r) w)) as H4
    by (intros; by apply djs_ok_set_field).
  assert (∀ r v w, djs_ok w → djs_ok (with_room_heap (alter (set_removalTimeout v) r) w)) as H5
    by (intros; by apply djs_ok_set_field).
  assert (∀ r v w, djs_ok w → djs_ok (with_room_heap (alter (set_skipWarning v) r) w)) as H6
    by (intros; by apply djs_ok_set_field).
  assert (∀ r v w, djs_ok w → djs_ok (with_room_heap (alter (set_skipTimeout v) r) w)) as H7
    by (intros; by apply djs_ok_set_field).
  assert (∀ r v w, djs_ok w → djs_ok (with_room_heap (alter (set_nowPlaying v) r) w)) as H8
    by (intros; by apply djs_ok_set_field).
  pose proof (keeps_clearTimeout _ H2) as Hc.
  pose proof (keeps_setTimeout _ H1 H2) as Ht.
  apply keeps_step; try done; intros.
  - apply djs_ok_createRoom.
  - by apply keeps_addPeer.
  - apply keeps_removePeer; try done. apply djs_ok_removeDj.
  - apply djs_ok_addDj.
  - apply djs_ok_removeDj.
  - by apply keeps_setVote.
  - by apply keeps_skipTimeout_fired.
Qed.

Ltac in_list :=
  repeat first [apply list_elem_of_here | apply list_elem_of_further].

(** C2. The skip timer started while "a" plays is still pending after the
    active DJ skips and "b" starts; when it expires it ends "b". *)
Theorem skip_timer_outlives_track :
  let w1 := after (run skip_race buoy) in
  let r2 := step (call 0 Peer.call_skipTurn) w1 in
  let r3 := run [tick 5000; timeout 14] (after r2) in
  (skipWarning (room_of w1 6) = true
   ∧ playing w1 6 = Some "a"
   ∧ timers w1 = [{| timer_handle := 14; due := 5000;
                     timer_callback := skipExpired 6 |}])
  ∧ (returned r2 = Some success
     ∧ playing (after r2) 6 = Some "b"
     ∧ timers (after r2) = timers w1)
  ∧ (Emit 0 msg_stopTrack ∈ outputs r3
     ∧ playing (after r3) 6 = None).
Proof. vm_compute. split_and!; try reflexivity. in_list. Qed.


(** In any state, [endTrack] leaves the pending timers as they are. *)
Lemma endTrack_keeps_timers (r : rref) (w : World) :
  timers (after (Room.endTrack r w)) = timers w.
Proof.
  by apply (keeps_endTrack (λ w', timers w' = timers w)).
Qed.

(** C5. With five DJs in the room, [becomeDj] by a sixth peer leaves the
    list as it is and replies [{success: true}]; so does [becomeDj] by a peer
    that is a DJ already. *)
Theorem becomeDj_refused_replies_success :
  let w := after (run six_in_room buoy) in
  djs (room_of w 18) = [0; 2; 4; 6; 8]
  ∧ peers (room_of w 18) = [0; 2; 4; 6; 8; 10]
  ∧ step (call 10 Peer.call_becomeDj) w = (Some success, w, [])
  ∧ step (call 0 Peer.call_becomeDj) w = (Some success, w, []).
Proof. vm_compute. split_and!; reflexivity. Qed.

(** Whatever [addDj] returns, [becomeDj] replies [{success: true}] to a
    peer whose [currentRoom] is set. *)
Lemma becomeDj_in_room_replies_success (w : World) (p : pref) (room : rref) :
  currentRoom (peer_of w p) = Some room →
  returned (Peer.becomeDj p w) = success.
Proof.
  intros Hroom. wp_of (Peer.becomeDj p w). unfold Peer.becomeDj. wp_run.
  rewrite Hroom. wp_run.
  unfold wp. pose proof (djs_ok_addDj room p) as _.
  assert (truthy (returned (Room.addDj room p w)) = true) as Hres.
  { wp_of (Room.addDj room p w). unfold Room.addDj. wp_run.
    case_bool_decide; wp_run; [done|].
    destruct (negb _); wp_run; [done|].
    unfold wp. by cbn. }
  unfold returned in Hres. destruct (Room.addDj room p w) as [[v ?] ?].
  cbn in *. by rewrite Hres.
Qed.

(** C4. After [leaveRoom] the peer is out of the roster, but its
    [currentRoom] still refers to the room, and a second [leaveRoom] replies
    [{success: true}]. *)
Theorem leaveRoom_keeps_currentRoom_set :
  let w := after (run two_in_room buoy) in
  let res := step (call 0 Peer.call_leaveRoom) w in
  (currentRoom (peer_of w 0) = Some 6 ∧ peers (room_of w 6) = [0; 2])
  ∧ returned res = Some success
  ∧ peers (room_of (after res) 6) = [2]
  ∧ currentRoom (peer_of (after res) 0) = Some 6
  ∧ returned (step (call 0 Peer.call_leaveRoom) (after res)) = Some success.
Proof. vm_compute. split_and!; reflexivity. Qed.

(** C6. On a server whose directory has [wsUrl] only, the token that
    [join] returns carries no [u], and [authenticate] rejects it. *)
Theorem authenticate_rejects_join_token :
  let res := run [connection; call 0 (Peer.call_join invite)] buoy_wsUrl_only in
  let token := JWT_sign {| claim_u := undefined; claim_n := str "buoy";
                           claim_i := str "uuid-2" |} "secret" in
  returned res = [None; Some (joined token (str "uuid-2"))]
  ∧ returned (step (call 0 (Peer.call_authenticate token)) (after res))
    = Some (error "invalid token").
Proof. vm_compute. split; reflexivity. Qed.

(** [authenticate] accepts the token of a successful [join] exactly when
    the two URL properties of the directory agree. *)
Lemma join_joined (w : World) (p : pref) (jwt token : Token) (id : jsval) :
  returned (Peer.join p jwt w) = joined token id →
  token = JWT_sign {| claim_u := ws_url (server w);
                      claim_n := server_name (server w);
                      claim_i := id |} (JWT_SECRET w)
  ∧ server (after (Peer.join p jwt w)) = server w
  ∧ JWT_SECRET (after (Peer.join p jwt w)) = JWT_SECRET w.
Proof.
  wp_of (Peer.join p jwt w). unfold Peer.join. wp_run.
  destruct (JWT_verify jwt (JWT_SECRET w)); wp_run; [|done].
  destruct (_ || _); wp_run; [done|]. by intros [= <- <-].
Qed.

Lemma join_then_authenticate (w : World) (p q : pref) (jwt token : Token) (id : jsval) :
  returned (Peer.join p jwt w) = joined token id →
  returned (Peer.authenticate q token (after (Peer.join p jwt w)))
  = if bool_decide (ws_url (server w) = wsUrl (server w))
    then value (authenticated id)
    else value (error "invalid token").
Proof.
  intros (-> & Hs & Hk)%join_joined.
  wp_of (Peer.authenticate q (JWT_sign
         {| claim_u := ws_url (server w); claim_n := server_name (server w);
            claim_i := id |} (JWT_SECRET w)) (after (Peer.join p jwt w))).
  unfold Peer.authenticate. wp_run. rewrite Hs, Hk.
  unfold JWT_verify, JWT_sign. cbn [signed_with payload claim_u claim_n claim_i].
  rewrite bool_decide_eq_true_2 by done. unfold strict_eq.
  cbn [claim_u claim_n claim_i].
  rewrite (bool_decide_eq_true_2 (server_name _ = _)) by done.
  by case_bool_decide; cbn [negb orb]; wp_run.
Qed.


(** Whatever the DJs are by then, and whether or not the room is still in
    the directory, the reply to the [requestTrack] of [spinDj] is published. *)
Lemma spinDj_resume_publishes (w : World) (r : rref) (dj : pref) (track : Track) :
  is_Some (room_heap w !! r) →
  playing (after (Room.spinDj_resume r dj track w)) r = Some (track_title track).
Proof.
  intros Hr. wp_of (Room.spinDj_resume r dj track w).
  unfold Room.spinDj_resume, Room.spinDj_publish, uuid. wp_run.
  apply (wp_keeps (λ w', playing w' r = Some (track_title track)));
    [by apply keeps_fetchOnDeck|].
  unfold playing. rewrite room_of_alter_eq; [done|]. done.
Qed.

(** C8. A asks to be DJ and steps down before answering [requestTrack]:
    no DJ is left and [nextDj()] is [null], yet the late answer is entered in
    the registry and published as the playing track. *)
Theorem spinDj_publishes_stale_reply :
  let w := after (run (prefetching ++ [call 0 Peer.call_stepDown]) buoy) in
  let res := step (answer 8 (song "a")) w in
  (awaiting w = [{| await_id := 8; await_cont := spinDj_await 6 0 |};
                 {| await_id := 9; await_cont := fetchOnDeck_await 6 0 |}]
   ∧ djs (room_of w 6) = []
   ∧ Room.nextDj (room_of w 6) = None
   ∧ playing w 6 = None)
  ∧ playing (after res) 6 = Some "a"
  ∧ track_title <$> tracks (server (after res)) !! "uuid-10" = Some "a"
  ∧ from_option (λ np, Emit 2 (msg_playTrack np) ∈ outputs res) False
      (nowPlaying (room_of (after res) 6)).
Proof. vm_compute. split_and!; try reflexivity. in_list. Qed.

(** The reply that comes when [nextDj()] is no longer the DJ asked: nothing
    changes and nothing is sent. *)
Lemma fetchOnDeck_resume_stale (w : World) (r : rref) (target : pref) (track : Track) :
  Room.nextDj (room_of w r) ≠ Some target →
  Room.fetchOnDeck_resume r target track w = ((), w, []).
Proof.
  intros H. unfold Room.fetchOnDeck_resume.
  wp_of ((R ← this_room r;
          if bool_decide (Room.nextDj R ≠ Some target) then pass
          else id ← uuid; base ← gets (λ w0, url (server w0));
               modify (with_server (λ S, set_tracks
                 (<[id:=Room.stamp id base track]> (tracks S)) S));;
               Room.setOnDeck r (Some (Room.delete_data (Room.stamp id base track)))) w).
  wp_run. rewrite bool_decide_eq_true_2 by done. by wp_run.
Qed.

(** C7. When the reply to the [requestTrack] of [fetchOnDeck] arrives and
    [nextDj()] is no longer the DJ the request was sent to, the registry is
    unchanged, no room changes (so [onDeck] stays as it was) and nothing is
    sent. *)
Theorem fetchOnDeck_discards_stale_reply
    (w : World) (a i : nat) (r : rref) (target : pref) (track : Track) :
  list_find (λ x, await_id x = a) (awaiting w)
  = Some (i, {| await_id := a; await_cont := fetchOnDeck_await r target |}) →
  Room.nextDj (room_of w r) ≠ Some target →
  let res := step (answer a track) w in
  tracks (server (after res)) = tracks (server w)
  ∧ room_heap (after res) = room_heap w
  ∧ onDeck (room_of (after res) r) = onDeck (room_of w r)
  ∧ outputs res = [].
Proof.
  intros Hfind Hstale. cbn zeta. wp_of (step (answer a track) w).
  cbn [step]. unfold on_answer. wp_run. rewrite Hfind. wp_run.
  cbn [await_cont]. unfold wp.
  rewrite fetchOnDeck_resume_stale by done. by wp_run.
Qed.

Lemma fetchOnDeck_discards_stale_reply_witness :
  let w := after (run (two_in_room
             ++ [call 0 Peer.call_becomeDj; answer 8 (song "a");
                 call 2 Peer.call_becomeDj; call 2 Peer.call_stepDown]) buoy) in
  let res := step (answer 12 (song "b")) w in
  tracks (server (after res)) = tracks (server w)
  ∧ room_heap (after res) = room_heap w
  ∧ onDeck (room_of (after res) 6) = onDeck (room_of w 6)
  ∧ outputs res = [].
Proof.
  apply (fetchOnDeck_discards_stale_reply _ 12 2 6 2 (song "b")).
  - vm_compute. reflexivity.
  - vm_compute. discriminate.
Defined.

Lemma stepDown_before_publish_witness :
  let w := after (run prefetching buoy) in
  let res := Peer.stepDown 0 w in
  let R := room_of w 6 in
  let R' := room_of (after res) 6 in
  returned res = error "must be a dj to step down"
  ∧ (∃ l1 l2, djs R = l1 ++ 0 :: l2 ∧ (0 ∉ l1) ∧ djs R' = l1 ++ l2)
  ∧ outputs res
    = (λ q, Emit q (msg_setDjs ((λ d, peer_id (peer_of w d)) <$> djs R')))
      <$> filter (λ q, is_str (peer_id (peer_of w q)) = true) (peers R).
Proof.
  apply (stepDown_before_publish (after (run prefetching buoy)) 0 6).
  - vm_compute. reflexivity.
  - vm_compute. reflexivity.
  - vm_compute. reflexivity.
  - vm_compute. in_list.
Defined.

(** C10 fails as stated: after its first [stepDown] in that interval the
    peer is still the active DJ, for [endTrack] returned before it chose
    another, and nothing plays; it is no longer listed as a DJ, and a second
    [stepDown] removes nothing, broadcasts nothing and changes nothing. *)
Lemma stepDown_not_as_specified :
  let w := after (run stepped_down buoy) in
  (currentRoom (peer_of w 0) = Some 6
   ∧ activeDj (room_of w 6) = Some 0
   ∧ nowPlaying (room_of w 6) = None
   ∧ djs (room_of w 6) = []
   ∧ peers (room_of w 6) = [0; 2])
  ∧ step (call 0 Peer.call_stepDown) w
    = (Some (error "must be a dj to step down"), w, [])
  ∧ ¬ stepDown_as_specified w 0 6.
Proof.
  split_and!; try (vm_compute; reflexivity).
  intros H. destruct H as (_ & (l1 & l2 & Hl & _) & _);
    try (vm_compute; reflexivity).
  vm_compute in Hl. by destruct l1.
Qed.

Lemma djs_ok_boot name base ws ws_ secret : djs_ok (boot name base ws ws_ secret).
Proof. intros r R. cbn. by rewrite lookup_empty. Qed.

Lemma djs_ok_run (es : list event) (w : World) :
  djs_ok w → djs_ok (after (run es w)).
Proof.
  revert w. induction es as [|e es IH]; intros w Hw; [done|].
  cbn [run]. rewrite !after_bind. cbn. by apply IH, djs_ok_step.
Qed.

(** C3 (as amended). After every handler, whatever was called before since
    the server started, the list of DJs of every room holds no peer twice
    and at most five peers. *)
Theorem djs_ok_always
    (name base : string) (ws ws_ : jsval) (secret : string) (es : list event) :
  djs_ok (after (run es (boot name base ws ws_ secret))).
Proof. apply djs_ok_run, djs_ok_boot. Qed.

(** C3 fails as stated: DJs are listed in the order of promotion, not in
    the order of the roster; and a peer that left the room can still become
    one of its DJs. *)
Lemma djs_not_as_specified :
  ¬ djs_as_specified
      (after (run (two_in_room ++ [call 2 Peer.call_becomeDj;
                                   call 0 Peer.call_becomeDj]) buoy))
  ∧ ¬ djs_as_specified
        (after (run (two_in_room ++ [call 0 Peer.call_leaveRoom;
                                     call 0 Peer.call_becomeDj]) buoy)).
Proof.
  split; intros H.
  - destruct (H 6 (room_of (after (run (two_in_room ++ [call 2 Peer.call_becomeDj;
                                   call 0 Peer.call_becomeDj]) buoy)) 6)) as [Hs _];
      [vm_compute; reflexivity|].
    vm_compute in Hs. 
    apply sublist_cons_l in Hs as (k1 & k2 & Hk & Hs).
    apply sublist_cons_l in Hs as (k3 & k4 & -> & _).
    destruct k1 as [|? [|? [|? ?]]]; destruct k3 as [|? [|? ?]]; discriminate.
  - destruct (H 6 (room_of (after (run (two_in_room ++ [call 0 Peer.call_leaveRoom;
                                     call 0 Peer.call_becomeDj]) buoy)) 6)) as [Hs _];
      [vm_compute; reflexivity|].
    vm_compute in Hs.
    apply sublist_cons_l in Hs as (k1 & k2 & Hk & Hs).
    destruct k1 as [|? [|? ?]]; discriminate.
Qed.

(** ** The vote *)

Lemma size_filter_map_to_list {A} (P : string * A → Prop) `{!∀ x, Decision (P x)}
    (m : gmap string A) :
  size (filter P m) = length (filter P (map_to_list m)).
Proof.
  rewrite map_filter_alt, map_size_list_to_map; [done|].
  eapply NoDup_fmap_fst.
  - intros k x y [_ Hx]%list_elem_of_filter [_ Hy]%list_elem_of_filter.
    apply elem_of_map_to_list in Hx, Hy. congruence.
  - apply NoDup_filter, NoDup_map_to_list.
Qed.

Lemma count_votes_foldl (v : gmap string bool) (l : list (string * bool)) (u d : nat) :
  (∀ k b, (k, b) ∈ l → v !! k = Some b) →
  foldl (λ (acc : nat * nat) (peerId : string),
           let ups := acc.1 in
           let downs := acc.2 in
           if default false (v !! peerId) then (ups + 1, downs) else (ups, downs + 1))
        (u, d) l.*1
  = (u + length (filter (λ kv, kv.2 = true) l),
     d + length (filter (λ kv, kv.2 = false) l)).
Proof.
  match goal with |- context [foldl ?f] => set (step := f) end.
  revert u d. induction l as [|[k b] l IH]; intros u d Hl.
  - cbn. f_equal; lia.
  - rewrite fmap_cons. cbn [foldl fst].
    assert (step (u, d) k = if b then (u + 1, d) else (u, d + 1)) as ->.
    { unfold step. cbn. by rewrite (Hl k b) by left. }
    rewrite !filter_cons. cbn [snd].
    destruct b; rewrite IH by (intros; apply Hl; by right).
    + rewrite decide_True, decide_False by done. cbn. f_equal; lia.
    + rewrite decide_False, decide_True by done. cbn. f_equal; lia.
Qed.

(** [ups] is the number of [true] entries, [downs] of [false] entries. *)
Lemma count_votes_entries (v : gmap string bool) :
  count_votes v = (entries true v, entries false v).
Proof.
  unfold count_votes, entries. rewrite count_votes_foldl.
  - by rewrite !size_filter_map_to_list.
  - intros k b. apply elem_of_map_to_list.
Qed.

(** The predicate in integers: someone voted, the votes are at least 30% of
    the roster, and at least half of them are [downs]. *)
Lemma shouldSkip_true (ups downs n : nat) :
  shouldSkip ups downs n = true
  ↔ 0 < ups + downs ∧ 3 * n ≤ 10 * (ups + downs) ∧ ups ≤ downs.
Proof.
  unfold shouldSkip, js_div, js_ge. rewrite andb_true_iff.
  destruct (ups + downs) as [|t] eqn:Ht.
  - destruct n, downs; cbn; split; try lia; intros []; try done.
    all: try (apply Qle_bool_iff in H; unfold Qle in H; cbn in H; lia).
  - assert (Qle_bool (1 # 2) (Z.of_nat downs # Pos.of_nat (S t)) = true ↔ ups ≤ downs) as ->.
    { rewrite Qle_bool_iff. unfold Qle. cbn [Qnum Qden].
      destruct downs; cbn; [split; [lia|]|]; lia. }
    destruct n as [|n].
    + cbn. destruct downs; cbn; lia.
    + rewrite Qle_bool_iff. unfold Qle. cbn [Qnum Qden]. lia.
Qed.

Lemma room_exists_nowPlaying (w : World) (r : rref) (np : NowPlaying) :
  nowPlaying (room_of w r) = Some np → is_Some (room_heap w !! r).
Proof.
  unfold room_of. rewrite lookup_total_alt.
  by destruct (room_heap w !! r); [eauto|].
Qed.

(** Updating a field other than the roster does not change whom a
    broadcast reaches. *)
Lemma broadcast_to_alter (f : Room → Room) (r r' : rref) (w : World) m ex :
  (∀ R, peers (f R) = peers R) →
  broadcast_to (with_room_heap (alter f r) w) r' m ex = broadcast_to w r' m ex.
Proof.
  intros Hf. unfold broadcast_to, reached.
  replace (peers (room_of (with_room_heap (alter f r) w) r'))
    with (peers (room_of w r')); [done|].
  unfold room_of. cbn. rewrite !lookup_total_alt, lookup_alter.
  case_decide; [subst|done]. destruct (room_heap w !! r'); cbn; [|done].
  by rewrite Hf.
Qed.


(** *** Reading the state through updates of other parts *)

Lemma room_of_with_timers f w r : room_of (with_timers f w) r = room_of w r.
Proof. reflexivity. Qed.
Lemma room_of_with_counter f w r : room_of (with_counter f w) r = room_of w r.
Proof. reflexivity. Qed.
Lemma room_of_with_awaiting f w r : room_of (with_awaiting f w) r = room_of w r.
Proof. reflexivity. Qed.
Lemma room_of_with_server f w r : room_of (with_server f w) r = room_of w r.
Proof. reflexivity. Qed.
Lemma room_of_with_clock f w r : room_of (with_clock f w) r = room_of w r.
Proof. reflexivity. Qed.
Lemma room_of_with_peer_heap f w r : room_of (with_peer_heap f w) r = room_of w r.
Proof. reflexivity. Qed.

Lemma peer_of_with_timers f w p : peer_of (with_timers f w) p = peer_of w p.
Proof. reflexivity. Qed.
Lemma peer_of_with_counter f w p : peer_of (with_counter f w) p = peer_of w p.
Proof. reflexivity. Qed.
Lemma peer_of_with_awaiting f w p : peer_of (with_awaiting f w) p = peer_of w p.
Proof. reflexivity. Qed.
Lemma peer_of_with_server f w p : peer_of (with_server f w) p = peer_of w p.
Proof. reflexivity. Qed.
Lemma peer_of_with_clock f w p : peer_of (with_clock f w) p = peer_of w p.
Proof. reflexivity. Qed.

Lemma broadcast_to_with_timers f w r m ex :
  broadcast_to (with_timers f w) r m ex = broadcast_to w r m ex.
Proof. reflexivity. Qed.
Lemma broadcast_to_with_counter f w r m ex :
  broadcast_to (with_counter f w) r m ex = broadcast_to w r m ex.
Proof. reflexivity. Qed.
Lemma broadcast_to_with_awaiting f w r m ex :
  broadcast_to (with_awaiting f w) r m ex = broadcast_to w r m ex.
Proof. reflexivity. Qed.
Lemma broadcast_to_with_server f w r m ex :
  broadcast_to (with_server f w) r m ex = broadcast_to w r m ex.
Proof. reflexivity. Qed.
Lemma broadcast_to_with_clock f w r m ex :
  broadcast_to (with_clock f w) r m ex = broadcast_to w r m ex.
Proof. reflexivity. Qed.

Lemma room_exists_alter (f : Room → Room) (r r' : rref) (w : World) :
  is_Some (room_heap w !! r') →
  is_Some (room_heap (with_room_heap (alter f r) w) !! r').
Proof.
  intros [R HR]. cbn. rewrite lookup_alter. case_decide; subst; rewrite HR; eauto.
Qed.

Create Rewrite HintDb world.
#[export] Hint Rewrite room_of_with_timers room_of_with_counter
  room_of_with_awaiting room_of_with_server room_of_with_clock
  room_of_with_peer_heap peer_of_with_room_heap peer_of_with_timers
  peer_of_with_counter peer_of_with_awaiting peer_of_with_server
  peer_of_with_clock broadcast_to_with_timers broadcast_to_with_counter
  broadcast_to_with_awaiting broadcast_to_with_server broadcast_to_with_clock
  : world.

Ltac room_exists :=
  repeat first
    [ assumption
    | apply room_exists_alter
    | progress cbn [room_heap with_timers with_counter with_server
                    with_awaiting with_clock with_peer_heap] ].

Ltac world_simpl :=
  repeat first
    [ progress autorewrite with world
    | rewrite room_of_alter_eq by room_exists
    | rewrite broadcast_to_alter by done ].

(** C1 (as amended). With a track playing, [setVote] assigns
    [votes[peerId] = direction] (which records the vote under every key but
    ["__proto__"], where the assignment to the plain object records
    nothing), counts the [true] entries as [ups] and the [false] entries as
    [downs], and the skip predicate on these two decides the warning, its
    timer and what is broadcast. *)
Theorem setVote_counts_and_warns
    (w : World) (r : rref) (peerId : jsval) (direction : bool) (np : NowPlaying) :
  nowPlaying (room_of w r) = Some np →
  let res := Room.setVote r peerId direction w in
  let R := room_of w r in
  let R' := room_of (after res) r in
  let v := set_property (property_key peerId) direction (votes np) in
  let ups := entries true v in
  let downs := entries false v in
  let skip := shouldSkip ups downs (length (peers R)) in
  returned res = success
  ∧ votes <$> nowPlaying R' = Some v
  ∧ count_votes v = (ups, downs)
  ∧ skipWarning R' = skip
  ∧ timers (after res)
    = (if negb (skipWarning R) && skip
       then timers w ++ [{| timer_handle := counter w; due := (clock w + 5000)%Z;
                            timer_callback := skipExpired r |}]
       else if skipWarning R && negb skip
            then cancelled (skipTimeout R) (timers w)
            else timers w)
  ∧ outputs res
    = broadcast_to w r (msg_setVotes v) []
      ++ (if xorb (skipWarning R) skip
          then broadcast_to w r (msg_setSkipWarning skip) []
          else []).
Proof.
  intros Hnp. pose proof (room_exists_nowPlaying _ _ _ Hnp) as Hex.
  cbn zeta. wp_of (Room.setVote r peerId direction w). unfold Room.setVote.
  wp_run. rewrite Hnp. wp_run. cbn [votes set_votes].
  rewrite count_votes_entries. cbn [fst snd].
  set (v := set_property (property_key peerId) direction (votes np)).
  fold (shouldSkip (entries true v) (entries false v) (length (peers (room_of w r)))).
  set (skip := shouldSkip _ _ _).
  rewrite broadcast_to_alter by done.
  destruct (skipWarning (room_of w r)) eqn:Hsw, skip eqn:Hskip; cbn [negb andb xorb].
  - wp_run. world_simpl. cbn. by rewrite Hsw, app_nil_r.
  - wp_run. world_simpl. cbn. by rewrite app_nil_r.
  - wp_run. world_simpl. cbn. by rewrite !app_nil_r.
  - wp_run. world_simpl. cbn. by rewrite Hsw, app_nil_r.
Qed.

Lemma setVote_counts_and_warns_witness :
  let w := after (run playing_a buoy) in
  let res := Room.setVote 6 (str "uuid-5") false w in
  let v := <["uuid-5" := false]> (∅ : gmap string bool) in
  returned res = success
  ∧ votes <$> nowPlaying (room_of (after res) 6) = Some v
  ∧ count_votes v = (entries true v, entries false v)
  ∧ skipWarning (room_of (after res) 6)
    = shouldSkip (entries true v) (entries false v) (length (peers (room_of w 6)))
  ∧ timers (after res)
    = (if negb (skipWarning (room_of w 6))
          && shouldSkip (entries true v) (entries false v) (length (peers (room_of w 6)))
       then timers w ++ [{| timer_handle := counter w; due := (clock w + 5000)%Z;
                            timer_callback := skipExpired 6 |}]
       else if skipWarning (room_of w 6)
               && negb (shouldSkip (entries true v) (entries false v)
                          (length (peers (room_of w 6))))
            then cancelled (skipTimeout (room_of w 6)) (timers w)
            else timers w)
  ∧ outputs res
    = broadcast_to w 6 (msg_setVotes v) []
      ++ (if xorb (skipWarning (room_of w 6))
                  (shouldSkip (entries true v) (entries false v)
                     (length (peers (room_of w 6))))
          then broadcast_to w 6
                 (msg_setSkipWarning
                    (shouldSkip (entries true v) (entries false v)
                       (length (peers (room_of w 6))))) []
          else []).
Proof.
  apply (setVote_counts_and_warns (after (run playing_a buoy)) 6 (str "uuid-5") false
           {| np_track := Room.delete_data (Room.stamp "uuid-10" "http://h/" (song "a"));
              votes := ∅; startedAt := seconds_plus_5 0 |}).
  vm_compute. reflexivity.
Defined.

(** C1 fails as stated: B votes [true] in a room of two; the code counts
    one [ups] and no [downs] and raises no warning, where the statement has
    one [downs] and a warning. *)
Lemma setVote_not_as_specified :
  let w := after (run playing_a buoy) in
  let v := <["uuid-5" := true]> (∅ : gmap string bool) in
  (count_votes v = (1, 0) ∧ entries true v = 1 ∧ entries false v = 0)
  ∧ (shouldSkip 0 1 (length (peers (room_of w 6))) = true
     ∧ skipWarning (room_of (after (Room.setVote 6 (str "uuid-5") true w)) 6) = false)
  ∧ ¬ setVote_as_specified w 6 (str "uuid-5") true.
Proof.
  split_and!; try (vm_compute; reflexivity).
  intros H.
  edestruct H as [Hc _]; [vm_compute; reflexivity|].
  vm_compute in Hc. discriminate.
Qed.

(** ** The removal timer *)

Lemma stable_and (I J : World → Prop) :
  stable I → stable J → stable (λ w, I w ∧ J w).
Proof.
  intros (I1 & I2 & I3 & I4 & I5 & I6 & I7) (J1 & J2 & J3 & J4 & J5 & J6 & J7).
  split_and!; intros * [??]; split; eauto.
Qed.

Lemma stable_endTrack I r : stable I → keeps I (Room.endTrack r).
Proof. intros (? & ? & ? & ? & ? & ? & ?). by apply keeps_endTrack. Qed.

Lemma stable_removeDj I r p : stable I → keeps I (Room.removeDj r p).
Proof.
  intros (? & ? & ? & ? & ? & ? & ?). apply keeps_removeDj; try done; intros.
  - by apply keeps_fetchOnDeck.
  - by apply keeps_setOnDeck.
  - by apply keeps_endTrack.
Qed.

Lemma stable_addDj I r p : stable I → keeps I (Room.addDj r p).
Proof.
  intros (? & ? & ? & ? & ? & ? & ?). apply keeps_addDj; try done; intros.
  - by apply keeps_fetchOnDeck.
  - by apply keeps_spinDj.
Qed.



Lemma room_field_alter {B} (g : Room → B) (f : Room → Room) (r r' : rref) (w : World) :
  (∀ R, g (f R) = g R) →
  g (room_of (with_room_heap (alter f r) w) r') = g (room_of w r').
Proof.
  intros Hf. unfold room_of. cbn. rewrite !lookup_total_alt, lookup_alter.
  case_decide; [subst|done]. destruct (room_heap w !! r'); cbn; [|done].
  by rewrite Hf.
Qed.

Lemma stable_room_field {B} (g : Room → B) (r : rref) (b : B) :
  (∀ v R, g (set_onDeck v R) = g R) →
  (∀ v R, g (set_activeDj v R) = g R) →
  (∀ v R, g (set_nowPlaying v R) = g R) →
  (∀ v R, g (set_djs v R) = g R) →
  stable (λ w, g (room_of w r) = b).
Proof.
  intros H1 H2 H3 H4. split_and!; try done; intros; by rewrite room_field_alter.
Qed.

Lemma stable_room_exists (r : rref) : stable (λ w, is_Some (room_heap w !! r)).
Proof. split_and!; try done; intros; by apply room_exists_alter. Qed.

Lemma room_exists_alter_inv (f : Room → Room) (r r' : rref) (w : World) :
  is_Some (room_heap (with_room_heap (alter f r) w) !! r') →
  is_Some (room_heap w !! r').
Proof.
  cbn. rewrite lookup_alter. case_decide; [subst|done].
  by destruct (room_heap w !! r').
Qed.







Lemma room_of_alter_ne (f : Room → Room) (r r' : rref) (w : World) :
  r ≠ r' → room_of (with_room_heap (alter f r) w) r' = room_of w r'.
Proof.
  intros Hne. unfold room_of. cbn. by rewrite !lookup_total_alt, lookup_alter_ne.
Qed.




Lemma keeps_run_steps (I : World → Prop) (es : list event) :
  (∀ e, keeps I (step e)) → keeps I (run es).
Proof.
  intros Hstep. induction es as [|e es IH]; cbn [run]; keeps_auto.
Qed.







(** * Further properties of the code *)

Ltac by_decide := apply (bool_decide_unpack _); vm_compute; exact I.

(** ** The rotation *)

Lemma findIndex_lt {A} (f : A → bool) (l : list A) :
  (findIndex f l < Z.of_nat (length l))%Z ∨ l = [].
Proof.
  induction l as [|x l IH]; [by right|]. left. cbn [findIndex length].
  destruct (f x); [lia|].
  destruct (Z.eqb_spec (findIndex f l) (-1)); [lia|].
  destruct IH as [IH| ->]; [lia|]. done.
Qed.

Lemma indexOf_NoDup `{EqDecision A} (l : list A) (i : nat) (x : A) :
  NoDup l → l !! i = Some x → indexOf x l = Z.of_nat i.
Proof.
  intros Hnd Hi.
  destruct (indexOf_splice x l) as (l1 & l2 & Hl & Hn & Hidx & _).
  { by eapply list_elem_of_lookup_2. }
  rewrite Hidx. f_equal. eapply NoDup_lookup; [done| |done].
  rewrite Hl. by rewrite list_lookup_middle.
Qed.

(** X1. [nextDj()] is [null] exactly when there is no DJ, and otherwise is
    one of the DJs, whatever [activeDj] is (also a peer that is no longer a
    DJ). *)
Theorem nextDj_null_or_member (R : Room) :
  (Room.nextDj R = None ↔ djs R = [])
  ∧ (∀ d, Room.nextDj R = Some d → d ∈ djs R).
Proof.
  unfold Room.nextDj. destruct (djs R) as [|d0 l] eqn:Hd.
  { cbn. split; [done|]. by intros. }
  rewrite bool_decide_eq_false_2 by done.
  assert (∀ i, (0 ≤ i < Z.of_nat (length (d0 :: l)))%Z →
               is_Some ((d0 :: l) !! Z.to_nat i)) as Hin.
  { intros i Hi. apply lookup_lt_is_Some_2. cbn [length] in *. lia. }
  destruct (activeDj R) as [a|].
  - pose proof (findIndex_ge (λ y, bool_decide (y = a)) (d0 :: l)) as Hge.
    destruct (findIndex_lt (λ y, bool_decide (y = a)) (d0 :: l)) as [Hlt|]; [|done].
    unfold indexOf.
    set (n := findIndex _ _) in *. set (len := Z.of_nat _) in *.
    assert (0 ≤ (n + 1) `rem` len < len)%Z as Hrange.
    { assert (0 < len)%Z by (unfold len; cbn [length]; lia).
      apply Z.rem_bound_pos; lia. }
    destruct (Hin _ Hrange) as [d Hd']. rewrite Hd'. split; [done|].
    intros ? [= <-]. by eapply list_elem_of_lookup_2.
  - cbn. split; [done|]. intros ? [= <-]. by left.
Qed.

(** X2. With the active DJ at position [i] of a list of DJs without
    repetition, the next DJ is the one at position [i + 1], and the first
    one after the last. *)
Theorem nextDj_rotates (R : Room) (i : nat) (a : pref) :
  NoDup (djs R) →
  djs R !! i = Some a →
  activeDj R = Some a →
  Room.nextDj R = djs R !! ((i + 1) mod length (djs R)).
Proof.
  intros Hnd Hi Ha. unfold Room.nextDj.
  assert (i < length (djs R)) as Hlt by by eapply lookup_lt_Some.
  rewrite bool_decide_eq_false_2 by lia. rewrite Ha.
  rewrite (indexOf_NoDup _ i) by done. f_equal.
  rewrite Z.rem_mod_nonneg by lia.
  replace (Z.of_nat i + 1)%Z with (Z.of_nat (i + 1)) by lia.
  rewrite <- Nat2Z.inj_mod. apply Nat2Z.id.
Qed.

Lemma nextDj_rotates_witness :
  Room.nextDj (rotation_room (Some 30))
  = djs (rotation_room (Some 30)) !! ((2 + 1) mod length (djs (rotation_room (Some 30)))).
Proof.
  apply (nextDj_rotates (rotation_room (Some 30)) 2 30).
  - by_decide.
  - reflexivity.
  - reflexivity.
Defined.

(** X3. When there is no active DJ, or the active DJ is no longer in the
    list, the next DJ is the first of the list. *)
Theorem nextDj_restarts (R : Room) :
  (∀ a, activeDj R = Some a → a ∉ djs R) →
  Room.nextDj R = head (djs R).
Proof.
  intros Ha. unfold Room.nextDj. destruct (djs R) as [|d0 l] eqn:Hd; [done|].
  rewrite bool_decide_eq_false_2 by done.
  destruct (activeDj R) as [a|]; [|done].
  specialize (Ha a eq_refl). apply indexOf_not_in in Ha. rewrite Ha.
  replace (-1 + 1)%Z with 0%Z by lia. rewrite Z.rem_0_l by done. done.
Qed.

Lemma nextDj_restarts_witness :
  Room.nextDj (rotation_room (Some 40)) = head (djs (rotation_room (Some 40))).
Proof.
  apply (nextDj_restarts (rotation_room (Some 40))).
  intros a [= <-]. by_decide.
Defined.

(** ** The end of a track *)

Ltac find_or H :=
  first [ exact H
        | lazymatch goal with |- _ ∨ _ => idtac end;
          first [ left; find_or H | right; find_or H ] ].

Lemma wp_suspend (k : continuation) (w : World) Q :
  Q ((), with_awaiting (λ l, l ++ [{| await_id := counter w; await_cont := k |}])
           (with_counter S w), []) →
  wp (suspend k) w Q.
Proof. intros H. exact H. Qed.

(** Up to its [await], [fetchOnDeck] touches the registry, the suspended
    calls and the counter only. *)
Lemma fetchOnDeck_effect (r : rref) (w : World) :
  let w' := after (Room.fetchOnDeck r w) in
  room_heap w' = room_heap w
  ∧ peer_heap w' = peer_heap w
  ∧ timers w' = timers w
  ∧ clock w' = clock w
  ∧ rooms (server w') = rooms (server w)
  ∧ tracks (server w') = evict (onDeck (room_of w r)) (tracks (server w)).
Proof.
  cbn zeta. wp_of (Room.fetchOnDeck r w). unfold Room.fetchOnDeck. wp_run.
  assert (∀ w1, room_heap w1 = room_heap w ∧ peer_heap w1 = peer_heap w
                ∧ timers w1 = timers w ∧ clock w1 = clock w
                ∧ rooms (server w1) = rooms (server w)
                ∧ tracks (server w1) = evict (onDeck (room_of w r)) (tracks (server w)) →
    wp (match Room.nextDj (room_of w r) with
        | Some nextDj => sent ← send nextDj msg_requestTrack;
            if sent : bool then suspend (fetchOnDeck_await r nextDj) else pass
        | None => pass
        end) w1
       (λ y, room_heap y.1.2 = room_heap w ∧ peer_heap y.1.2 = peer_heap w
             ∧ timers y.1.2 = timers w ∧ clock y.1.2 = clock w
             ∧ rooms (server y.1.2) = rooms (server w)
             ∧ tracks (server y.1.2)
               = evict (onDeck (room_of w r)) (tracks (server w)))) as Htail.
  { intros w1 H. destruct (Room.nextDj _); wp_run; [|done].
    destruct (is_str _); [apply wp_suspend|wp_run]; done. }
  destruct (onDeck (room_of w r)); wp_run; by apply Htail.
Qed.

(** X4. While a track is on deck, [fetchOnDeck] deletes its entry from the
    registry and leaves it on deck. *)
Theorem fetchOnDeck_evicts_track_on_deck (w : World) (r : rref) (t : Track) :
  onDeck (room_of w r) = Some t →
  let w' := after (Room.fetchOnDeck r w) in
  onDeck (room_of w' r) = Some t
  ∧ tracks (server w') !! property_key (track_id t) = None.
Proof.
  intros Ht. destruct (fetchOnDeck_effect r w) as (Hr & _ & _ & _ & _ & Htr).
  cbn zeta. split.
  - unfold room_of in *. by rewrite Hr.
  - rewrite Htr, Ht. cbn. apply lookup_delete_eq.
Qed.

Lemma fetchOnDeck_evicts_track_on_deck_witness :
  let w := after (run b_on_deck buoy) in
  let t := Room.delete_data (Room.stamp "uuid-13" "http://h/" (song "b")) in
  let w' := after (Room.fetchOnDeck 6 w) in
  onDeck (room_of w' 6) = Some t
  ∧ tracks (server w') !! property_key (track_id t) = None.
Proof.
  apply (fetchOnDeck_evicts_track_on_deck (after (run b_on_deck buoy)) 6).
  vm_compute. reflexivity.
Defined.

(** The start of a track is rounded twice: at 137 ms it is the double
    5.1370000000000005, above the rational 5137/1000. *)
Lemma seconds_plus_5_rounds :
  seconds_plus_5 137 = SpecFloat.S754_finite false 5783747821450560 (-50)
  ∧ (5137 * 2 ^ 50 < 5783747821450560 * 1000)%Z.
Proof. split; [vm_compute; reflexivity|lia]. Qed.

(** X5. Ending a track while another is on deck: the track on deck
    becomes the playing track, with no votes and the start
    [(now / 1000) + 5] as the doubles give it, the next
    DJ becomes the active one, nothing is on deck any more, the finished
    track leaves the registry, and the roster is told to stop and to play. *)
Theorem endTrack_plays_track_on_deck
    (w : World) (r : rref) (np : NowPlaying) (t : Track) (d : pref) :
  nowPlaying (room_of w r) = Some np →
  onDeck (room_of w r) = Some t →
  Room.nextDj (room_of w r) = Some d →
  let res := Room.endTrack r w in
  let R' := room_of (after res) r in
  let np' := {| np_track := Room.delete_data t; votes := ∅;
                startedAt := seconds_plus_5 (clock w) |} in
  returned res = true
  ∧ nowPlaying R' = Some np'
  ∧ activeDj R' = Some d
  ∧ onDeck R' = None
  ∧ tracks (server (after res))
    = delete (property_key (track_id (np_track np))) (tracks (server w))
  ∧ (∀ q, q ∈ peers (room_of w r) → is_str (peer_id (peer_of w q)) = true →
       Emit q msg_stopTrack ∈ outputs res
       ∧ Emit q (msg_playTrack np') ∈ outputs res).
Proof.
  intros Hnp Ht Hd. pose proof (room_exists_nowPlaying _ _ _ Hnp) as Hex.
  cbn zeta. wp_of (Room.endTrack r w). unfold Room.endTrack. wp_run.
  rewrite Hnp. wp_run. unfold Room.spinDj. wp_run. world_simpl.
  assert (Room.nextDj (set_nowPlaying None (room_of w r)) = Some d) as -> by done.
  unfold Room.setActiveDj. wp_run. cbn [onDeck set_nowPlaying]. rewrite Ht.
  wp_run. unfold Room.spinDj_publish. wp_run. world_simpl.
  cbn [clock with_room_heap with_server].
  match goal with |- wp (Room.fetchOnDeck r) ?w1 _ =>
    pose proof (fetchOnDeck_effect r w1) as (Hr & _ & _ & _ & _ & Htr); set (wf := w1) in *
  end.
  unfold wp, mret, M_ret. cbn [fst snd]. fold (after (Room.fetchOnDeck r wf)).
  assert (room_of (after (Room.fetchOnDeck r wf)) r = room_of wf r) as ->.
  { unfold room_of. by rewrite Hr. }
  rewrite Htr. unfold wf. world_simpl.
  cbn [nowPlaying activeDj onDeck set_nowPlaying set_onDeck set_activeDj evict
       with_server with_room_heap server tracks set_tracks clock].
  split_and!; try done.
  intros q Hq Hs.
  assert (∀ m, Emit q m ∈ broadcast_to w r m []) as Hreach.
  { intros m. unfold broadcast_to. apply list_elem_of_fmap. exists q. split; [done|].
    apply list_elem_of_filter. split; [|done]. unfold reached.
    rewrite Hs. by cbn. }
  repeat (progress rewrite ?elem_of_app, ?elem_of_cons).
  split; find_or (Hreach msg_stopTrack) || find_or (Hreach (msg_playTrack
    {| np_track := Room.delete_data t; votes := ∅;
       startedAt := seconds_plus_5 (clock w) |})).
Qed.

Lemma endTrack_plays_track_on_deck_witness :
  let w := after (run b_on_deck buoy) in
  let np := {| np_track := Room.delete_data (Room.stamp "uuid-10" "http://h/" (song "a"));
               votes := ∅; startedAt := seconds_plus_5 0 |} in
  let t := Room.delete_data (Room.stamp "uuid-13" "http://h/" (song "b")) in
  let res := Room.endTrack 6 w in
  let R' := room_of (after res) 6 in
  let np' := {| np_track := Room.delete_data t; votes := ∅;
                startedAt := seconds_plus_5 (clock w) |} in
  returned res = true
  ∧ nowPlaying R' = Some np'
  ∧ activeDj R' = Some 2
  ∧ onDeck R' = None
  ∧ tracks (server (after res))
    = delete (property_key (track_id (np_track np))) (tracks (server w))
  ∧ (∀ q, q ∈ peers (room_of w 6) → is_str (peer_id (peer_of w q)) = true →
       Emit q msg_stopTrack ∈ outputs res
       ∧ Emit q (msg_playTrack np') ∈ outputs res).
Proof.
  apply (endTrack_plays_track_on_deck (after (run b_on_deck buoy)) 6).
  - vm_compute. reflexivity.
  - vm_compute. reflexivity.
  - vm_compute. reflexivity.
Defined.

(** X6. Ending a track when no DJ is left: nothing plays, nobody is
    active, nothing is on deck, and the roster is sent [stopTrack],
    [setActiveDj] with [null] twice and [setOnDeck] with [null]. *)
Theorem endTrack_without_djs (w : World) (r : rref) (np : NowPlaying) :
  nowPlaying (room_of w r) = Some np →
  djs (room_of w r) = [] →
  let res := Room.endTrack r w in
  let R' := room_of (after res) r in
  returned res = true
  ∧ nowPlaying R' = None ∧ activeDj R' = None ∧ onDeck R' = None
  ∧ awaiting (after res) = awaiting w
  ∧ tracks (server (after res))
    = delete (property_key (track_id (np_track np))) (tracks (server w))
  ∧ outputs res
    = broadcast_to w r msg_stopTrack []
      ++ broadcast_to w r (msg_setActiveDj null) []
      ++ [BroadcastRooms]
      ++ broadcast_to w r (msg_setActiveDj null) []
      ++ broadcast_to w r (msg_setOnDeck None) [].
Proof.
  intros Hnp Hd. pose proof (room_exists_nowPlaying _ _ _ Hnp) as Hex.
  cbn zeta. wp_of (Room.endTrack r w). unfold Room.endTrack. wp_run.
  rewrite Hnp. wp_run. unfold Room.spinDj. wp_run. world_simpl.
  assert (Room.nextDj (set_nowPlaying None (room_of w r)) = None) as ->.
  { unfold Room.nextDj. cbn [djs set_nowPlaying]. by rewrite Hd. }
  unfold Room.setActiveDj, Room.setOnDeck. wp_run. world_simpl.
  cbn. split_and!; try done. by rewrite !app_nil_r.
Qed.

Lemma endTrack_without_djs_witness :
  let w := after (run playing_without_djs buoy) in
  let np := {| np_track := Room.delete_data (Room.stamp "uuid-10" "http://h/" (song "a"));
               votes := ∅; startedAt := seconds_plus_5 0 |} in
  let res := Room.endTrack 6 w in
  let R' := room_of (after res) 6 in
  returned res = true
  ∧ nowPlaying R' = None ∧ activeDj R' = None ∧ onDeck R' = None
  ∧ awaiting (after res) = awaiting w
  ∧ tracks (server (after res))
    = delete (property_key (track_id (np_track np))) (tracks (server w))
  ∧ outputs res
    = broadcast_to w 6 msg_stopTrack []
      ++ broadcast_to w 6 (msg_setActiveDj null) []
      ++ [BroadcastRooms]
      ++ broadcast_to w 6 (msg_setActiveDj null) []
      ++ broadcast_to w 6 (msg_setOnDeck None) [].
Proof.
  apply (endTrack_without_djs (after (run playing_without_djs buoy)) 6).
  - vm_compute. reflexivity.
  - vm_compute. reflexivity.
Defined.

(** ** Becoming a DJ and stepping down *)

(** The playback leaves every field of a room but [onDeck], [activeDj]
    and [nowPlaying]. *)
Lemma playback_keeps_field {B} (g : Room → B) (r : rref) (b : B) :
  (∀ v R, g (set_onDeck v R) = g R) →
  (∀ v R, g (set_activeDj v R) = g R) →
  (∀ v R, g (set_nowPlaying v R) = g R) →
  (∀ r', keeps (λ w, g (room_of w r) = b) (Room.fetchOnDeck r'))
  ∧ (∀ r' t, keeps (λ w, g (room_of w r) = b) (Room.setOnDeck r' t))
  ∧ (∀ r', keeps (λ w, g (room_of w r) = b) (Room.spinDj r'))
  ∧ (∀ r', keeps (λ w, g (room_of w r) = b) (Room.endTrack r')).
Proof.
  intros G1 G2 G3.
  assert (∀ w, g (room_of w r) = b → g (room_of (with_counter S w) r) = b) as H1 by done.
  assert (∀ f w, g (room_of w r) = b → g (room_of (with_awaiting f w) r) = b) as H2 by done.
  assert (∀ f w, g (room_of w r) = b →
            g (room_of (with_server (λ S, set_tracks (f S) S) w) r) = b) as H3 by done.
  assert (∀ r' v w, g (room_of w r) = b →
            g (room_of (with_room_heap (alter (set_onDeck v) r') w) r) = b) as H4
    by (intros; by rewrite room_field_alter).
  assert (∀ r' v w, g (room_of w r) = b →
            g (room_of (with_room_heap (alter (set_activeDj v) r') w) r) = b) as H5
    by (intros; by rewrite room_field_alter).
  assert (∀ r' v w, g (room_of w r) = b →
            g (room_of (with_room_heap (alter (set_nowPlaying v) r') w) r) = b) as H6
    by (intros; by rewrite room_field_alter).
  split_and!; intros.
  - exact (keeps_fetchOnDeck _ H1 H2 H3 _).
  - exact (keeps_setOnDeck _ H4 _ _).
  - exact (keeps_spinDj _ H1 H2 H3 H4 H5 H6 _).
  - exact (keeps_endTrack _ H1 H2 H3 H4 H5 H6 _).
Qed.

(** What [removeDj] does to the list of DJs. *)
Lemma removeDj_djs (w : World) (r : rref) (p : pref) :
  is_Some (room_heap w !! r) →
  djs (room_of (after (Room.removeDj r p w)) r)
  = if bool_decide (p ∈ djs (room_of w r))
    then splice1 (indexOf p (djs (room_of w r))) (djs (room_of w r))
    else djs (room_of w r).
Proof.
  intros Hex. wp_of (Room.removeDj r p w). unfold Room.removeDj. wp_run.
  destruct (Z.eqb_spec (indexOf p (djs (room_of w r))) (-1)) as [E|E]; wp_run.
  { apply indexOf_not_in in E. rewrite bool_decide_eq_false_2 by exact E.
    reflexivity. }
  apply indexOf_in in E.
  rewrite (bool_decide_eq_true_2 (p ∈ djs (room_of w r))) by done.
  set (l := splice1 _ _). world_simpl.
  destruct (playback_keeps_field djs r l) as (Hf & Hs & _ & He); [done..|].
  apply (wp_keeps (λ w', djs (room_of w' r) = l)); [keeps_auto|].
  by rewrite room_of_alter_eq.
Qed.

(** What [addDj] does to the list of DJs. *)
Lemma addDj_djs (w : World) (r : rref) (p : pref) :
  is_Some (room_heap w !! r) →
  let res := Room.addDj r p w in
  (returned res = success
   ∧ djs (room_of (after res) r) = djs (room_of w r) ++ [p]
   ∧ (p ∉ djs (room_of w r))
   ∧ length (djs (room_of w r)) < MAX_DJS
   ∧ room_heap (after res) !! r ≠ None)
  ∨ ((∃ m, returned res = error m) ∧ after res = w ∧ outputs res = []).
Proof.
  intros Hex. cbn zeta. wp_of (Room.addDj r p w). unfold Room.addDj. wp_run.
  case_bool_decide as Hlen; wp_run; [right; eauto|].
  rewrite findIndex_fmap.
  destruct (Z.eqb_spec (findIndex (strict_eq (peer_id (peer_of w p))
              ∘ (λ p0, peer_id (peer_of w p0))) (djs (room_of w r))) (-1)) as [E|E];
    cbn [negb]; wp_run; [|right; eauto].
  world_simpl. cbn [djs set_djs].
  set (l := djs (room_of w r) ++ [p]).
  destruct (playback_keeps_field djs r l) as (Hf & Hs & Hsp & He); [done..|].
  pose proof (stable_room_exists r) as (E1 & E2 & E3 & E4 & E5 & E6 & E7).
  set (I := λ w', djs (room_of w' r) = l ∧ is_Some (room_heap w' !! r)).
  assert (∀ r', keeps I (Room.spinDj r')) as HIs.
  { intros r' w' [??]. split; [by apply Hsp|].
    by apply (keeps_spinDj _ E1 E2 E3 E4 E5 E6). }
  assert (∀ r', keeps I (Room.fetchOnDeck r')) as HIf.
  { intros r' w' [??]. split; [by apply Hf|].
    by apply (keeps_fetchOnDeck _ E1 E2 E3). }
  match goal with |- wp ?m ?w0 _ => apply (wp_keeps_then I m w0) end; [keeps_auto| |].
  { split; [by rewrite room_of_alter_eq|by room_exists]. }
  intros x Hx. wp_run.
  match goal with |- wp ?m ?w0 _ => apply (wp_keeps_then I m w0) end;
    [keeps_auto|done|].
  intros y [Hy1 Hy2]. wp_run. left. split_and!; try done.
  - intros Hin. apply findIndex_none in E. rewrite Forall_forall in E.
    apply E in Hin. cbn in Hin. unfold strict_eq in Hin.
    by rewrite bool_decide_eq_true_2 in Hin.
  - unfold MAX_DJS in *. lia.
  - by destruct Hy2 as [? ->].
Qed.

(** X7. A peer that [addDj] accepted and that [removeDj] then takes out:
    the list of DJs is what it was. *)
Theorem addDj_then_removeDj (w : World) (r : rref) (p : pref) :
  is_Some (room_heap w !! r) →
  returned (Room.addDj r p w) = success →
  djs (room_of (after (Room.removeDj r p (after (Room.addDj r p w)))) r)
  = djs (room_of w r).
Proof.
  intros Hex Hok.
  destruct (addDj_djs w r p Hex) as [(_ & Hd & Hn & _ & Hex')|[[m Hm] _]];
    [|congruence].
  assert (is_Some (room_heap (after (Room.addDj r p w)) !! r)) as Hex2.
  { destruct (room_heap (after (Room.addDj r p w)) !! r); [eauto|done]. }
  rewrite removeDj_djs by done.
  assert (p ∈ djs (room_of w r) ++ [p]) as Hin.
  { apply elem_of_app. right. by apply list_elem_of_singleton. }
  rewrite Hd. rewrite bool_decide_eq_true_2 by done.
  destruct (indexOf_splice p (djs (room_of w r) ++ [p]) Hin)
    as (l1 & l2 & Hl & Hn1 & _ & ->).
  assert (l1 = djs (room_of w r) ∧ l2 = []) as [-> ->].
  { clear -Hl Hn Hn1. revert l1 Hl Hn Hn1.
    induction (djs (room_of w r)) as [|x l IH]; intros l1 Hl Hn Hn1.
    - destruct l1 as [|y l1]; [by injection Hl as <-|].
      injection Hl as <- Hl. by destruct l1.
    - destruct l1 as [|y l1].
      + injection Hl as -> _. destruct Hn. by left.
      + injection Hl as <- Hl.
        destruct (IH l1) as [-> ->]; [done| | |done].
        * intros ?. apply Hn. by right.
        * intros ?. apply Hn1. by right. }
  by rewrite app_nil_r.
Qed.

Lemma addDj_then_removeDj_witness :
  let w := after (run playing_a buoy) in
  djs (room_of (after (Room.removeDj 6 2 (after (Room.addDj 6 2 w)))) 6)
  = djs (room_of w 6).
Proof.
  apply (addDj_then_removeDj (after (run playing_a buoy)) 6 2).
  - vm_compute. eexists. reflexivity.
  - vm_compute. reflexivity.
Defined.

(** ** Calls *)

Lemma wp_skip {A} (m : M A) (w : World) Q : (∀ x, Q x) → wp m w Q.
Proof. intros H. apply H. Qed.

(** X8. A peer that is in no room calls [leaveRoom], [becomeDj],
    [stepDown], [trackEnded], [skipTurn], [vote] or [updatedQueue]: the
    state is unchanged, nothing is sent, and the answer is an error, or
    [undefined] for [updatedQueue]. *)
Theorem call_outside_a_room (w : World) (p : pref) (c : Peer.rpc) :
  currentRoom (peer_of w p) = None →
  needs_room c = true →
  let res := Peer._handleMessage p c w in
  after res = w ∧ outputs res = []
  ∧ match c with
    | Peer.call_updatedQueue => returned res = Some no_value
    | _ => ∃ m, returned res = Some (error m)
    end.
Proof.
  intros Hroom Hc. cbn zeta. wp_of (Peer._handleMessage p c w).
  destruct c; try discriminate Hc; cbn [Peer._handleMessage];
    unfold Peer.becomeDj, Peer.leaveRoom, Peer.skipTurn, Peer.stepDown,
      Peer.trackEnded, Peer.updatedQueue, Peer.vote;
    wp_run; rewrite Hroom; wp_run; split_and!; try done; eauto.
Qed.

Lemma call_outside_a_room_witness :
  let res := Peer._handleMessage 0 Peer.call_becomeDj (after (run connected buoy)) in
  after res = after (run connected buoy) ∧ outputs res = []
  ∧ ∃ m, returned res = Some (error m).
Proof.
  apply (call_outside_a_room (after (run connected buoy)) 0 Peer.call_becomeDj).
  - vm_compute. reflexivity.
  - reflexivity.
Defined.

(** X9. A peer that is in no room calls [sendChat]: a blank message is
    answered with an error; any other message makes the handler throw before
    a promise exists, and the call is never answered.  Nothing changes and
    nothing is sent either way. *)
Theorem sendChat_outside_a_room (w : World) (p : pref) (text : string) :
  currentRoom (peer_of w p) = None →
  let res := Peer._handleMessage p (Peer.call_sendChat text) w in
  after res = w ∧ outputs res = []
  ∧ returned res
    = if bool_decide (String.length text = 0)
      then Some (error "can't send a blank message") else None.
Proof.
  intros Hroom. cbn zeta. wp_of (Peer._handleMessage p (Peer.call_sendChat text) w).
  cbn [Peer._handleMessage]. unfold Peer.sendChat. wp_run.
  case_bool_decide; wp_run; [done|]. rewrite Hroom. by wp_run.
Qed.

Lemma sendChat_outside_a_room_witness :
  let res := Peer._handleMessage 0 (Peer.call_sendChat "hi") (after (run connected buoy)) in
  after res = after (run connected buoy) ∧ outputs res = []
  ∧ returned res = None.
Proof.
  apply (sendChat_outside_a_room (after (run connected buoy)) 0 "hi").
  vm_compute. reflexivity.
Defined.

(** ** The result of [addDj] and of [removeDj] *)

(** X10. [addDj] accepts a peer exactly when fewer than [MAX_DJS] DJs are
    listed and none of them has the [id] of the peer. *)
Theorem addDj_accepts_iff (w : World) (r : rref) (p : pref) :
  returned (Room.addDj r p w) = success
  ↔ length (djs (room_of w r)) < MAX_DJS
    ∧ ∀ d, d ∈ djs (room_of w r) → peer_id (peer_of w d) ≠ peer_id (peer_of w p).
Proof.
  wp_of (Room.addDj r p w). unfold Room.addDj. wp_run.
  case_bool_decide as Hlen; wp_run; [split; [done|lia]|].
  rewrite findIndex_fmap.
  destruct (Z.eqb_spec (findIndex (strict_eq (peer_id (peer_of w p))
              ∘ (λ p0, peer_id (peer_of w p0))) (djs (room_of w r))) (-1)) as [E|E];
    cbn [negb]; wp_run.
  - apply wp_skip. intros x. wp_run. apply wp_skip. intros y. wp_run.
    split; [intros _|done]. split; [lia|].
    intros d Hd. apply findIndex_none in E. rewrite Forall_forall in E.
    apply E in Hd. cbn in Hd. unfold strict_eq in Hd.
    apply bool_decide_eq_false in Hd. congruence.
  - split; [done|]. intros [_ Hall]. destruct E. apply findIndex_none.
    apply Forall_forall. intros d Hd. cbn. unfold strict_eq.
    apply bool_decide_eq_false. intros Heq. by apply (Hall d Hd).
Qed.

Lemma endTrack_returned (r : rref) (w : World) :
  returned (Room.endTrack r w) = bool_decide (is_Some (nowPlaying (room_of w r))).
Proof.
  wp_of (Room.endTrack r w). unfold Room.endTrack. wp_run.
  destruct (nowPlaying (room_of w r)); wp_run.
  - apply wp_skip. intros x. wp_run. by rewrite bool_decide_eq_true_2.
  - rewrite bool_decide_eq_false_2; [done|]. by intros [? ?].
Qed.

(** X11. [removeDj] returns [true] exactly when the peer is listed as a DJ
    and, if it is the active DJ, a track is playing: for the active DJ the
    result is that of [endTrack]. *)
Theorem removeDj_returns_true_iff (w : World) (r : rref) (p : pref) :
  returned (Room.removeDj r p w) = true
  ↔ p ∈ djs (room_of w r)
    ∧ (activeDj (room_of w r) = Some p → is_Some (nowPlaying (room_of w r))).
Proof.
  wp_of (Room.removeDj r p w). unfold Room.removeDj. wp_run.
  destruct (Z.eqb_spec (indexOf p (djs (room_of w r))) (-1)) as [E|E]; wp_run.
  { apply indexOf_not_in in E. split; [done|]. by intros [? _]. }
  apply indexOf_in in E.
  rewrite (room_field_alter activeDj) by done.
  case_bool_decide as Hact.
  - unfold wp. fold (returned (Room.endTrack r
      (with_room_heap (alter (set_djs (splice1 (indexOf p (djs (room_of w r)))
         (djs (room_of w r)))) r) w))).
    rewrite endTrack_returned, (room_field_alter nowPlaying) by done.
    rewrite bool_decide_eq_true. split; [by intros ?|]. intros [_ H]. by apply H.
  - apply wp_bind, wp_skip. intros x. wp_run. split; [|done]. intros _.
    split; [done|]. intros ?. done.
Qed.

(** ** Voting again *)

Lemma alter_same_room (f : Room → Room) (r : rref) (w : World) :
  f (room_of w r) = room_of w r →
  is_Some (room_heap w !! r) →
  with_room_heap (alter f r) w = w.
Proof.
  intros Hf [R HR]. unfold room_of in Hf. rewrite lookup_total_alt, HR in Hf.
  cbn in Hf. destruct w as [s k ph rh ts aw c n]. unfold with_room_heap. cbn in *.
  f_equal. apply map_eq. intros i. rewrite lookup_alter.
  case_decide; [subst|done]. rewrite HR. cbn. by rewrite Hf.
Qed.

(** A vote that is already recorded, in a room whose warning agrees with
    the ballot, changes nothing. *)
Lemma setVote_recorded (w : World) (r : rref) (id : jsval) (d : bool) (np : NowPlaying) :
  nowPlaying (room_of w r) = Some np →
  set_property (property_key id) d (votes np) = votes np →
  skipWarning (room_of w r)
  = shouldSkip (count_votes (votes np)).1 (count_votes (votes np)).2
      (length (peers (room_of w r))) →
  after (Room.setVote r id d w) = w.
Proof.
  intros Hnp Hv Hsw. pose proof (room_exists_nowPlaying _ _ _ Hnp) as Hex.
  wp_of (Room.setVote r id d w). unfold Room.setVote. wp_run. rewrite Hnp.
  wp_run. cbn [votes set_votes]. rewrite Hv.
  assert (set_votes (votes np) np = np) as -> by by destruct np.
  rewrite alter_same_room; [|by rewrite <- Hnp; destruct (room_of w r)|done].
  fold (shouldSkip (count_votes (votes np)).1 (count_votes (votes np)).2
          (length (peers (room_of w r)))).
  rewrite Hsw. by destruct (shouldSkip _ _ _); cbn [negb andb]; wp_run.
Qed.

(** X12. Casting the same vote a second time changes nothing: no second
    timer is set, none is cleared, the ballot and the warning stay. *)
Theorem setVote_again (w : World) (r : rref) (id : jsval) (d : bool) :
  let w1 := after (Room.setVote r id d w) in
  after (Room.setVote r id d w1) = w1.
Proof.
  cbn zeta. destruct (nowPlaying (room_of w r)) as [np|] eqn:Hnp.
  - pose proof (room_exists_nowPlaying _ _ _ Hnp) as Hex.
    set (v := set_property (property_key id) d (votes np)).
    assert (nowPlaying (room_of (after (Room.setVote r id d w)) r)
              = Some (set_votes v np)
            ∧ skipWarning (room_of (after (Room.setVote r id d w)) r)
              = shouldSkip (count_votes v).1 (count_votes v).2
                  (length (peers (room_of w r)))
            ∧ peers (room_of (after (Room.setVote r id d w)) r)
              = peers (room_of w r)) as (H1 & H2 & H3).
    { wp_of (Room.setVote r id d w). unfold Room.setVote. wp_run. rewrite Hnp.
      wp_run. cbn [votes set_votes]. fold v.
      fold (shouldSkip (count_votes v).1 (count_votes v).2
              (length (peers (room_of w r)))).
      destruct (skipWarning (room_of w r)) eqn:Hsw, (shouldSkip _ _ _) eqn:Hskip;
        cbn [negb andb]; wp_run; world_simpl; cbn; by rewrite ?Hsw. }
    apply (setVote_recorded _ _ _ _ (set_votes v np)); [done| |].
    + cbn [votes set_votes]. unfold v, set_property.
      case_bool_decide; [done|]. apply insert_insert_eq.
    + cbn [votes set_votes]. by rewrite H2, H3.
  - assert (after (Room.setVote r id d w) = w) as ->; [|].
    { wp_of (Room.setVote r id d w). unfold Room.setVote. wp_run. rewrite Hnp.
      by wp_run. }
    wp_of (Room.setVote r id d w). unfold Room.setVote. wp_run. rewrite Hnp.
    by wp_run.
Qed.

(** ** Joining, authenticating and the authentication timer *)

Lemma peer_field_alter {B} (g : Peer → B) (f : Peer → Peer) (p p' : pref) (w : World) :
  (∀ P, g (f P) = g P) →
  g (peer_of (with_peer_heap (alter f p) w) p') = g (peer_of w p').
Proof.
  intros Hf. unfold peer_of. cbn. rewrite !lookup_total_alt, lookup_alter.
  case_decide; [subst|done]. destruct (peer_heap w !! p'); cbn; [|done].
  by rewrite Hf.
Qed.

Lemma peer_of_alter_eq (f : Peer → Peer) (p : pref) (w : World) :
  is_Some (peer_heap w !! p) →
  peer_of (with_peer_heap (alter f p) w) p = f (peer_of w p).
Proof.
  intros [P HP]. unfold peer_of. cbn.
  by rewrite !lookup_total_alt, lookup_alter, decide_True, HP.
Qed.

Lemma peer_of_alter_ne (f : Peer → Peer) (p q : pref) (w : World) :
  p ≠ q → peer_of (with_peer_heap (alter f p) w) q = peer_of w q.
Proof.
  intros Hne. unfold peer_of. cbn.
  by rewrite !lookup_total_alt, lookup_alter, decide_False.
Qed.

Lemma cancelled_gone (h : handle) (ts : list Timer) :
  list_find (λ t, timer_handle t = h) (cancelled (Some h) ts) = None.
Proof.
  apply list_find_None, Forall_forall. intros t Ht. cbn in Ht.
  by apply list_elem_of_filter in Ht as [? _].
Qed.

(** A timer that is not pending does not fire. *)
Lemma on_timeout_gone (h : handle) (w : World) :
  list_find (λ t, timer_handle t = h) (timers w) = None →
  after (on_timeout h w) = w ∧ outputs (on_timeout h w) = [].
Proof.
  intros Hh. wp_of (on_timeout h w). unfold on_timeout. wp_run. rewrite Hh.
  by wp_run.
Qed.

(** X13. A peer whose [join] succeeded is not closed by its
    authentication timer: the timer is no longer pending, and its handle
    firing later, however late, does nothing. *)
Theorem join_cancels_authTimeout
    (w : World) (p : pref) (jwt token : Token) (id : jsval) (h : handle) (ms : Z) :
  authTimeout (peer_of w p) = Some h →
  returned (Peer.join p jwt w) = joined token id →
  let w1 := after (Peer.join p jwt w) in
  (∀ t, t ∈ timers w1 → timer_handle t ≠ h)
  ∧ timers w1 = cancelled (Some h) (timers w)
  ∧ outputs (run [tick ms; timeout h] w1) = [].
Proof.
  intros Hh. cbn zeta. wp_of (Peer.join p jwt w). unfold Peer.join. wp_run.
  destruct (JWT_verify jwt (JWT_SECRET w)); wp_run; [|done].
  destruct (_ || _); wp_run; [done|]. intros _.
  rewrite (peer_field_alter authTimeout) by done. autorewrite with world.
  rewrite Hh. cbn [timers with_timers with_peer_heap with_counter].
  split_and!; [|done|].
  - intros t Ht. cbn in Ht. by apply list_elem_of_filter in Ht as [? _].
  - cbn [run step]. rewrite !outputs_bind. cbn [outputs modify snd app].
    match goal with |- context [on_timeout h ?w0] =>
      destruct (on_timeout_gone h w0) as [_ ->] end; [|done].
    cbn. apply cancelled_gone.
Qed.

Lemma join_cancels_authTimeout_witness :
  let w := after (run connected buoy) in
  let w1 := after (Peer.join 0 invite w) in
  (∀ t, t ∈ timers w1 → timer_handle t ≠ 1)
  ∧ timers w1 = cancelled (Some 1) (timers w)
  ∧ outputs (run [tick 6000; timeout 1] w1) = [].
Proof.
  apply (join_cancels_authTimeout (after (run connected buoy)) 0 invite
           (JWT_sign {| claim_u := str "ws://h"; claim_n := str "buoy";
                        claim_i := str "uuid-2" |} "secret") (str "uuid-2")).
  - vm_compute. reflexivity.
  - vm_compute. reflexivity.
Defined.

(** X14. A peer whose [join] is refused stays on its timer: the state is
    unchanged, and once the 5 s are over the timer disconnects the socket. *)
Theorem refused_join_is_closed
    (w : World) (p : pref) (jwt : Token) (m : string) (h : handle) (i : nat)
    (t : Timer) (ms : Z) :
  list_find (λ t, timer_handle t = h) (timers w) = Some (i, t) →
  timer_callback t = closeUnauthenticated p →
  (due t ≤ clock w + Z.max 0 ms)%Z →
  returned (Peer.join p jwt w) = error m →
  after (Peer.join p jwt w) = w
  ∧ outputs (run [call p (Peer.call_join jwt); tick ms; timeout h] w)
    = [SocketDisconnect p].
Proof.
  intros Hfind Hcb Hdue Herr.
  assert (after (Peer.join p jwt w) = w ∧ outputs (Peer.join p jwt w) = [])
    as [Ha Ho].
  { revert Herr. wp_of (Peer.join p jwt w). unfold Peer.join. wp_run.
    destruct (JWT_verify jwt (JWT_SECRET w)); wp_run; [|done].
    destruct (_ || _); wp_run; done. }
  split; [done|].
  cbn [run step Peer._handleMessage]. rewrite !outputs_bind, !after_bind.
  rewrite Ho, Ha. cbn [outputs after modify mret M_ret fst snd app].
  rewrite !app_nil_r.
  wp_of (on_timeout h (with_clock (λ t0, (t0 + Z.max 0 ms)%Z) w)).
  unfold on_timeout. wp_run. cbn [timers with_clock clock]. rewrite Hfind.
  rewrite bool_decide_eq_true_2 by done. wp_run. rewrite Hcb.
  cbn [run_callback]. by wp_run.
Qed.

Lemma refused_join_is_closed_witness :
  let w := after (run connected buoy) in
  let forged := JWT_sign {| claim_u := str "ws://h"; claim_n := str "buoy";
                            claim_i := undefined |} "guess" in
  after (Peer.join 0 forged w) = w
  ∧ outputs (run [call 0 (Peer.call_join forged); tick 5000; timeout 1] w)
    = [SocketDisconnect 0].
Proof.
  apply (refused_join_is_closed (after (run connected buoy)) 0 _ "invalid token" 1 0
           {| timer_handle := 1; due := 5000;
              timer_callback := closeUnauthenticated 0 |} 5000).
  - vm_compute. reflexivity.
  - reflexivity.
  - vm_compute. discriminate.
  - vm_compute. reflexivity.
Defined.

(** X15. [authenticate] takes the [id] from the token and checks it
    against nothing: a second connection that presents the same token gets
    the same [id], and both peers carry it. *)
Theorem authenticate_shares_id (w : World) (p q : pref) (jwt : Token) (id : jsval) :
  is_Some (peer_heap w !! p) →
  is_Some (peer_heap w !! q) →
  returned (Peer.authenticate p jwt w) = value (authenticated id) →
  let w1 := after (Peer.authenticate p jwt w) in
  let w2 := after (Peer.authenticate q jwt w1) in
  returned (Peer.authenticate q jwt w1) = value (authenticated id)
  ∧ peer_id (peer_of w2 p) = id
  ∧ peer_id (peer_of w2 q) = id.
Proof.
  intros Hp Hq. cbn zeta.
  assert (∀ p0 w0, is_Some (peer_heap w0 !! p0) →
            JWT_SECRET w0 = JWT_SECRET w → server w0 = server w →
            returned (Peer.authenticate p jwt w) = value (authenticated id) →
            let res := Peer.authenticate p0 jwt w0 in
            returned res = value (authenticated id)
            ∧ JWT_SECRET (after res) = JWT_SECRET w
            ∧ server (after res) = server w
            ∧ peer_id (peer_of (after res) p0) = id
            ∧ (∀ p1, is_Some (peer_heap w0 !! p1) → is_Some (peer_heap (after res) !! p1))
            ∧ (∀ p1, p1 ≠ p0 → peer_id (peer_of (after res) p1) = peer_id (peer_of w0 p1)))
    as Hauth.
  { intros p0 w0 Hp0 Hk Hs. cbn zeta.
    wp_of (Peer.authenticate p jwt w). unfold Peer.authenticate at 1. wp_run.
    wp_of (Peer.authenticate p0 jwt w0). unfold Peer.authenticate. wp_run.
    rewrite Hk, Hs.
    destruct (JWT_verify jwt (JWT_SECRET w)); wp_run; [|done].
    destruct (_ || _); wp_run; [done|]. intros [= <-].
    split_and!; try done.
    - autorewrite with world. by rewrite peer_of_alter_eq.
    - intros p1 [P1 HP1]. cbn. rewrite lookup_alter.
      case_decide; subst; rewrite HP1; eauto.
    - intros p1 Hne. autorewrite with world. by rewrite peer_of_alter_ne. }
  intros Hret.
  destruct (Hauth p w Hp eq_refl eq_refl Hret) as (_ & Hk1 & Hs1 & Hid1 & Hex1 & _).
  destruct (Hauth q _ (Hex1 q Hq) Hk1 Hs1 Hret) as (Hr2 & _ & _ & Hid2 & _ & Hne2).
  split_and!; [done| |done].
  destruct (decide (p = q)) as [->|Hne]; [done|]. by rewrite Hne2.
Qed.

Lemma authenticate_shares_id_witness :
  let w := after (run [connection; connection] buoy) in
  let w1 := after (Peer.authenticate 0 pass_token w) in
  let w2 := after (Peer.authenticate 2 pass_token w1) in
  returned (Peer.authenticate 2 pass_token w1) = value (authenticated (str "twin"))
  ∧ peer_id (peer_of w2 0) = str "twin"
  ∧ peer_id (peer_of w2 2) = str "twin".
Proof.
  apply (authenticate_shares_id (after (run [connection; connection] buoy)) 0 2).
  - vm_compute. eexists. reflexivity.
  - vm_compute. eexists. reflexivity.
  - vm_compute. reflexivity.
Defined.

(** X16. [trackEnded] asks whether the caller is the active DJ object,
    [skipTurn] whether it has the active DJ's [id]: a peer that shares its
    [id] with the active DJ is refused by the first and ends the track with
    the second. *)
Theorem skipTurn_compares_ids (w : World) (p a : pref) (room : rref) :
  currentRoom (peer_of w p) = Some room →
  activeDj (room_of w room) = Some a →
  a ≠ p →
  peer_id (peer_of w a) = peer_id (peer_of w p) →
  returned (Peer.trackEnded p w) = error "must be the active dj to end the track"
  ∧ after (Peer.trackEnded p w) = w
  ∧ returned (Peer.skipTurn p w) = success
  ∧ after (Peer.skipTurn p w) = after (Room.endTrack room w)
  ∧ outputs (Peer.skipTurn p w) = outputs (Room.endTrack room w).
Proof.
  intros Hroom Hact Hne Hid. split_and!.
  - wp_of (Peer.trackEnded p w). unfold Peer.trackEnded. wp_run. rewrite Hroom.
    wp_run. rewrite Hact, bool_decide_eq_false_2 by congruence. by wp_run.
  - wp_of (Peer.trackEnded p w). unfold Peer.trackEnded. wp_run. rewrite Hroom.
    wp_run. rewrite Hact, bool_decide_eq_false_2 by congruence. by wp_run.
  - wp_of (Peer.skipTurn p w). unfold Peer.skipTurn. wp_run. rewrite Hroom.
    wp_run. rewrite Hact. wp_run. unfold strict_eq.
    rewrite bool_decide_eq_true_2 by done. cbn [negb]. wp_run.
    apply wp_skip. intros x. by wp_run.
  - unfold Peer.skipTurn. rewrite !after_bind. cbn [this_peer gets returned after fst snd].
    rewrite Hroom. rewrite !after_bind. cbn [this_room gets returned after fst snd].
    rewrite Hact. rewrite !after_bind. cbn [this_peer gets returned after fst snd].
    unfold strict_eq. rewrite bool_decide_eq_true_2 by done. cbn [negb].
    by rewrite after_bind.
  - unfold Peer.skipTurn. rewrite !outputs_bind. cbn [this_peer gets returned after outputs fst snd app].
    rewrite Hroom. rewrite !outputs_bind. cbn [this_room gets returned after outputs fst snd app].
    rewrite Hact. rewrite !outputs_bind. cbn [this_peer gets returned after outputs fst snd app].
    unfold strict_eq. rewrite bool_decide_eq_true_2 by done. cbn [negb].
    rewrite outputs_bind. cbn. by rewrite app_nil_r.
Qed.

Lemma skipTurn_compares_ids_witness :
  let w := after (run twins buoy) in
  returned (Peer.trackEnded 2 w) = error "must be the active dj to end the track"
  ∧ after (Peer.trackEnded 2 w) = w
  ∧ returned (Peer.skipTurn 2 w) = success
  ∧ after (Peer.skipTurn 2 w) = after (Room.endTrack 4 w)
  ∧ outputs (Peer.skipTurn 2 w) = outputs (Room.endTrack 4 w).
Proof.
  apply (skipTurn_compares_ids (after (run twins buoy)) 2 0 4).
  - vm_compute. reflexivity.
  - vm_compute. reflexivity.
  - discriminate.
  - vm_compute. reflexivity.
Defined.

(** ** The roster *)

Lemma wp_fact {A} (m : M A) (w : World) (P Q : A * World * list output → Prop) :
  P (m w) → (∀ x, P x → Q x) → wp m w Q.
Proof. intros HP HQ. by apply HQ. Qed.

Lemma room_exists_peers (w : World) (r : rref) (p : pref) :
  p ∈ peers (room_of w r) → is_Some (room_heap w !! r).
Proof.
  unfold room_of. rewrite lookup_total_alt.
  destruct (room_heap w !! r); [eauto|]. cbn. by intros ?%elem_of_nil.
Qed.

Lemma stable_peer_heap ph : stable (λ w, peer_heap w = ph).
Proof. by split_and!. Qed.

(** What [removePeer] does to the room when the peer is on the roster. *)
Lemma removePeer_effect (w : World) (r : rref) (p : pref) :
  p ∈ peers (room_of w r) →
  let w' := after (Room.removePeer r p w) in
  peers (room_of w' r)
  = splice1 (indexOf p (peers (room_of w r))) (peers (room_of w r))
  ∧ djs (room_of w' r)
    = (if bool_decide (p ∈ djs (room_of w r))
       then splice1 (indexOf p (djs (room_of w r))) (djs (room_of w r))
       else djs (room_of w r))
  ∧ admin (room_of w' r)
    = (if bool_decide (admin (room_of w r) = Some p) then None
       else admin (room_of w r))
  ∧ peer_heap w' = peer_heap w.
Proof.
  intros Hin. pose proof (room_exists_peers _ _ _ Hin) as Hex. cbn zeta.
  wp_of (Room.removePeer r p w). unfold Room.removePeer. wp_run.
  destruct (Z.eqb_spec (indexOf p (peers (room_of w r))) (-1)) as [E|E];
    [by apply indexOf_not_in in E|].
  wp_run.
  set (l := splice1 (indexOf p (peers (room_of w r))) (peers (room_of w r))).
  set (D := if bool_decide (p ∈ djs (room_of w r))
            then splice1 (indexOf p (djs (room_of w r))) (djs (room_of w r))
            else djs (room_of w r)).
  set (w1 := with_room_heap (alter (set_peers l) r) w).
  assert (is_Some (room_heap w1 !! r)) as Hex1 by by apply room_exists_alter.
  set (J := λ w', peers (room_of w' r) = l ∧ admin (room_of w' r) = admin (room_of w r)
                  ∧ is_Some (room_heap w' !! r) ∧ peer_heap w' = peer_heap w).
  assert (stable J) as HJ.
  { repeat apply stable_and.
    - by apply (stable_room_field peers).
    - by apply (stable_room_field admin).
    - apply stable_room_exists.
    - apply stable_peer_heap. }
  apply (wp_fact _ _ (λ x, djs (room_of x.1.2 r) = D ∧ J x.1.2)).
  { split.
    - fold (after (Room.removeDj r p w1)). rewrite removeDj_djs by done.
      unfold w1. by rewrite room_of_alter_eq.
    - apply (stable_removeDj J r p HJ w1). unfold J, w1.
      rewrite room_of_alter_eq by done. done. }
  intros [[b w2] o2] [Hd (Hp & Ha & Hex2 & Hph)]. cbn [fst snd] in *. wp_run.
  case_bool_decide; unfold Room.triggerRemoval; wp_run; world_simpl;
    cbn [admin set_removalTimeout]; rewrite Ha;
    case_bool_decide; wp_run; world_simpl;
    cbn [peers djs admin set_removalTimeout set_admin]; done.
Qed.

(** X17. [removePeer] of a peer that is on the roster takes its first
    entry off the roster, takes it off the list of DJs, and clears [admin]
    if it was the admin. *)
Theorem removePeer_leaves_nothing_behind (w : World) (r : rref) (p : pref) :
  p ∈ peers (room_of w r) →
  NoDup (djs (room_of w r)) →
  let R := room_of w r in
  let R' := room_of (after (Room.removePeer r p w)) r in
  (∃ l1 l2, peers R = l1 ++ p :: l2 ∧ (p ∉ l1) ∧ peers R' = l1 ++ l2)
  ∧ (p ∉ djs R')
  ∧ (∀ q, q ≠ p → q ∈ djs R → q ∈ djs R')
  ∧ admin R' ≠ Some p.
Proof.
  intros Hin Hnd. cbn zeta.
  destruct (removePeer_effect w r p Hin) as (Hp & Hd & Ha & _).
  rewrite Hp, Hd, Ha. clear Hp Hd Ha. split_and!.
  - destruct (indexOf_splice p _ Hin) as (l1 & l2 & Hl & Hn & _ & Hs).
    by exists l1, l2.
  - case_bool_decide as Hdj; [|done].
    destruct (indexOf_splice p _ Hdj) as (l1 & l2 & Hl & Hn & _ & ->).
    rewrite Hl in Hnd. apply NoDup_app in Hnd as (_ & _ & Hnd).
    apply NoDup_cons in Hnd as [Hn2 _].
    rewrite elem_of_app. by intros [?|?].
  - intros q Hq Hqin. case_bool_decide as Hdj; [|done].
    destruct (indexOf_splice p _ Hdj) as (l1 & l2 & Hl & _ & _ & ->).
    rewrite Hl in Hqin. apply elem_of_app.
    apply elem_of_app in Hqin as [?|Hqin]; [by left|].
    apply elem_of_cons in Hqin as [?|?]; [done|by right].
  - by case_bool_decide.
Qed.

Lemma removePeer_leaves_nothing_behind_witness :
  let R := room_of (after (run playing_a buoy)) 6 in
  let R' := room_of (after (Room.removePeer 6 0 (after (run playing_a buoy)))) 6 in
  (∃ l1 l2, peers R = l1 ++ 0 :: l2 ∧ (0 ∉ l1) ∧ peers R' = l1 ++ l2)
  ∧ (0 ∉ djs R')
  ∧ (∀ q, q ≠ 0 → q ∈ djs R → q ∈ djs R')
  ∧ admin R' ≠ Some 0.
Proof.
  apply (removePeer_leaves_nothing_behind (after (run playing_a buoy)) 6 0).
  - by_decide.
  - by_decide.
Defined.

Lemma removePeer_not_found (w : World) (r : rref) (p : pref) :
  indexOf p (peers (room_of w r)) = (-1)%Z →
  Room.removePeer r p w = ((), w, []).
Proof.
  intros Hin.
  change (wp (Room.removePeer r p) w (λ x, x = ((), w, []))).
  unfold Room.removePeer. wp_run. rewrite Hin. by wp_run.
Qed.

(** X18. [removePeer] of a peer that is not on the roster returns at once:
    nothing changes and nothing is sent, whether or not the peer is a DJ or
    the admin of the room. *)
Theorem removePeer_of_a_stranger (w : World) (r : rref) (p : pref) :
  p ∉ peers (room_of w r) →
  after (Room.removePeer r p w) = w ∧ outputs (Room.removePeer r p w) = [].
Proof.
  intros Hin%indexOf_not_in. by rewrite removePeer_not_found.
Qed.

Lemma removePeer_of_a_stranger_witness :
  let w := after (run a_left buoy) in
  after (Room.removePeer 6 0 w) = w ∧ outputs (Room.removePeer 6 0 w) = [].
Proof.
  apply (removePeer_of_a_stranger (after (run a_left buoy)) 6 0). by_decide.
Defined.

(** What [addPeer] does to the rosters and the lists of DJs. *)
Lemma addPeer_effect (w : World) (r : rref) (p : pref) :
  let w' := after (Room.addPeer r p w) in
  (is_Some (room_heap w !! r) →
   peers (room_of w' r) = peers (room_of w r) ++ [p])
  ∧ (∀ r', r ≠ r' → peers (room_of w' r') = peers (room_of w r'))
  ∧ (∀ r', djs (room_of w' r') = djs (room_of w r'))
  ∧ peer_heap w' = peer_heap w
  ∧ (∀ r', is_Some (room_heap w !! r') → is_Some (room_heap w' !! r')).
Proof.
  cbn zeta. wp_of (Room.addPeer r p w). unfold Room.addPeer. wp_run.
  set (J := λ w1 : World,
         (∀ r', peers (room_of w1 r') = peers (room_of w r'))
         ∧ (∀ r', djs (room_of w1 r') = djs (room_of w r'))
         ∧ peer_heap w1 = peer_heap w
         ∧ (∀ r', is_Some (room_heap w !! r') → is_Some (room_heap w1 !! r'))).
  apply (wp_fact _ _ (λ x, J x.1.2)).
  { destruct (strict_eq _ _); [|done]. unfold update_room, modify. cbn [fst snd].
    split_and!; try done; intros r'.
    - by rewrite (room_field_alter peers).
    - by rewrite (room_field_alter djs).
    - apply room_exists_alter. }
  intros [[[] w1] o1] (Hp & Hd & Hph & Hex1). cbn [fst snd] in *. wp_run.
  set (w2 := with_timers _ _).
  assert ((is_Some (room_heap w !! r) →
           peers (room_of w2 r) = peers (room_of w r) ++ [p])
          ∧ (∀ r', r ≠ r' → peers (room_of w2 r') = peers (room_of w r'))
          ∧ (∀ r', djs (room_of w2 r') = djs (room_of w r'))
          ∧ peer_heap w2 = peer_heap w
          ∧ (∀ r', is_Some (room_heap w !! r') → is_Some (room_heap w2 !! r')))
    as Hw2.
  { unfold w2. split_and!; try done.
    - intros Hex. autorewrite with world. by rewrite room_of_alter_eq by auto.
    - intros r' Hne. autorewrite with world. by rewrite room_of_alter_ne.
    - intros r'. autorewrite with world. by rewrite (room_field_alter djs).
    - intros r' ?. apply room_exists_alter. auto. }
  clearbody w2.
  destruct (nowPlaying (room_of w2 r)); wp_run;
    destruct (onDeck (room_of w2 r)); wp_run; exact Hw2.
Qed.

Lemma snoc_split {A} (l l1 l2 : list A) (x : A) :
  l ++ [x] = l1 ++ x :: l2 → x ∉ l → l1 ++ l2 = l.
Proof.
  revert l1. induction l as [|a l IH]; intros l1 Hl Hn.
  - destruct l1 as [|y l1]; [by injection Hl as <-|].
    injection Hl as _ Hl. by destruct l1.
  - destruct l1 as [|y l1].
    + injection Hl as -> _. destruct Hn. by left.
    + injection Hl as <- Hl. cbn. f_equal. apply IH; [done|].
      intros ?. apply Hn. by right.
Qed.

(** X19. A peer that enters a room and leaves it again: the roster is
    what it was. *)
Theorem addPeer_then_removePeer (w : World) (r : rref) (p : pref) :
  is_Some (room_heap w !! r) →
  p ∉ peers (room_of w r) →
  peers (room_of (after (Room.removePeer r p (after (Room.addPeer r p w)))) r)
  = peers (room_of w r).
Proof.
  intros Hex Hn. destruct (addPeer_effect w r p) as (Hp & _).
  specialize (Hp Hex).
  assert (p ∈ peers (room_of (after (Room.addPeer r p w)) r)) as Hin.
  { rewrite Hp. apply elem_of_app. right. by apply list_elem_of_singleton. }
  destruct (removePeer_effect _ r p Hin) as (-> & _).
  destruct (indexOf_splice p _ Hin) as (l1 & l2 & Hl & Hn1 & _ & ->).
  rewrite Hp in Hl. by eapply snoc_split.
Qed.

Lemma addPeer_then_removePeer_witness :
  let w := after (run a_left buoy) in
  peers (room_of (after (Room.removePeer 6 0 (after (Room.addPeer 6 0 w)))) 6)
  = peers (room_of w 6).
Proof.
  apply (addPeer_then_removePeer (after (run a_left buoy)) 6 0).
  - vm_compute. eexists. reflexivity.
  - by_decide.
Defined.

(** X20. A peer that is on the roster and enters the room once more is
    listed twice, and leaving takes one entry off: it is still on the
    roster. *)
Theorem entered_twice_left_once (w : World) (r : rref) (p : pref) :
  p ∈ peers (room_of w r) →
  let w1 := after (Room.addPeer r p w) in
  let w2 := after (Room.removePeer r p w1) in
  peers (room_of w1 r) = peers (room_of w r) ++ [p]
  ∧ p ∈ peers (room_of w2 r)
  ∧ length (peers (room_of w2 r)) = length (peers (room_of w r)).
Proof.
  intros Hin. pose proof (room_exists_peers _ _ _ Hin) as Hex. cbn zeta.
  destruct (addPeer_effect w r p) as (Hp & _). specialize (Hp Hex).
  assert (p ∈ peers (room_of (after (Room.addPeer r p w)) r)) as Hin1.
  { rewrite Hp. apply elem_of_app. by left. }
  destruct (removePeer_effect _ r p Hin1) as (-> & _).
  destruct (indexOf_splice p _ Hin1) as (l1 & l2 & Hl & Hn1 & _ & ->).
  split; [done|]. rewrite Hp in Hl. split.
  - clear -Hl Hin Hn1. induction l2 as [|y l2 _] using rev_ind.
    + apply app_inj_tail in Hl as [<- _]. done.
    + rewrite app_comm_cons, app_assoc in Hl. apply app_inj_tail in Hl as [_ <-].
      rewrite !elem_of_app. right. right. by apply list_elem_of_singleton.
  - apply (f_equal length) in Hl. rewrite !length_app in *. cbn in Hl. lia.
Qed.

Lemma entered_twice_left_once_witness :
  let w := after (run two_in_room buoy) in
  let w1 := after (Room.addPeer 6 2 w) in
  let w2 := after (Room.removePeer 6 2 w1) in
  peers (room_of w1 6) = peers (room_of w 6) ++ [2]
  ∧ 2 ∈ peers (room_of w2 6)
  ∧ length (peers (room_of w2 6)) = length (peers (room_of w 6)).
Proof.
  apply (entered_twice_left_once (after (run two_in_room buoy)) 6 2). by_decide.
Defined.

(** X21. A peer that left the room, whose [currentRoom] still names it,
    becomes one of its DJs and disconnects: [removePeer] does not find it
    on the roster and returns, and the peer stays on the list of DJs of a
    room it is not in, on a server it is no longer connected to. *)
Theorem dj_left_behind (w : World) (p : pref) (r : rref) :
  currentRoom (peer_of w p) = Some r →
  p ∉ peers (room_of w r) →
  is_Some (room_heap w !! r) →
  returned (Room.addDj r p w) = success →
  let w' := after (run [call p Peer.call_becomeDj; disconnect p] w) in
  p ∈ djs (room_of w' r)
  ∧ (p ∉ peers (room_of w' r))
  ∧ (p ∉ server_peers (server w')).
Proof.
  intros Hroom Hn Hex Hok. cbn zeta.
  assert (after (Peer.becomeDj p w) = after (Room.addDj r p w)) as Hb.
  { unfold Peer.becomeDj. rewrite after_bind. cbn [this_peer gets returned after fst snd].
    rewrite Hroom, after_bind. by destruct (negb _). }
  set (w1 := after (Room.addDj r p w)) in *.
  assert (djs (room_of w1 r) = djs (room_of w r) ++ [p]) as Hd.
  { destruct (addDj_djs w r p Hex) as [(_ & Hd & _)|[[m Hm] _]]; [done|congruence]. }
  assert (peers (room_of w1 r) = peers (room_of w r) ∧ peer_heap w1 = peer_heap w)
    as [Hp Hph].
  { apply (stable_addDj (λ w', peers (room_of w' r) = peers (room_of w r)
                               ∧ peer_heap w' = peer_heap w)); [|done].
    apply stable_and; [by apply (stable_room_field peers)|apply stable_peer_heap]. }
  cbn [run step Peer._handleMessage]. rewrite !after_bind.
  cbn [mret M_ret after returned fst snd]. rewrite Hb. fold w1.
  unfold Peer._handleDisconnect. rewrite !after_bind.
  cbn [this_peer gets returned after fst snd].
  assert (currentRoom (peer_of w1 p) = Some r) as ->.
  { unfold peer_of. by rewrite Hph. }
  rewrite removePeer_not_found by (apply indexOf_not_in; by rewrite Hp).
  cbn [after fst snd].
  unfold server_removePeer, modify. cbn [after fst snd]. autorewrite with world.
  split_and!.
  - rewrite Hd. apply elem_of_app. right. by apply list_elem_of_singleton.
  - by rewrite Hp.
  - cbn. intros [? _]%list_elem_of_filter. done.
Qed.

Lemma dj_left_behind_witness :
  let w' := after (run [call 0 Peer.call_becomeDj; disconnect 0]
                     (after (run a_left buoy))) in
  0 ∈ djs (room_of w' 6)
  ∧ (0 ∉ peers (room_of w' 6))
  ∧ (0 ∉ server_peers (server w')).
Proof.
  apply (dj_left_behind (after (run a_left buoy)) 0 6).
  - vm_compute. reflexivity.
  - by_decide.
  - vm_compute. eexists. reflexivity.
  - vm_compute. reflexivity.
Defined.

(** X22. [joinRoom] takes nobody off any roster: a peer that enters a
    second room stays on the roster of the first, while [currentRoom] now
    names the second. *)
Theorem joinRoom_keeps_rosters (w : World) (p : pref) (id : jsval) (s : RoomState) :
  Forall (λ r, is_Some (room_heap w !! r)) (rooms (server w)) →
  is_Some (peer_heap w !! p) →
  returned (Peer.joinRoom p id w) = room_state s →
  let w' := after (Peer.joinRoom p id w) in
  (∃ new, new ∈ rooms (server w)
          ∧ str (room_id (room_of w new)) = id
          ∧ currentRoom (peer_of w' p) = Some new
          ∧ p ∈ peers (room_of w' new))
  ∧ (∀ r q, q ∈ peers (room_of w r) → q ∈ peers (room_of w' r)).
Proof.
  intros Hrooms Hp. cbn zeta. wp_of (Peer.joinRoom p id w). unfold Peer.joinRoom.
  wp_run.
  destruct (list_find _ _) as [[i new]|] eqn:Hfind; wp_run; [|done].
  apply list_find_Some in Hfind as (Hi & Hid & _).
  apply list_elem_of_lookup_2 in Hi.
  rewrite Forall_forall in Hrooms. specialize (Hrooms new Hi).
  set (w1 := with_peer_heap (alter (set_currentRoom (Some new)) p) w).
  apply (wp_fact _ _ (λ x, x.1.2 = after (Room.addPeer new p w1))); [done|].
  intros [[[] w2] o2] ->. cbn [fst snd]. wp_run. intros _.
  destruct (addPeer_effect w1 new p) as (Hnew & Hother & _ & Hph & _).
  specialize (Hnew Hrooms). unfold w1 in Hnew at 2. autorewrite with world in Hnew.
  split.
  - exists new. split_and!; [done..| |].
    + unfold peer_of. rewrite Hph. fold (peer_of w1 p). unfold w1.
      by rewrite peer_of_alter_eq.
    + rewrite Hnew. apply elem_of_app. right. by apply list_elem_of_singleton.
  - intros r q Hq. destruct (decide (new = r)) as [<-|Hne].
    + rewrite Hnew. apply elem_of_app. by left.
    + by rewrite Hother.
Qed.

Lemma joinRoom_keeps_rosters_witness :
  let w := after (run two_rooms buoy) in
  let w' := after (Peer.joinRoom 2 (str "uuid-9") w) in
  (∃ new, new ∈ rooms (server w)
          ∧ str (room_id (room_of w new)) = str "uuid-9"
          ∧ currentRoom (peer_of w' 2) = Some new
          ∧ 2 ∈ peers (room_of w' new))
  ∧ (∀ r q, q ∈ peers (room_of w r) → q ∈ peers (room_of w' r)).
Proof.
  eapply (joinRoom_keeps_rosters (after (run two_rooms buoy)) 2 (str "uuid-9")).
  - by_decide.
  - vm_compute. eexists. reflexivity.
  - vm_compute. reflexivity.
Defined.

(** X23. What [addPeer] sends: the new roster to every peer on it that has
    a string [id] other than the joiner's, one [broadcastRooms], and to the
    joiner the playing track and the track on deck, if any. *)
Theorem addPeer_outputs (w : World) (r : rref) (p : pref) :
  is_Some (room_heap w !! r) →
  let R := room_of w r in
  let id := peer_id (peer_of w p) in
  let roster := peers R ++ [p] in
  outputs (Room.addPeer r p w)
  = ((λ q, Emit q (msg_setPeers ((λ q, serialize_peer (peer_of w q)) <$> roster)))
       <$> filter (λ q, is_str (peer_id (peer_of w q)) = true
                        ∧ peer_id (peer_of w q) ≠ id) roster)
    ++ [BroadcastRooms]
    ++ (if is_str id
        then from_option (λ np, [Emit p (msg_playTrack np)]) [] (nowPlaying R)
             ++ from_option (λ t, [Emit p (msg_setOnDeck (Some t))]) [] (onDeck R)
        else []).
Proof.
  intros Hex. cbn zeta. wp_of (Room.addPeer r p w). unfold Room.addPeer. wp_run.
  assert (∀ w0, broadcast_to w0 r
            (msg_setPeers ((λ q, serialize_peer (peer_of w q)) <$> peers (room_of w r) ++ [p]))
            [peer_id (peer_of w p)]
          = (λ q, Emit q (msg_setPeers ((λ q, serialize_peer (peer_of w q))
                                          <$> peers (room_of w r) ++ [p])))
            <$> filter (λ q, is_str (peer_id (peer_of w0 q)) = true
                             ∧ peer_id (peer_of w0 q) ≠ peer_id (peer_of w p))
                  (peers (room_of w0 r))) as Hb.
  { intros w0. unfold broadcast_to. f_equal. apply list_filter_iff. intros q.
    unfold reached, includes. rewrite andb_true_iff, negb_true_iff.
    rewrite bool_decide_eq_false, list_elem_of_singleton. tauto. }
  destruct (strict_eq _ _); wp_run; world_simpl;
    cbn [peers set_peers set_admin nowPlaying onDeck];
    rewrite Hb; autorewrite with world;
    rewrite ?(room_of_alter_eq _ _ _) by room_exists;
    cbn [peers set_peers set_admin];
    destruct (nowPlaying (room_of w r)), (onDeck (room_of w r)); wp_run;
    cbn [from_option]; destruct (is_str _); cbn; by rewrite ?app_nil_r.
Qed.

Lemma addPeer_outputs_witness :
  let w := after (run playing_a buoy) in
  let R := room_of w 6 in
  let id := peer_id (peer_of w 2) in
  let roster := peers R ++ [2] in
  outputs (Room.addPeer 6 2 w)
  = ((λ q, Emit q (msg_setPeers ((λ q, serialize_peer (peer_of w q)) <$> roster)))
       <$> filter (λ q, is_str (peer_id (peer_of w q)) = true
                        ∧ peer_id (peer_of w q) ≠ id) roster)
    ++ [BroadcastRooms]
    ++ (if is_str id
        then from_option (λ np, [Emit 2 (msg_playTrack np)]) [] (nowPlaying R)
             ++ from_option (λ t, [Emit 2 (msg_setOnDeck (Some t))]) [] (onDeck R)
        else []).
Proof.
  apply (addPeer_outputs (after (run playing_a buoy)) 6 2).
  vm_compute. eexists. reflexivity.
Defined.

(** ** Messages *)

(** X24. [broadcast] changes nothing, and what it sends is the message,
    once for each entry of the roster whose peer has a string [id] that is
    not excluded, in the order of the roster, and nothing else. *)
Theorem broadcast_reaches
    (w : World) (r : rref) (m : message) (ex : list jsval) :
  after (Room.broadcast r m ex w) = w
  ∧ outputs (Room.broadcast r m ex w)
    = (λ q, Emit q m)
      <$> filter (λ q, is_str (peer_id (peer_of w q)) = true
                       ∧ peer_id (peer_of w q) ∉ ex)
            (peers (room_of w r)).
Proof.
  split; [apply broadcast_after|]. rewrite broadcast_outputs. f_equal.
  apply list_filter_iff. intros q. unfold reached, includes.
  rewrite andb_true_iff, negb_true_iff, bool_decide_eq_false. tauto.
Qed.

(** X25. [setProfile] stores the profile, so that [serialize] returns it
    with the peer's [id], announces it to the roster of the peer's room,
    the peer included, and to nobody when the peer is in no room. *)
Theorem setProfile_then_serialize (w : World) (p : pref) (v : jsval) :
  is_Some (peer_heap w !! p) →
  let res := Peer.setProfile p v w in
  let id := peer_id (peer_of w p) in
  returned res = profile_set id
  ∧ serialize_peer (peer_of (after res) p) = {| info_id := id; info_profile := v |}
  ∧ room_heap (after res) = room_heap w
  ∧ outputs res
    = match currentRoom (peer_of w p) with
      | Some room => broadcast_to w room (msg_setPeerProfile id v) []
      | None => []
      end.
Proof.
  intros Hp. cbn zeta. wp_of (Peer.setProfile p v w). unfold Peer.setProfile.
  wp_run. rewrite peer_of_alter_eq by done.
  cbn [currentRoom peer_id profile set_profile].
  destruct (currentRoom (peer_of w p)); wp_run;
    rewrite ?peer_of_alter_eq by done; split_and!; try done.
  rewrite app_nil_r. unfold broadcast_to, reached. autorewrite with world.
  f_equal. apply list_filter_iff. intros q.
  destruct (decide (p = q)) as [<-|Hne].
  - by rewrite peer_of_alter_eq.
  - by rewrite peer_of_alter_ne.
Qed.

Lemma setProfile_then_serialize_witness :
  let w := after (run two_in_room buoy) in
  let res := Peer.setProfile 0 (str "dj a") w in
  let id := peer_id (peer_of w 0) in
  returned res = profile_set id
  ∧ serialize_peer (peer_of (after res) 0)
    = {| info_id := id; info_profile := str "dj a" |}
  ∧ room_heap (after res) = room_heap w
  ∧ outputs res
    = match currentRoom (peer_of w 0) with
      | Some room => broadcast_to w room (msg_setPeerProfile id (str "dj a")) []
      | None => []
      end.
Proof.
  apply (setProfile_then_serialize (after (run two_in_room buoy)) 0 (str "dj a")).
  vm_compute. eexists. reflexivity.
Defined.

(** ** Asking for tracks *)

(** X26. With nothing on deck, [spinDj] makes the next DJ the active one,
    announces it, and asks it for a track; the call waits for the answer
    and plays nothing meanwhile.  A next DJ without a string [id] cannot be
    asked: it is the active DJ, and nothing waits. *)
Theorem spinDj_asks_the_next_dj (w : World) (r : rref) (d : pref) :
  is_Some (room_heap w !! r) →
  Room.nextDj (room_of w r) = Some d →
  onDeck (room_of w r) = None →
  let res := Room.spinDj r w in
  let R' := room_of (after res) r in
  let asked := is_str (peer_id (peer_of w d)) in
  activeDj R' = Some d
  ∧ nowPlaying R' = nowPlaying (room_of w r)
  ∧ awaiting (after res)
    = awaiting w
      ++ (if asked then [{| await_id := counter w; await_cont := spinDj_await r d |}]
          else [])
  ∧ outputs res
    = broadcast_to w r (msg_setActiveDj (peer_id (peer_of w d))) []
      ++ (if asked then [Emit d msg_requestTrack] else []).
Proof.
  intros Hex Hd Hdeck. cbn zeta. wp_of (Room.spinDj r w). unfold Room.spinDj.
  wp_run. rewrite Hd. unfold Room.setActiveDj. wp_run. rewrite Hdeck. wp_run.
  world_simpl.
  destruct (is_str (peer_id (peer_of w d))); [apply wp_suspend|wp_run];
    cbn [fst snd app]; world_simpl; cbn [activeDj nowPlaying set_activeDj awaiting with_awaiting
                      with_counter with_room_heap];
    split_and!; try done; by rewrite ?app_nil_r.
Qed.

Lemma spinDj_asks_the_next_dj_witness :
  let w := after (run prefetching buoy) in
  let res := Room.spinDj 6 w in
  let R' := room_of (after res) 6 in
  let asked := is_str (peer_id (peer_of w 0)) in
  activeDj R' = Some 0
  ∧ nowPlaying R' = nowPlaying (room_of w 6)
  ∧ awaiting (after res)
    = awaiting w
      ++ (if asked then [{| await_id := counter w; await_cont := spinDj_await 6 0 |}]
          else [])
  ∧ outputs res
    = broadcast_to w 6 (msg_setActiveDj (peer_id (peer_of w 0))) []
      ++ (if asked then [Emit 0 msg_requestTrack] else []).
Proof.
  apply (spinDj_asks_the_next_dj (after (run prefetching buoy)) 6 0).
  - vm_compute. eexists. reflexivity.
  - vm_compute. reflexivity.
  - vm_compute. reflexivity.
Defined.

(** X27. The answer to the [requestTrack] of [fetchOnDeck], when the next
    DJ is still the one that was asked: the track gets a fresh [id] and its
    URL, the registry keeps it with its payload, and it is put on deck and
    announced without the payload. *)
Theorem fetchOnDeck_resume_puts_on_deck
    (w : World) (r : rref) (d : pref) (track : Track) :
  is_Some (room_heap w !! r) →
  Room.nextDj (room_of w r) = Some d →
  let res := Room.fetchOnDeck_resume r d track w in
  let id := "uuid-" +:+ pretty (counter w) in
  let t := Room.stamp id (url (server w)) track in
  onDeck (room_of (after res) r) = Some (Room.delete_data t)
  ∧ tracks (server (after res)) = <[id := t]> (tracks (server w))
  ∧ track_data t = track_data track
  ∧ track_data (Room.delete_data t) = undefined
  ∧ outputs res = broadcast_to w r (msg_setOnDeck (Some (Room.delete_data t))) [].
Proof.
  intros Hex Hd. cbn zeta. wp_of (Room.fetchOnDeck_resume r d track w).
  unfold Room.fetchOnDeck_resume. wp_run. rewrite Hd.
  rewrite bool_decide_eq_false_2 by (intros H; by apply H).
  unfold Room.setOnDeck. wp_run. world_simpl.
  change (server (with_counter S w)) with (server w).
  rewrite app_nil_r. split_and!; reflexivity.
Qed.

Lemma fetchOnDeck_resume_puts_on_deck_witness :
  let w := after (run playing_a buoy) in
  let res := Room.fetchOnDeck_resume 6 0 (song "b") w in
  let id := "uuid-" +:+ pretty (counter w) in
  let t := Room.stamp id (url (server w)) (song "b") in
  onDeck (room_of (after res) 6) = Some (Room.delete_data t)
  ∧ tracks (server (after res)) = <[id := t]> (tracks (server w))
  ∧ track_data t = track_data (song "b")
  ∧ track_data (Room.delete_data t) = undefined
  ∧ outputs res = broadcast_to w 6 (msg_setOnDeck (Some (Room.delete_data t))) [].
Proof.
  apply (fetchOnDeck_resume_puts_on_deck (after (run playing_a buoy)) 6 0 (song "b")).
  - vm_compute. eexists. reflexivity.
  - vm_compute. reflexivity.
Defined.

(** ** The skip timer *)

Lemma room_exists_skipWarning (w : World) (r : rref) :
  skipWarning (room_of w r) = true → is_Some (room_heap w !! r).
Proof.
  unfold room_of. rewrite lookup_total_alt.
  by destruct (room_heap w !! r); [eauto|].
Qed.

Lemma skip_inv_alter (f : Room → Room) (r : rref) (w : World) :
  (∀ R, skipWarning (f R) = skipWarning R) →
  (∀ R, skipTimeout (f R) = skipTimeout R) →
  skip_inv w → skip_inv (with_room_heap (alter f r) w).
Proof.
  intros Hw Ht (H1 & H2 & H3 & H4). split_and!; [|done|done|].
  - intros r' Hr'. by eapply H1, room_exists_alter_inv.
  - intros t r' Hin Hcb. destruct (H4 t r' Hin Hcb) as [? ?].
    by rewrite (room_field_alter skipWarning), (room_field_alter skipTimeout).
Qed.

Lemma stable_skip_inv : stable skip_inv.
Proof.
  split_and!; try done; intros; try by apply skip_inv_alter.
  destruct H as (H1 & H2 & H3 & H4). split_and!; [| |done|done].
  - intros r Hr. cbn. specialize (H1 r Hr). lia.
  - intros t Ht. cbn. specialize (H2 t Ht). lia.
Qed.

Lemma cancelled_subset (h : option handle) (ts : list Timer) (t : Timer) :
  t ∈ cancelled h ts → t ∈ ts ∧ h ≠ Some (timer_handle t).
Proof.
  destruct h as [h|]; cbn; [|done].
  intros [? ?]%list_elem_of_filter. split; [done|congruence].
Qed.

Lemma cancelled_NoDup (h : option handle) (ts : list Timer) :
  NoDup (timer_handle <$> ts) → NoDup (timer_handle <$> cancelled h ts).
Proof.
  intros H. destruct h as [h|]; cbn; [|done].
  eapply sublist_NoDup; [done|]. apply fmap_sublist, sublist_filter.
Qed.

Lemma skip_inv_cancelled (h : option handle) (w : World) :
  skip_inv w → skip_inv (with_timers (cancelled h) w).
Proof.
  intros (H1 & H2 & H3 & H4). split_and!; [done| | |].
  - intros t [Hin _]%cancelled_subset. by apply H2.
  - by apply cancelled_NoDup.
  - intros t r [Hin _]%cancelled_subset. by apply H4.
Qed.

Lemma skip_inv_clearTimeout (h : option handle) : keeps skip_inv (clearTimeout h).
Proof.
  intros w Hw. wp_of (clearTimeout h w). wp_run. by apply skip_inv_cancelled.
Qed.

Lemma skip_inv_setTimeout (cb : callback) (ms : Z) :
  (∀ r, cb ≠ skipExpired r) → keeps skip_inv (setTimeout cb ms).
Proof.
  intros Hcb w (H1 & H2 & H3 & H4). wp_of (setTimeout cb ms w). wp_run.
  split_and!.
  - intros r Hr. cbn. specialize (H1 r Hr). lia.
  - intros t [Hin| ->%list_elem_of_singleton]%elem_of_app; cbn;
      [specialize (H2 t Hin); lia|lia].
  - cbn. rewrite fmap_app. apply NoDup_app. split_and!; [done| |apply NoDup_singleton].
    intros h Hh ->%list_elem_of_singleton.
    apply list_elem_of_fmap in Hh as (t & Ht & Hin). specialize (H2 t Hin).
    cbn in Ht. lia.
  - intros t r [Hin| ->%list_elem_of_singleton]%elem_of_app Ht; [by apply H4|].
    cbn in Ht. by destruct (Hcb r).
Qed.

Lemma skip_inv_createRoom name p : keeps skip_inv (server_createRoom name p).
Proof.
  intros w (H1 & H2 & H3 & H4). wp_of (server_createRoom name p w).
  unfold server_createRoom. wp_run. split_and!.
  - intros r [R HR]. cbn in *. rewrite lookup_insert in HR. case_decide; [subst; lia|].
    assert (r < counter w) by eauto. lia.
  - intros t Ht. cbn in *. specialize (H2 t Ht). lia.
  - done.
  - intros t r Hin Hcb. cbn in Hin. destruct (H4 t r Hin Hcb) as (Hw & Hh).
    assert (r ≠ counter w) as Hne.
    { intros ->. apply room_exists_skipWarning in Hw.
      assert (counter w < counter w) by eauto. lia. }
    unfold room_of in *. cbn. rewrite !lookup_total_alt in *.
    rewrite lookup_insert_ne by done. done.
Qed.

(** Turning the warning of a room off when none of its skip timers is
    pending. *)
Lemma skip_inv_warning_off (r : rref) (w : World) :
  skip_inv w →
  (∀ t, t ∈ timers w → timer_callback t ≠ skipExpired r) →
  skip_inv (with_room_heap (alter (set_skipWarning false) r) w).
Proof.
  intros (H1 & H2 & H3 & H4) Hnone. split_and!; [|done|done|].
  - intros r' Hr'. by eapply H1, room_exists_alter_inv.
  - intros t r' Hin Hcb. cbn in Hin.
    assert (r ≠ r') as Hne by (intros ->; by apply (Hnone t)).
    rewrite room_of_alter_ne by done. by apply H4.
Qed.

(** Turning the warning on, with its timer. *)
Lemma skip_inv_warning_on (r : rref) (w : World) (ms : Z) :
  skip_inv w →
  is_Some (room_heap w !! r) →
  (∀ t, t ∈ timers w → timer_callback t ≠ skipExpired r) →
  skip_inv
    (with_room_heap (alter (set_skipTimeout (Some (counter w))) r)
       (with_timers (λ ts, ts ++ [{| timer_handle := counter w; due := ms;
                                     timer_callback := skipExpired r |}])
          (with_counter S
             (with_room_heap (alter (set_skipWarning true) r) w)))).
Proof.
  intros (H1 & H2 & H3 & H4) Hex Hnone. split_and!.
  - intros r' Hr'. apply room_exists_alter_inv in Hr'.
    assert (r' < counter w); [|cbn; lia].
    apply H1, (room_exists_alter_inv (set_skipWarning true) r). exact Hr'.
  - intros t [Hin| ->%list_elem_of_singleton]%elem_of_app; cbn;
      [specialize (H2 t Hin); lia|lia].
  - cbn. rewrite fmap_app. apply NoDup_app. split_and!; [done| |apply NoDup_singleton].
    intros h Hh ->%list_elem_of_singleton.
    apply list_elem_of_fmap in Hh as (t & Ht & Hin). specialize (H2 t Hin).
    cbn in Ht. lia.
  - intros t r' [Hin| ->%list_elem_of_singleton]%elem_of_app Hcb.
    + assert (r ≠ r') as Hne by (intros ->; by apply (Hnone t)).
      rewrite room_of_alter_ne by done. autorewrite with world.
      rewrite room_of_alter_ne by done. by apply H4.
    + cbn in Hcb. injection Hcb as <-. rewrite room_of_alter_eq by room_exists.
      autorewrite with world. rewrite room_of_alter_eq by done. done.
Qed.

Lemma skip_inv_setVote r id d : keeps skip_inv (Room.setVote r id d).
Proof.
  intros w Hinv. wp_of (Room.setVote r id d w). unfold Room.setVote. wp_run.
  destruct (nowPlaying (room_of w r)) as [np|] eqn:Hnp; wp_run; [|done].
  pose proof (room_exists_nowPlaying _ _ _ Hnp) as Hex.
  set (w1 := with_room_heap (alter (set_nowPlaying _) r) w).
  assert (skip_inv w1) as Hinv1 by by apply skip_inv_alter.
  assert (is_Some (room_heap w1 !! r)) as Hex1 by by apply room_exists_alter.
  set (skip := js_ge _ _ && js_ge _ _).
  destruct (skipWarning (room_of w r)) eqn:Hsw, skip; cbn [negb andb]; wp_run;
    try done.
  - apply skip_inv_warning_off; [by apply skip_inv_cancelled|].
    intros t [Hin Hne]%cancelled_subset Hcb.
    destruct Hinv as (_ & _ & _ & H4). destruct (H4 t r Hin Hcb) as [_ Hh].
    done.
  - apply (skip_inv_warning_on r w1); [done..|].
    intros t Hin Hcb. destruct Hinv as (_ & _ & _ & H4).
    destruct (H4 t r Hin Hcb) as [Hw _]. congruence.
Qed.

(** The skip timer fires: it has left the pending timers, and no other
    timer of the room is pending. *)
Lemma skip_inv_skipTimeout_fired (t : Timer) (r : rref) (w : World) :
  skip_inv w →
  t ∈ timers w → timer_callback t = skipExpired r →
  skip_inv (after (Room.skipTimeout_fired r
                     (with_timers (filter (λ t', timer_handle t' ≠ timer_handle t)) w))).
Proof.
  intros Hinv Hin Hcb.
  wp_of (Room.skipTimeout_fired r
           (with_timers (filter (λ t', timer_handle t' ≠ timer_handle t)) w)).
  unfold Room.skipTimeout_fired. wp_run.
  apply (wp_keeps_then skip_inv); [apply stable_endTrack, stable_skip_inv| |].
  - apply skip_inv_warning_off; [exact (skip_inv_cancelled (Some (timer_handle t)) w Hinv)|].
    intros t' [Hne Hin']%list_elem_of_filter Hcb'.
    destruct Hinv as (_ & _ & _ & H4).
    destruct (H4 t r Hin Hcb) as [_ E1]. destruct (H4 t' r Hin' Hcb') as [_ E2].
    congruence.
  - intros x Hx. by wp_run.
Qed.

Lemma skip_inv_on_timeout (h : handle) : keeps skip_inv (on_timeout h).
Proof.
  intros w Hinv. wp_of (on_timeout h w). unfold on_timeout. wp_run.
  destruct (list_find _ _) as [[i t]|] eqn:Hfind; wp_run; [|done].
  apply list_find_Some in Hfind as (Hi & <- & _).
  apply list_elem_of_lookup_2 in Hi.
  case_bool_decide; wp_run; [|done].
  pose proof (skip_inv_cancelled (Some (timer_handle t)) w Hinv) as Hinv1.
  destruct (timer_callback t) eqn:Hcb; cbn [run_callback].
  - by wp_run.
  - by apply skip_inv_skipTimeout_fired.
  - unfold removalTimeout_fired, server_removeRoom. wp_run.
    case_bool_decide; by wp_run.
Qed.

Lemma skip_inv_step (e : event) : keeps skip_inv (step e).
Proof.
  destruct stable_skip_inv as (H1 & H2 & H3 & H4 & H5 & H6 & H7).
  pose proof skip_inv_clearTimeout as Hclear.
  pose proof skip_inv_setVote as Hvote.
  pose proof skip_inv_createRoom as Hcreate.
  pose proof skip_inv_on_timeout as Htimeout.
  assert (∀ r p, keeps skip_inv (Room.removeDj r p)) as HremoveDj
    by (intros; apply stable_removeDj, stable_skip_inv).
  assert (∀ r p, keeps skip_inv (Room.addDj r p)) as HaddDj
    by (intros; apply stable_addDj, stable_skip_inv).
  assert (∀ r, keeps skip_inv (Room.endTrack r)) as Hend
    by (intros; apply stable_endTrack, stable_skip_inv).
  assert (∀ r, keeps skip_inv (Room.fetchOnDeck r)) as Hfetch
    by (intros; by apply keeps_fetchOnDeck).
  assert (∀ r v w, skip_inv w →
            skip_inv (with_room_heap (alter (set_peers v) r) w)) as Hpeers
    by (intros; by apply skip_inv_alter).
  assert (∀ r v w, skip_inv w →
            skip_inv (with_room_heap (alter (set_admin v) r) w)) as Hadmin
    by (intros; by apply skip_inv_alter).
  assert (∀ r v w, skip_inv w →
            skip_inv (with_room_heap (alter (set_removalTimeout v) r) w)) as Hrt
    by (intros; by apply skip_inv_alter).
  assert (∀ r p, keeps skip_inv (Room.addPeer r p)) as Hadd
    by (intros; by apply keeps_addPeer).
  assert (∀ r p, keeps skip_inv (Room.removePeer r p)) as Hrem.
  { intros. apply keeps_removePeer; try done. intros. by apply skip_inv_setTimeout. }
  assert (∀ p f w, skip_inv w → skip_inv (with_peer_heap (alter f p) w)) as Hpeer
    by done.
  assert (∀ r d t, keeps skip_inv (Room.spinDj_resume r d t)) as Hsr
    by (intros; by apply keeps_spinDj_resume).
  assert (∀ r d t, keeps skip_inv (Room.fetchOnDeck_resume r d t)) as Hfr
    by (intros; by apply keeps_fetchOnDeck_resume).
  pose proof (keeps_handleMessage skip_inv H1 Hclear Hpeer Hcreate Hadd Hrem
                HaddDj HremoveDj Hend Hvote Hfetch) as Hmsg.
  assert (∀ p, keeps skip_inv (Peer._handleDisconnect p)) as Hdis
    by (intros; by apply keeps_handleDisconnect).
  pose proof (keeps_fresh skip_inv H1) as Hfresh.
  destruct e; cbn [step]; [| exact (Hmsg p c) | | | |];
    (apply keeps_bind; [|intros; apply keeps_ret]).
  - unfold on_connection. apply keeps_bind; [exact Hfresh|intros p].
    apply keeps_bind; [by apply skip_inv_setTimeout|intros h].
    apply keeps_bind; [|intros]; by apply keeps_modify.
  - exact (Hdis p).
  - unfold on_answer. apply keeps_bind; [apply keeps_gets|intros ws].
    destruct (list_find _ ws) as [[? x]|]; [|apply keeps_pass].
    apply keeps_bind; [by apply keeps_modify|intros].
    destruct (await_cont x); [apply Hsr|apply Hfr].
  - exact (Htimeout h).
  - by apply keeps_modify.
Qed.

Lemma skip_inv_boot name base ws ws_ secret :
  skip_inv (boot name base ws ws_ secret).
Proof.
  split_and!.
  - intros r [R HR]. cbn in HR. by rewrite lookup_empty in HR.
  - intros t Hin. cbn in Hin. by apply elem_of_nil in Hin.
  - cbn. apply NoDup_nil_2.
  - intros t r Hin. cbn in Hin. by apply elem_of_nil in Hin.
Qed.

(** X28. In every state the server reaches, whatever was called since it
    started: at most one skip timer is pending for a room, and while it is
    pending the warning of the room is on and the room holds its handle. *)
Theorem skip_timer_always
    (name base : string) (ws ws_ : jsval) (secret : string) (es : list event)
    (r : rref) (i j : nat) (t1 t2 : Timer) :
  let w := after (run es (boot name base ws ws_ secret)) in
  timers w !! i = Some t1 →
  timers w !! j = Some t2 →
  timer_callback t1 = skipExpired r →
  timer_callback t2 = skipExpired r →
  i = j
  ∧ skipWarning (room_of w r) = true
  ∧ skipTimeout (room_of w r) = Some (timer_handle t1).
Proof.
  cbn zeta. intros Hi Hj Hc1 Hc2.
  assert (skip_inv (after (run es (boot name base ws ws_ secret))))
    as (_ & _ & Hnd & H4).
  { apply (keeps_run_steps skip_inv); [apply skip_inv_step|apply skip_inv_boot]. }
  destruct (H4 t1 r) as [Hw Hh1]; [by eapply list_elem_of_lookup_2|done|].
  destruct (H4 t2 r) as [_ Hh2]; [by eapply list_elem_of_lookup_2|done|].
  split_and!; [|done..].
  eapply NoDup_lookup; [exact Hnd| |].
  - by rewrite list_lookup_fmap, Hi.
  - rewrite list_lookup_fmap, Hj. cbn. congruence.
Qed.

Lemma skip_timer_always_witness :
  let w := after (run skip_race (boot "buoy" "http://h/" (str "ws://h") (str "ws://h") "secret")) in
  0 = 0
  ∧ skipWarning (room_of w 6) = true
  ∧ skipTimeout (room_of w 6) = Some 14.
Proof.
  apply (skip_timer_always "buoy" "http://h/" (str "ws://h") (str "ws://h") "secret"
           skip_race 6 0 0
           {| timer_handle := 14; due := 5000; timer_callback := skipExpired 6 |}
           {| timer_handle := 14; due := 5000; timer_callback := skipExpired 6 |}).
  - vm_compute. reflexivity.
  - vm_compute. reflexivity.
  - reflexivity.
  - reflexivity.
Defined.

(** ** Tracks that stay behind *)

(** X29. The next DJ, not the active one, stops being a DJ while its track
    is on deck and other DJs remain: [removeDj] calls [fetchOnDeck], which
    deletes the track from the registry, and the track stays on deck. *)
Theorem removeDj_of_the_next_dj (w : World) (r : rref) (p : pref) (t : Track) :
  p ∈ djs (room_of w r) →
  Room.nextDj (room_of w r) = Some p →
  activeDj (room_of w r) ≠ Some p →
  1 < length (djs (room_of w r)) →
  onDeck (room_of w r) = Some t →
  let res := Room.removeDj r p w in
  returned res = true
  ∧ onDeck (room_of (after res) r) = Some t
  ∧ tracks (server (after res)) !! property_key (track_id t) = None.
Proof.
  intros Hin Hnext Hact Hlen Hdeck. pose proof (room_exists_djs _ _ _ Hin) as Hex.
  cbn zeta. wp_of (Room.removeDj r p w). unfold Room.removeDj. wp_run.
  destruct (Z.eqb_spec (indexOf p (djs (room_of w r))) (-1)) as [E|E];
    [by apply indexOf_not_in in E|].
  wp_run. world_simpl. cbn [activeDj djs set_djs].
  rewrite (bool_decide_eq_false_2 (activeDj (room_of w r) = Some p)) by done.
  rewrite (bool_decide_eq_true_2 (Room.nextDj (room_of w r) = Some p)) by done.
  destruct (indexOf_splice p _ Hin) as (l1 & l2 & Hl & _ & _ & Hs).
  rewrite Hs. rewrite bool_decide_eq_false_2.
  2: { rewrite Hl in Hlen. rewrite !length_app in *. cbn in Hlen. lia. }
  cbn [negb andb]. apply wp_bind.
  match goal with |- wp (Room.fetchOnDeck r) ?w1 _ =>
    pose proof (fetchOnDeck_effect r w1) as (Hr & _ & _ & _ & _ & Htr);
    set (wf := w1) in *
  end.
  apply (wp_fact _ _ (λ x, room_heap x.1.2 = room_heap wf
                           ∧ tracks (server x.1.2)
                             = evict (onDeck (room_of wf r)) (tracks (server wf))));
    [by split|].
  intros [[[] w2] o2] [Hr2 Htr2]. cbn [fst snd] in *. wp_run.
  split_and!; [done| |].
  - unfold room_of at 1. rewrite Hr2. fold (room_of wf r). unfold wf.
    by rewrite room_of_alter_eq.
  - rewrite Htr2. unfold wf. rewrite room_of_alter_eq by done.
    cbn [onDeck set_djs]. rewrite Hdeck. cbn. apply lookup_delete_eq.
Qed.

Lemma removeDj_of_the_next_dj_witness :
  let w := after (run b_on_deck buoy) in
  let t := Room.delete_data (Room.stamp "uuid-13" "http://h/" (song "b")) in
  let res := Room.removeDj 6 2 w in
  returned res = true
  ∧ onDeck (room_of (after res) 6) = Some t
  ∧ tracks (server (after res)) !! property_key (track_id t) = None.
Proof.
  apply (removeDj_of_the_next_dj (after (run b_on_deck buoy)) 6 2).
  - by_decide.
  - vm_compute. reflexivity.
  - vm_compute. discriminate.
  - vm_compute. lia.
  - vm_compute. reflexivity.
Defined.

(** What an answer to [fetchOnDeck] does when the next DJ is still the one
    that was asked. *)
Lemma fetchOnDeck_resume_effect (w : World) (r : rref) (d : pref) (track : Track) :
  is_Some (room_heap w !! r) →
  Room.nextDj (room_of w r) = Some d →
  let w' := after (Room.fetchOnDeck_resume r d track w) in
  let id := "uuid-" +:+ pretty (counter w) in
  let t := Room.stamp id (url (server w)) track in
  onDeck (room_of w' r) = Some (Room.delete_data t)
  ∧ tracks (server w') = <[id := t]> (tracks (server w))
  ∧ Room.nextDj (room_of w' r) = Some d
  ∧ is_Some (room_heap w' !! r)
  ∧ counter w' = S (counter w).
Proof.
  intros Hex Hd. cbn zeta. wp_of (Room.fetchOnDeck_resume r d track w).
  unfold Room.fetchOnDeck_resume. wp_run. rewrite Hd.
  rewrite bool_decide_eq_false_2 by (intros H; by apply H).
  unfold Room.setOnDeck. wp_run. world_simpl.
  change (server (with_counter S w)) with (server w).
  split_and!; try reflexivity; [done|]. room_exists.
Qed.

(** X30. Two requests of [fetchOnDeck] to the same next DJ are both
    answered, as happens to the first DJ of a room: each answer enters its
    track in the registry and puts it on deck.  The first track is then in
    the registry without being on deck or playing, and the next
    [fetchOnDeck], which deletes the track on deck, leaves it there. *)
Theorem fetchOnDeck_answered_twice
    (w : World) (r : rref) (d : pref) (t1 t2 : Track) :
  is_Some (room_heap w !! r) →
  Room.nextDj (room_of w r) = Some d →
  let w2 := after (Room.fetchOnDeck_resume r d t2
                     (after (Room.fetchOnDeck_resume r d t1 w))) in
  let id1 := "uuid-" +:+ pretty (counter w) in
  let id2 := "uuid-" +:+ pretty (S (counter w)) in
  track_id <$> onDeck (room_of w2 r) = Some (str id2)
  ∧ track_title <$> tracks (server w2) !! id1 = Some (track_title t1)
  ∧ track_title <$> tracks (server w2) !! id2 = Some (track_title t2)
  ∧ track_title <$> tracks (server (after (Room.fetchOnDeck r w2))) !! id1
    = Some (track_title t1).
Proof.
  intros Hex Hd. cbn zeta.
  destruct (fetchOnDeck_resume_effect w r d t1 Hex Hd) as (_ & Htr1 & Hd1 & Hex1 & Hc1).
  destruct (fetchOnDeck_resume_effect _ r d t2 Hex1 Hd1) as (Hdeck2 & Htr2 & _ & _ & _).
  rewrite Hc1 in *.
  assert ("uuid-" +:+ pretty (counter w) ≠ "uuid-" +:+ pretty (S (counter w))) as Hne.
  { intros H%String.app_inj%pretty_nat_inj. lia. }
  destruct (fetchOnDeck_effect r (after (Room.fetchOnDeck_resume r d t2
              (after (Room.fetchOnDeck_resume r d t1 w))))) as (_ & _ & _ & _ & _ & ->).
  rewrite Hdeck2, Htr2, Htr1. cbn [evict fmap option_fmap option_map Room.delete_data
                                   Room.stamp track_id property_key].
  split_and!.
  - done.
  - by rewrite lookup_insert_ne, lookup_insert_eq by done.
  - by rewrite lookup_insert_eq.
  - by rewrite lookup_delete_ne, lookup_insert_ne, lookup_insert_eq by done.
Qed.

Lemma fetchOnDeck_answered_twice_witness :
  let w := after (run playing_a buoy) in
  let w2 := after (Room.fetchOnDeck_resume 6 0 (song "c")
                     (after (Room.fetchOnDeck_resume 6 0 (song "b") w))) in
  let id1 := "uuid-" +:+ pretty (counter w) in
  let id2 := "uuid-" +:+ pretty (S (counter w)) in
  track_id <$> onDeck (room_of w2 6) = Some (str id2)
  ∧ track_title <$> tracks (server w2) !! id1 = Some (track_title (song "b"))
  ∧ track_title <$> tracks (server w2) !! id2 = Some (track_title (song "c"))
  ∧ track_title <$> tracks (server (after (Room.fetchOnDeck 6 w2))) !! id1
    = Some (track_title (song "b")).
Proof.
  apply (fetchOnDeck_answered_twice (after (run playing_a buoy)) 6 0).
  - vm_compute. eexists. reflexivity.
  - vm_compute. reflexivity.
Defined.
